(** * Bingo Shuffler: grid geometry, region editor, cell board and cell mapping

    A shallow embedding of the TypeScript sources

      - [types.ts]                    (module [types])
      - [utils/imageUtils.ts]         (module [imageUtils]; module [Binary64]
                                       for its geometry, and the hit test
                                       of the board, on doubles)
      - [components/GridEditor.tsx]   (module [GridEditor])
      - [components/BingoBoard.tsx]   (module [BingoBoard])
      - [App.tsx]                     (module [App]; module [AppBoard] for
                                       the board it renders; modules
                                       [AppImage], [AppExport], [AppEditor]
                                       and [AppBoardEvents] for the image
                                       load, the export and the events of
                                       the two components it renders)

    and of the drawing effects of the two components (modules
    [GridEditorDraw] and [BingoBoardDraw]).

    Conventions of the embedding.

    - A JavaScript [number] that holds a coordinate or a length is an exact
      rational ([Q]) in the handlers, the mapping and the drawing: their
      properties are stated up to the rounding of IEEE doubles, and
      infinities and NaN are not modelled there.  Where rounding decides
      the outcome (whether the cells of [getCellRect] tile the region,
      which cell the hit test of the board finds), the functions are
      embedded on binary64 doubles (module [Binary64], on the kernel's
      primitive floats) and the properties are stated on doubles.  Numbers
      that only ever hold cell indices are [nat], pointer identifiers are
      [Z].
    - JavaScript arrays and objects live in an explicit memory
      ([JsMemory]): an array or an object is an address, so that the copy
      made by [[...array]] and the in-place writes of [shuffleArray] and
      [handleSwap] keep their meaning.
    - [Math.random] reads the next entry of an entropy tape stored in the
      memory; its contract is that every entry lies in [0, 1).
    - React state is a record, an event handler is a function from the state
      of the last render to the next state (and to what it hands to its
      callback, if anything).
    - What a drawing effect or the export draws is the list of its calls on
      the 2D context, in order. *)

From Stdlib Require Import QArith Qround Qminmax Qabs Lqa ZArith Lia.
From Stdlib Require Import Floats.
From stdpp Require Import base option list.

Local Open Scope Q_scope.

(** ** Numbers *)

Module Number.

(** An index or a count used as a [number]. *)
Definition of_nat (n : nat) : Q := inject_Z (Z.of_nat n).

(** [a < b] on numbers, as a boolean. *)
Definition ltb (a b : Q) : bool := negb (Qle_bool b a).

(** [a <= b] on numbers, as a boolean. *)
Definition leb (a b : Q) : bool := Qle_bool a b.

(** Truthiness of a number: every number but zero (NaN is not modelled). *)
Definition truthy (a : Q) : bool := negb (Qeq_bool a 0).

Definition Math_max (a b : Q) : Q := Qmax a b.
Definition Math_abs (a : Q) : Q := Qabs a.
Definition Math_floor (a : Q) : Z := Qfloor a.
Definition Math_pow2 (a : Q) : Q := a * a.

End Number.

(** ** JavaScript memory

    Arrays and objects are addresses into a memory; a computation is a
    function from a memory to a result and the memory it leaves behind.  It
    yields [None] where JavaScript throws a [TypeError] (a property read from
    [undefined]) and where an array is read or written outside its bounds:
    the model does not follow a program past that point (JavaScript itself
    would go on with [undefined] or a longer array). *)

Module JsMemory.

(** An address; addresses and numbers share the arrays. *)
Abbreviation addr := nat (only parsing).

Section Memory.
Context {T O : Type}.

Record Memory : Type := mkMemory {
  arrays : list (list T);   (** the array at address [a] is [arrays !! a] *)
  objects : list O;         (** the object at address [a] is [objects !! a] *)
  entropy : nat -> Q;       (** what the successive calls of [Math.random] return *)
  drawn : nat               (** how many calls were made so far *)
}.

Definition Js (A : Type) : Type := Memory -> option (A * Memory).

Definition ret {A} (a : A) : Js A := fun m => Some (a, m).
Definition bind {A B} (c : Js A) (k : A -> Js B) : Js B :=
  fun m => match c m with Some (a, m') => k a m' | None => None end.

Definition with_arrays (m : Memory) (l : list (list T)) : Memory :=
  {| arrays := l; objects := objects m; entropy := entropy m; drawn := drawn m |}.
Definition with_objects (m : Memory) (l : list O) : Memory :=
  {| arrays := arrays m; objects := l; entropy := entropy m; drawn := drawn m |}.

(** An array literal, [[...a]], or the result of [a.map(f)]: a new array. *)
Definition new_array (elems : list T) : Js addr :=
  fun m => Some (length (arrays m), with_arrays m (arrays m ++ [elems])).

(** All elements of an array, in order (for a spread, [map], [forEach]). *)
Definition array_elems (a : addr) : Js (list T) :=
  fun m => match arrays m !! a with Some l => Some (l, m) | None => None end.

(** [a.length] *)
Definition array_length (a : addr) : Js nat :=
  fun m => match arrays m !! a with Some l => Some (length l, m) | None => None end.

(** [a[i]] as a value *)
Definition array_get (a : addr) (i : Z) : Js T :=
  fun m =>
    if (i <? 0)%Z then None else
    match arrays m !! a with
    | Some l => match l !! Z.to_nat i with Some v => Some (v, m) | None => None end
    | None => None
    end.

(** [a[i] = v] *)
Definition array_set (a : addr) (i : Z) (v : T) : Js unit :=
  fun m =>
    if (i <? 0)%Z then None else
    match arrays m !! a with
    | Some l =>
        if decide (Z.to_nat i < length l)%nat
        then Some (tt, with_arrays m (<[a := <[Z.to_nat i := v]> l]> (arrays m)))
        else None
    | None => None
    end.

(** [a.push(v)] *)
Definition array_push (a : addr) (v : T) : Js unit :=
  fun m =>
    match arrays m !! a with
    | Some l => Some (tt, with_arrays m (<[a := l ++ [v]]> (arrays m)))
    | None => None
    end.

(** An object literal: a new object. *)
Definition new_object (o : O) : Js addr :=
  fun m => Some (length (objects m), with_objects m (objects m ++ [o])).

(** The fields of the object at [a]. *)
Definition object_get (a : addr) : Js O :=
  fun m => match objects m !! a with Some o => Some (o, m) | None => None end.

(** A write to fields of the object at [a]: the object becomes [f o]. *)
Definition object_update (a : addr) (f : O -> O) : Js unit :=
  fun m =>
    match objects m !! a with
    | Some o => Some (tt, with_objects m (<[a := f o]> (objects m)))
    | None => None
    end.

(** [Math.random()] *)
Definition Math_random : Js Q :=
  fun m => Some (entropy m (drawn m),
                 {| arrays := arrays m; objects := objects m;
                    entropy := entropy m; drawn := S (drawn m) |}).

(** A counted loop: the body runs once for each value of the loop
    variable, in the order of the list. *)
Fixpoint for_each {A} (values : list A) (body : A -> Js unit) : Js unit :=
  match values with
  | [] => ret tt
  | v :: rest => bind (body v) (fun _ => for_each rest body)
  end.

(** The callback of [a.map(f)] run on the elements in order, with the
    index of each. *)
Fixpoint map_from {A B} (i : nat) (f : A -> nat -> Js B) (l : list A) : Js (list B) :=
  match l with
  | [] => ret []
  | v :: rest =>
      bind (f v i) (fun b => bind (map_from (S i) f rest) (fun bs => ret (b :: bs)))
  end.

(** [a.map(f)]: a new array of the results. *)
Definition array_map (a : addr) (f : T -> nat -> Js T) : Js addr :=
  bind (array_elems a) (fun elems =>
  bind (map_from 0 f elems) (fun results => new_array results)).

End Memory.

Arguments Memory : clear implicits.
Arguments Js : clear implicits.

Declare Scope js_scope.
Delimit Scope js_scope with js.
Notation "v <- c ;; k" := (bind c (fun v => k))
  (at level 100, c at next level, right associativity) : js_scope.
Notation "c ;; k" := (bind c (fun _ => k))
  (at level 100, right associativity) : js_scope.

End JsMemory.
Import JsMemory.

(** ** types.ts *)

Module types.

(** [type BingoSize = 3 | 4 | 5] *)
Inductive BingoSize : Set := Size3 | Size4 | Size5.

Definition size_nat (s : BingoSize) : nat :=
  match s with Size3 => 3 | Size4 => 4 | Size5 => 5 end.

(** [interface Rect] *)
Record Rect : Set := mkRect { x : Q; y : Q; width : Q; height : Q }.

(** [interface CellMapping] *)
Record CellMapping : Set := mkCell { currentPos : nat; originalPos : nat }.

(** [interface GridConfig] *)
Record GridConfig : Set := mkGridConfig { size : BingoSize; rect : Rect }.

(** The anonymous type [{ x: number, y: number }] of a canvas position. *)
Record Pos : Set := mkPos { pos_x : Q; pos_y : Q }.

End types.
Import types.

(** ** utils/imageUtils.ts *)

Module imageUtils.

(** [getCellRect] and [isPointInRect] with their arithmetic exact, over
    rationals; [Binary64] has both on doubles, with the rounding of the
    source. *)
Definition getCellRect (gridRect : Rect) (size : BingoSize) (index : nat) : Rect :=
  let cellWidth := width gridRect / Number.of_nat (size_nat size) in
  let cellHeight := height gridRect / Number.of_nat (size_nat size) in
  let row := (index / size_nat size)%nat in
  let col := (index mod size_nat size)%nat in
  {| x := x gridRect + Number.of_nat col * cellWidth;
     y := y gridRect + Number.of_nat row * cellHeight;
     width := cellWidth;
     height := cellHeight |}.

Definition isPointInRect (px py : Q) (rect : Rect) : bool :=
  Number.leb (x rect) px && Number.leb px (x rect + width rect)
  && Number.leb (y rect) py && Number.leb py (y rect + height rect).

Section Shuffle.
Context {T O : Type}.
Local Open Scope js_scope.

(** One turn of the loop of [shuffleArray], at loop variable [i]. *)
Definition shuffle_step (newArr : addr) (i : nat) : Js T O unit :=
  r <- Math_random ;;
  let j := Number.Math_floor (r * Number.of_nat (i + 1)) in
  (* [newArr[i], newArr[j]] = [newArr[j], newArr[i]] *)
  vj <- array_get newArr j ;;
  vi <- array_get newArr (Z.of_nat i) ;;
  array_set newArr (Z.of_nat i) vj ;;
  array_set newArr j vi.

Definition shuffleArray (array : addr) : Js T O addr :=
  elems <- array_elems array ;;
  newArr <- new_array elems ;;
  len <- array_length newArr ;;
  (* for (let i = newArr.length - 1; i > 0; i--) *)
  for_each (rev (seq 1 (len - 1))) (shuffle_step newArr) ;;
  ret newArr.

End Shuffle.

End imageUtils.


(** ** App.tsx *)

Module App.
Local Open Scope js_scope.

(** Arrays hold numbers or addresses of [CellMapping] objects. *)
Definition Mem : Type := Memory nat CellMapping.

(** The state of the component ([image] and [fileInputRef] left out);
    [mapping] is the array of the last [setMapping]. *)
Record State : Set := mkState {
  gridConfig : GridConfig;
  mapping : addr;
  isEditingGrid : bool
}.

Definition setMapping (st : State) (newMapping : addr) : State :=
  {| gridConfig := gridConfig st; mapping := newMapping;
     isEditingGrid := isEditingGrid st |}.

Definition setGridConfig (st : State) (c : GridConfig) : State :=
  {| gridConfig := c; mapping := mapping st; isEditingGrid := isEditingGrid st |}.

Definition set_originalPos (v : nat) (m : CellMapping) : CellMapping :=
  {| currentPos := currentPos m; originalPos := v |}.

Definition initializeMapping (size : BingoSize) (st : State) : Js nat CellMapping State :=
  newMapping <- new_array [] ;;
  for_each (seq 0 (size_nat size * size_nat size)) (fun i =>
    cell <- new_object {| currentPos := i; originalPos := i |} ;;
    array_push newMapping cell) ;;
  ret (setMapping st newMapping).

Definition handleSizeChange (newSize : BingoSize) (st : State) : Js nat CellMapping State :=
  initializeMapping newSize
    (setGridConfig st {| size := newSize; rect := rect (gridConfig st) |}).

Definition handleShuffle (st : State) : Js nat CellMapping State :=
  originalPositions <-
    array_map (mapping st) (fun m _ => o <- object_get m ;; ret (originalPos o)) ;;
  shuffled <- imageUtils.shuffleArray originalPositions ;;
  newMapping <-
    array_map (mapping st) (fun m i =>
      o <- object_get m ;;
      v <- array_get shuffled (Z.of_nat i) ;;
      new_object (set_originalPos v o)) ;;
  ret (setMapping st newMapping).

Definition handleSwap (idxA idxB : nat) (st : State) : Js nat CellMapping State :=
  elems <- array_elems (mapping st) ;;
  newMapping <- new_array elems ;;
  (* const temp = newMapping[idxA].originalPos *)
  a <- array_get newMapping (Z.of_nat idxA) ;;
  cellA <- object_get a ;;
  let temp := originalPos cellA in
  (* newMapping[idxA].originalPos = newMapping[idxB].originalPos *)
  a' <- array_get newMapping (Z.of_nat idxA) ;;
  b <- array_get newMapping (Z.of_nat idxB) ;;
  cellB <- object_get b ;;
  object_update a' (set_originalPos (originalPos cellB)) ;;
  (* newMapping[idxB].originalPos = temp *)
  b' <- array_get newMapping (Z.of_nat idxB) ;;
  object_update b' (set_originalPos temp) ;;
  ret (setMapping st newMapping).

(** The [onRectChange] handed to the editor. *)
Definition onRectChange (r : Rect) (st : State) : State :=
  setGridConfig st {| size := size (gridConfig st); rect := r |}.

End App.

(** ** What the components see of the DOM *)

Module Dom.

(** A canvas: its [width] and [height] attributes and its
    [getBoundingClientRect()]. *)
Record Canvas : Set := mkCanvas {
  canvas_width : Q; canvas_height : Q;
  bRect_left : Q; bRect_top : Q; bRect_width : Q; bRect_height : Q
}.

(** A [React.PointerEvent], as far as the handlers read it. *)
Record PointerEvent : Set := mkPointerEvent {
  pointerId : Z; clientX : Q; clientY : Q
}.

(** Both components define the same [getCanvasMousePos]; [canvasRef] is
    [canvasRef.current]. *)
Definition getCanvasMousePos (canvasRef : option Canvas) (cX cY : Q) : Pos :=
  match canvasRef with
  | None => {| pos_x := 0; pos_y := 0 |}
  | Some canvas =>
      let scaleX := canvas_width canvas / bRect_width canvas in
      let scaleY := canvas_height canvas / bRect_height canvas in
      {| pos_x := (cX - bRect_left canvas) * scaleX;
         pos_y := (cY - bRect_top canvas) * scaleY |}
  end.

End Dom.
Import Dom.

(** ** components/BingoBoard.tsx *)

Module BingoBoard.

(** The props the handlers read ([mapping] is only drawn, [onSwap] is what
    [handlePointerUp] returns). *)
Record Props : Set := mkProps { size : BingoSize; rect : Rect }.

Record State : Set := mkState {
  draggedIdx : option nat;
  hoverIdx : option nat;
  dragPos : Pos
}.

Definition initial : State :=
  {| draggedIdx := None; hoverIdx := None; dragPos := {| pos_x := 0; pos_y := 0 |} |}.

(** The loop of both handlers,
    [for (let i = 0; i < size * size; i++) { if (isPointInRect(...)) { ...; break; } }]:
    the first [i] that passes the test, if any. *)
Definition cell_at (props : Props) (pos : Pos) : option nat :=
  find (fun i => imageUtils.isPointInRect (pos_x pos) (pos_y pos)
                   (imageUtils.getCellRect (rect props) (size props) i))
       (seq 0 (size_nat (size props) * size_nat (size props))).

Definition handlePointerDown (canvasRef : option Canvas) (props : Props)
    (st : State) (e : PointerEvent) : State :=
  let pos := getCanvasMousePos canvasRef (clientX e) (clientY e) in
  match cell_at props pos with
  | Some i => {| draggedIdx := Some i; hoverIdx := hoverIdx st; dragPos := pos |}
  | None => st
  end.

Definition handlePointerMove (canvasRef : option Canvas) (props : Props)
    (st : State) (e : PointerEvent) : State :=
  match draggedIdx st with
  | None => st
  | Some _ =>
      let pos := getCanvasMousePos canvasRef (clientX e) (clientY e) in
      let foundHover := cell_at props pos in
      {| draggedIdx := draggedIdx st; hoverIdx := foundHover; dragPos := pos |}
  end.

(** The new state, and the arguments of the call of [onSwap] if there is
    one. *)
Definition handlePointerUp (st : State) : State * option (nat * nat) :=
  let cleared := {| draggedIdx := None; hoverIdx := None; dragPos := dragPos st |} in
  match draggedIdx st, hoverIdx st with
  | Some d, Some h =>
      if decide (d = h) then (cleared, None) else (cleared, Some (d, h))
  | _, _ => (cleared, None)
  end.

End BingoBoard.

(** ** The board inside the app

    [App] renders [<BingoBoard ... mapping={mapping} onSwap={handleSwap} />],
    with [onPointerUp] and [onPointerCancel] both bound to the board's
    [handlePointerUp]: a contact-end or contact-cancel on the board's canvas
    runs that handler, and [handleSwap] if the handler calls [onSwap]. *)

Module AppBoard.
Local Open Scope js_scope.

Definition pointerUp (bst : BingoBoard.State) (ast : App.State)
  : Js nat CellMapping (BingoBoard.State * App.State) :=
  match BingoBoard.handlePointerUp bst with
  | (bst', Some (idxA, idxB)) =>
      ast' <- App.handleSwap idxA idxB ast ;; ret (bst', ast')
  | (bst', None) => ret (bst', ast)
  end.

End AppBoard.

(** ** components/GridEditor.tsx *)

Module GridEditor.

Inductive DragMode : Set := move | resize_br | pinch.

(** A [Map<number, {x, y}>]: the entries in insertion order. *)
Definition PointerMap : Set := list (Z * Pos).

Fixpoint Map_has (m : PointerMap) (k : Z) : bool :=
  match m with
  | [] => false
  | (k', _) :: rest => if decide (k' = k) then true else Map_has rest k
  end.

(** [m.set(k, v)]: an entry that exists keeps its place. *)
Fixpoint Map_set (m : PointerMap) (k : Z) (v : Pos) : PointerMap :=
  match m with
  | [] => [(k, v)]
  | (k', v') :: rest =>
      if decide (k' = k) then (k, v) :: rest else (k', v') :: Map_set rest k v
  end.

Fixpoint Map_delete (m : PointerMap) (k : Z) : PointerMap :=
  match m with
  | [] => []
  | (k', v') :: rest =>
      if decide (k' = k) then rest else (k', v') :: Map_delete rest k
  end.

Definition Map_size (m : PointerMap) : nat := length m.
Definition Map_values (m : PointerMap) : list Pos := map snd m.

Record State : Set := mkState {
  isDragging : bool;
  dragMode : option DragMode;
  startPos : Pos;
  activePointers : PointerMap;
  initialPinchDist : option Q;
  initialRectSize : option (Q * Q)     (** [{ w, h }] *)
}.

Definition initial : State :=
  {| isDragging := false; dragMode := None;
     startPos := {| pos_x := 0; pos_y := 0 |};
     activePointers := [];
     initialPinchDist := None; initialRectSize := None |}.

Section Handlers.
(** [Math.sqrt] has no rational model; the handlers are embedded for
    any function in its place. *)
Variable Math_sqrt : Q -> Q.

Definition getDistance (p1 p2 : Pos) : Q :=
  Math_sqrt (Number.Math_pow2 (pos_x p2 - pos_x p1)
             + Number.Math_pow2 (pos_y p2 - pos_y p1)).

(** The new state, and the argument of the call of [onRectChange] if
    there is one (none of the three handlers calls it twice). *)
Definition handlePointerDown (canvasRef : option Canvas) (rect : Rect)
    (st : State) (e : PointerEvent) : State * option Rect :=
  let pos := getCanvasMousePos canvasRef (clientX e) (clientY e) in
  let newPointers := Map_set (activePointers st) (pointerId e) pos in
  let st1 :=
    {| isDragging := isDragging st; dragMode := dragMode st;
       startPos := startPos st; activePointers := newPointers;
       initialPinchDist := initialPinchDist st;
       initialRectSize := initialRectSize st |} in
  if decide (Map_size newPointers = 1%nat) then
    let isNearHandle :=
      Number.ltb (Number.Math_abs (pos_x pos - (x rect + width rect))) 30
      && Number.ltb (Number.Math_abs (pos_y pos - (y rect + height rect))) 30 in
    let started (mode : DragMode) :=
      {| isDragging := true; dragMode := Some mode;
         startPos := pos; activePointers := newPointers;
         initialPinchDist := initialPinchDist st;
         initialRectSize := initialRectSize st |} in
    if isNearHandle then (started resize_br, None)
    else if Number.leb (x rect) (pos_x pos)
            && Number.leb (pos_x pos) (x rect + width rect)
            && Number.leb (y rect) (pos_y pos)
            && Number.leb (pos_y pos) (y rect + height rect)
    then (started move, None)
    else (st1, None)
  else if decide (Map_size newPointers = 2%nat) then
    match Map_values newPointers with
    | p0 :: p1 :: _ =>
        ({| isDragging := true; dragMode := Some pinch;
            startPos := startPos st; activePointers := newPointers;
            initialPinchDist := Some (getDistance p0 p1);
            initialRectSize := Some (width rect, height rect) |}, None)
    | _ =>
        ({| isDragging := isDragging st; dragMode := Some pinch;
            startPos := startPos st; activePointers := newPointers;
            initialPinchDist := initialPinchDist st;
            initialRectSize := initialRectSize st |}, None)
    end
  else (st1, None).

Definition handlePointerMove (canvasRef : option Canvas) (rect : Rect)
    (st : State) (e : PointerEvent) : State * option Rect :=
  let pos := getCanvasMousePos canvasRef (clientX e) (clientY e) in
  if negb (Map_has (activePointers st) (pointerId e)) then (st, None) else
  let newPointers := Map_set (activePointers st) (pointerId e) pos in
  let st1 :=
    {| isDragging := isDragging st; dragMode := dragMode st;
       startPos := startPos st; activePointers := newPointers;
       initialPinchDist := initialPinchDist st;
       initialRectSize := initialRectSize st |} in
  let moved :=
    {| isDragging := isDragging st; dragMode := dragMode st;
       startPos := pos; activePointers := newPointers;
       initialPinchDist := initialPinchDist st;
       initialRectSize := initialRectSize st |} in
  if negb (isDragging st) then (st1, None) else
  let dx := pos_x pos - pos_x (startPos st) in
  let dy := pos_y pos - pos_y (startPos st) in
  match dragMode st, Map_size newPointers with
  | Some move, 1%nat =>
      (moved, Some {| x := x rect + dx; y := y rect + dy;
                      width := width rect; height := height rect |})
  | Some resize_br, 1%nat =>
      (moved, Some {| x := x rect; y := y rect;
                      width := Number.Math_max 40 (width rect + dx);
                      height := Number.Math_max 40 (height rect + dy) |})
  | Some pinch, 2%nat =>
      match initialPinchDist st, initialRectSize st with
      | Some dist0, Some (w0, h0) =>
          if Number.truthy dist0 then
            match Map_values newPointers with
            | p0 :: p1 :: _ =>
                let currentDist := getDistance p0 p1 in
                let scale := currentDist / dist0 in
                let newWidth := Number.Math_max 40 (w0 * scale) in
                let newHeight := Number.Math_max 40 (h0 * scale) in
                let centerX := x rect + width rect / 2 in
                let centerY := y rect + height rect / 2 in
                (st1, Some {| x := centerX - newWidth / 2;
                              y := centerY - newHeight / 2;
                              width := newWidth; height := newHeight |})
            | _ => (st1, None)
            end
          else (st1, None)
      | _, _ => (st1, None)
      end
  | _, _ => (st1, None)
  end.

Definition handlePointerUp (st : State) (e : PointerEvent) : State * option Rect :=
  let newPointers := Map_delete (activePointers st) (pointerId e) in
  if decide (Map_size newPointers = 0%nat) then
    ({| isDragging := false; dragMode := None;
        startPos := startPos st; activePointers := newPointers;
        initialPinchDist := None; initialRectSize := None |}, None)
  else if decide (Map_size newPointers = 1%nat) then
    ({| isDragging := isDragging st; dragMode := None;
        startPos := startPos st; activePointers := newPointers;
        initialPinchDist := initialPinchDist st;
        initialRectSize := initialRectSize st |}, None)
  else
    ({| isDragging := isDragging st; dragMode := dragMode st;
        startPos := startPos st; activePointers := newPointers;
        initialPinchDist := initialPinchDist st;
        initialRectSize := initialRectSize st |}, None).

End Handlers.

End GridEditor.

(** ** Vocabulary of the properties *)

(** A point of the closed rectangle, and a point of its interior. *)
Definition inside (px py : Q) (r : Rect) : Prop :=
  (x r <= px /\ px <= x r + width r) /\ (y r <= py /\ py <= y r + height r).
Definition interior (px py : Q) (r : Rect) : Prop :=
  (x r < px /\ px < x r + width r) /\ (y r < py /\ py < y r + height r).

(** The contract of [Math.random]: a number of [0, 1). *)
Definition unit_interval (r : Q) : Prop := 0 <= r /\ r < 1.

(** The cells a mapping array holds: [refs] are the addresses in the array
    at [a], all different, and [cells] the objects they point to. *)
Definition holds_cells (m : App.Mem) (a : addr) (refs : list addr)
    (cells : list CellMapping) : Prop :=
  arrays m !! a = Some refs /\ NoDup refs
  /\ Forall2 (fun r c => objects m !! r = Some c) refs cells.

(** The states of [App] after [initializeMapping size] and any number of
    "shuffle all" and swap actions. *)
Inductive reachable (size : BingoSize) : App.State -> App.Mem -> Prop :=
  | reach_init st0 m0 st m :
      (forall d, unit_interval (entropy m0 d)) ->
      App.initializeMapping size st0 m0 = Some (st, m) ->
      reachable size st m
  | reach_shuffle st m st' m' :
      reachable size st m ->
      App.handleShuffle st m = Some (st', m') ->
      reachable size st' m'
  | reach_swap idxA idxB st m st' m' :
      reachable size st m ->
      App.handleSwap idxA idxB st m = Some (st', m') ->
      reachable size st' m'.

(** The states of the editor after any sequence of pointer events, whatever
    the canvas and the [rect] prop are at each of them. *)
Inductive editor_reachable (Math_sqrt : Q -> Q) : GridEditor.State -> Prop :=
  | editor_initial : editor_reachable Math_sqrt GridEditor.initial
  | editor_down canvasRef rect st e :
      editor_reachable Math_sqrt st ->
      editor_reachable Math_sqrt
        (fst (GridEditor.handlePointerDown Math_sqrt canvasRef rect st e))
  | editor_move canvasRef rect st e :
      editor_reachable Math_sqrt st ->
      editor_reachable Math_sqrt
        (fst (GridEditor.handlePointerMove Math_sqrt canvasRef rect st e))
  | editor_up st e :
      editor_reachable Math_sqrt st ->
      editor_reachable Math_sqrt (fst (GridEditor.handlePointerUp st e)).

(** The bottom-right corner is nearer than 30 pixels on both axes. *)
Definition near_handle (pos : Pos) (rect : Rect) : Prop :=
  Qabs (pos_x pos - (x rect + width rect)) < 30
  /\ Qabs (pos_y pos - (y rect + height rect)) < 30.

(** ** Concrete inputs of the examples *)

Module Examples.

(** A canvas shown at its own size, at the origin of the viewport. *)
Definition canvas : option Canvas :=
  Some {| canvas_width := 300; canvas_height := 300;
          bRect_left := 0; bRect_top := 0; bRect_width := 300; bRect_height := 300 |}.

Definition region : Rect := {| x := 0; y := 0; width := 90; height := 90 |}.
Definition board : BingoBoard.Props :=
  {| BingoBoard.size := Size3; BingoBoard.rect := region |}.

Definition square100 : Rect := {| x := 0; y := 0; width := 100; height := 100 |}.

(** [Math.sqrt] on the squares of rationals, where it is rational. *)
Definition sqrt_of_square (q : Q) : Q :=
  let r := Qred q in
  inject_Z (Z.sqrt (Qnum r)) / inject_Z (Z.sqrt (Z.pos (Qden r))).

(** An empty memory whose [Math.random] always answers one half. *)
Definition empty_memory {T O : Type} : Memory T O :=
  {| arrays := []; objects := []; entropy := fun _ => 1 # 2; drawn := 0 |}.

Definition app0 : App.State :=
  {| App.gridConfig := {| size := Size3; rect := region |};
     App.mapping := 0%nat; App.isEditingGrid := false |}.

(** A 3 x 3 mapping just initialised in the empty memory. *)
Definition identity9 : App.Mem :=
  {| arrays := [seq 0 9];
     objects := map (fun i => mkCell i i) (seq 0 9);
     entropy := fun _ => 1 # 2; drawn := 0 |}.

(** The editor resizing with pointer 1, anchored at (100, 100). *)
Definition resizing : GridEditor.State :=
  {| GridEditor.isDragging := true;
     GridEditor.dragMode := Some GridEditor.resize_br;
     GridEditor.startPos := {| pos_x := 100; pos_y := 100 |};
     GridEditor.activePointers := [(1%Z, {| pos_x := 100; pos_y := 100 |})];
     GridEditor.initialPinchDist := None;
     GridEditor.initialRectSize := None |}.

(** The editor pinching [square100] with pointers 1 and 2, which were 50
    apart when the pinch began. *)
Definition pinching : GridEditor.State :=
  {| GridEditor.isDragging := true;
     GridEditor.dragMode := Some GridEditor.pinch;
     GridEditor.startPos := {| pos_x := 0; pos_y := 0 |};
     GridEditor.activePointers :=
       [(1%Z, {| pos_x := 0; pos_y := 0 |}); (2%Z, {| pos_x := 30; pos_y := 40 |})];
     GridEditor.initialPinchDist := Some 50;
     GridEditor.initialRectSize := Some (100, 100) |}.

End Examples.

(** ** App.tsx: image load, export *)

Module AppImage.
Local Open Scope js_scope.

Definition setIsEditingGrid (st : App.State) (b : bool) : App.State :=
  {| App.gridConfig := App.gridConfig st; App.mapping := App.mapping st;
     App.isEditingGrid := b |}.

(** The [reader.onload] callback of [handleImageUpload], from the point
    where [loadImage] has resolved with an image of the given [width] and
    [height] ([setImage] left out; 0.7 is the rational 7/10). *)
Definition handleImageUpload_loaded (img_width img_height : Q) (st : App.State)
  : Js nat CellMapping App.State :=
  let minDim := Qmin img_width img_height in
  let gridW := minDim * (7 # 10) in
  let gridH := minDim * (7 # 10) in
  let newRect :=
    {| x := (img_width - gridW) / 2; y := (img_height - gridH) / 2;
       width := gridW; height := gridH |} in
  st1 <- App.initializeMapping Size5
           (App.setGridConfig st {| size := Size5; rect := newRect |}) ;;
  ret (setIsEditingGrid st1 true).

(** The [onClick] of the confirm / modify button. *)
Definition toggleEditing (st : App.State) : App.State :=
  setIsEditingGrid st (negb (App.isEditingGrid st)).

End AppImage.

(** ** Drawing

    What a handler or effect draws is the list of its calls on the 2D
    context that place something, in order; writes to style properties
    ([fillStyle], [lineWidth], shadows, [save] and [restore]) are left
    out. *)

Module Canvas2D.

Inductive Call : Set :=
  | drawImage (dx dy : Q)                        (** [drawImage(image, dx, dy)] *)
  | drawImage9 (sx sy sw sh dx dy dw dh : Q)     (** the nine-argument form *)
  | fillRect (rx ry rw rh : Q)
  | strokeRect (rx ry rw rh : Q).

End Canvas2D.

Module AppExport.
Local Open Scope js_scope.
Import Canvas2D.

(** [downloadImage], up to the drawing: [image] tells whether an image is
    loaded, [ctx] whether [getContext('2d')] gave a context.  The download
    link is left out. *)
Definition downloadImage (image ctx : bool) (st : App.State)
  : Js nat CellMapping (list Call) :=
  if negb image then ret [] else
  if negb ctx then ret [] else
  let rect := rect (App.gridConfig st) in
  let size := size (App.gridConfig st) in
  let cellW := width rect / Number.of_nat (size_nat size) in
  let cellH := height rect / Number.of_nat (size_nat size) in
  elems <- array_elems (App.mapping st) ;;
  blits <- map_from 0 (fun m i =>
      cell <- object_get m ;;
      let targetX := x rect + Number.of_nat (i mod size_nat size) * cellW in
      let targetY := y rect + Number.of_nat (i / size_nat size) * cellH in
      let sourceX := x rect + Number.of_nat (originalPos cell mod size_nat size) * cellW in
      let sourceY := y rect + Number.of_nat (originalPos cell / size_nat size) * cellH in
      ret (drawImage9 sourceX sourceY cellW cellH targetX targetY cellW cellH)) elems ;;
  ret (drawImage 0 0 :: blits).

End AppExport.

(** ** BingoBoard.tsx: the drawing effect *)

Module BingoBoardDraw.
Local Open Scope js_scope.
Import Canvas2D.

(** The effect of [BingoBoard] ([canvas], [image] and [ctx] present), for the
    [mapping] prop at address [mapping]. *)
Definition draw (props : BingoBoard.Props) (mapping : addr) (st : BingoBoard.State)
  : Js nat CellMapping (list Call) :=
  let rect := BingoBoard.rect props in
  let size := BingoBoard.size props in
  let cellW := width rect / Number.of_nat (size_nat size) in
  let cellH := height rect / Number.of_nat (size_nat size) in
  elems <- array_elems mapping ;;
  cells <- map_from 0 (fun m i =>
      if decide (BingoBoard.draggedIdx st = Some i) then
        ret [fillRect (x rect + Number.of_nat (i mod size_nat size) * cellW)
                      (y rect + Number.of_nat (i / size_nat size) * cellH) cellW cellH]
      else
        cell <- object_get m ;;
        let targetX := x rect + Number.of_nat (i mod size_nat size) * cellW in
        let targetY := y rect + Number.of_nat (i / size_nat size) * cellH in
        let sourceX := x rect + Number.of_nat (originalPos cell mod size_nat size) * cellW in
        let sourceY := y rect + Number.of_nat (originalPos cell / size_nat size) * cellH in
        let blit := drawImage9 sourceX sourceY cellW cellH targetX targetY cellW cellH in
        if decide (BingoBoard.hoverIdx st = Some i) then
          ret [blit; strokeRect (targetX + 3) (targetY + 3) (cellW - 6) (cellH - 6)]
        else ret [blit]) elems ;;
  floating <-
    match BingoBoard.draggedIdx st with
    | None => ret []
    | Some d =>
        m <- array_get mapping (Z.of_nat d) ;;
        cell <- object_get m ;;
        let sourceX := x rect + Number.of_nat (originalPos cell mod size_nat size) * cellW in
        let sourceY := y rect + Number.of_nat (originalPos cell / size_nat size) * cellH in
        ret [drawImage9 sourceX sourceY cellW cellH
               (pos_x (BingoBoard.dragPos st) - cellW / 2)
               (pos_y (BingoBoard.dragPos st) - cellH / 2) cellW cellH]
    end ;;
  ret (drawImage 0 0 :: concat cells ++ floating).

End BingoBoardDraw.

(** ** The components inside the app: events *)

(** [App] renders [<GridEditor rect={gridConfig.rect}
    onRectChange={(rect) => setGridConfig({ ...gridConfig, rect })} />]; the
    canvas binds [onPointerCancel] to [handlePointerUp] like [onPointerUp]. *)

Module AppEditor.

Inductive Event : Set :=
  | contact_begin (canvasRef : option Canvas) (e : PointerEvent)
  | contact_move (canvasRef : option Canvas) (e : PointerEvent)
  | contact_end (e : PointerEvent).

Section Wiring.
Variable Math_sqrt : Q -> Q.

Definition deliver (ast : App.State) (r : GridEditor.State * option Rect)
  : App.State * GridEditor.State :=
  match r with
  | (est, Some rect) => (App.onRectChange rect ast, est)
  | (est, None) => (ast, est)
  end.

Definition step (s : App.State * GridEditor.State) (ev : Event)
  : App.State * GridEditor.State :=
  let rect := rect (App.gridConfig (fst s)) in
  match ev with
  | contact_begin canvasRef e =>
      deliver (fst s) (GridEditor.handlePointerDown Math_sqrt canvasRef rect (snd s) e)
  | contact_move canvasRef e =>
      deliver (fst s) (GridEditor.handlePointerMove Math_sqrt canvasRef rect (snd s) e)
  | contact_end e =>
      deliver (fst s) (GridEditor.handlePointerUp (snd s) e)
  end.

Definition run (s : App.State * GridEditor.State) (evs : list Event)
  : App.State * GridEditor.State :=
  fold_left step evs s.

End Wiring.
End AppEditor.

(** The pointer events of the board inside [App]:
    [<BingoBoard size={gridConfig.size} rect={gridConfig.rect} ... />]. *)

Module AppBoardEvents.
Local Open Scope js_scope.

Inductive Event : Set :=
  | contact_begin (canvasRef : option Canvas) (e : PointerEvent)
  | contact_move (canvasRef : option Canvas) (e : PointerEvent)
  | contact_end.

Definition props (ast : App.State) : BingoBoard.Props :=
  {| BingoBoard.size := size (App.gridConfig ast);
     BingoBoard.rect := rect (App.gridConfig ast) |}.

Definition step (s : BingoBoard.State * App.State) (ev : Event)
  : Js nat CellMapping (BingoBoard.State * App.State) :=
  match ev with
  | contact_begin canvasRef e =>
      ret (BingoBoard.handlePointerDown canvasRef (props (snd s)) (fst s) e, snd s)
  | contact_move canvasRef e =>
      ret (BingoBoard.handlePointerMove canvasRef (props (snd s)) (fst s) e, snd s)
  | contact_end => AppBoard.pointerUp (fst s) (snd s)
  end.

Fixpoint run (s : BingoBoard.State * App.State) (evs : list Event)
  : Js nat CellMapping (BingoBoard.State * App.State) :=
  match evs with
  | [] => ret s
  | ev :: rest => s' <- step s ev ;; run s' rest
  end.

End AppBoardEvents.

(** ** More vocabulary *)

(** The states of [App] from the first image on: image loads, size
    changes, "shuffle all", swaps, rectangle changes and the confirm /
    modify toggle, in any order. *)
Inductive app_reachable : App.State -> App.Mem -> Prop :=
  | app_image w h st0 m0 st m :
      (forall d, unit_interval (entropy m0 d)) ->
      AppImage.handleImageUpload_loaded w h st0 m0 = Some (st, m) ->
      app_reachable st m
  | app_size newSize st m st' m' :
      app_reachable st m ->
      App.handleSizeChange newSize st m = Some (st', m') ->
      app_reachable st' m'
  | app_shuffle st m st' m' :
      app_reachable st m ->
      App.handleShuffle st m = Some (st', m') ->
      app_reachable st' m'
  | app_swap idxA idxB st m st' m' :
      app_reachable st m ->
      App.handleSwap idxA idxB st m = Some (st', m') ->
      app_reachable st' m'
  | app_rect r st m :
      app_reachable st m -> app_reachable (App.onRectChange r st) m
  | app_toggle st m :
      app_reachable st m -> app_reachable (AppImage.toggleEditing st) m.

(** The states of the board after any sequence of pointer events. *)
Inductive board_reachable : BingoBoard.State -> Prop :=
  | board_initial : board_reachable BingoBoard.initial
  | board_down canvasRef props st e :
      board_reachable st ->
      board_reachable (BingoBoard.handlePointerDown canvasRef props st e)
  | board_move canvasRef props st e :
      board_reachable st ->
      board_reachable (BingoBoard.handlePointerMove canvasRef props st e)
  | board_up st :
      board_reachable st -> board_reachable (fst (BingoBoard.handlePointerUp st)).

(** The identity mapping of [n] cells. *)
Definition identity_cells (n : nat) : list CellMapping :=
  map (fun i => {| currentPos := i; originalPos := i |}) (seq 0 n).

(** The keys of a pointer map. *)
Definition Map_keys (m : GridEditor.PointerMap) : list Z := map fst m.

(** ** The loop of [shuffleArray] as a function of the indices drawn *)

Section FisherYates.
Context {T : Type}.

(** [[l[i], l[j]] = [l[j], l[i]]] within bounds. *)
Definition exchange (l : list T) (i j : nat) : list T :=
  match l !! i, l !! j with
  | Some vi, Some vj => <[j := vi]> (<[i := vj]> l)
  | _, _ => l
  end.

(** The loop from [i = k] down to 1, exchanging [i] with [choice i]. *)
Fixpoint fisher_yates (choice : nat -> nat) (k : nat) (l : list T) : list T :=
  match k with
  | 0%nat => l
  | S k' => fisher_yates choice k' (exchange l k (choice k))
  end.

End FisherYates.

(** A tape for [Math.random] that makes the loop, started at [i = k] with
    no number drawn before, pick [choice i] at each [i]. *)
Definition tape_of (choice : nat -> nat) (k : nat) (d : nat) : Q :=
  let i := (k - d)%nat in
  Number.of_nat (choice i) / Number.of_nat (i + 1).

(** The nine-argument [drawImage] that copies rectangle [s] of the image
    onto rectangle [t] of the canvas. *)
Definition blit (s t : Rect) : Canvas2D.Call :=
  Canvas2D.drawImage9 (x s) (y s) (width s) (height s) (x t) (y t) (width t) (height t).

(** The editor follows a single contact [id] in mode [mode]. *)
Definition following (mode : GridEditor.DragMode) (id : Z) (est : GridEditor.State) : Prop :=
  GridEditor.dragMode est = Some mode /\ GridEditor.isDragging est = true
  /\ exists p, GridEditor.activePointers est = [(id, p)].

(** A contact-move of contact [id]; an event that is no contact-begin. *)
Definition is_move_of (id : Z) (ev : AppEditor.Event) : Prop :=
  exists canvasRef e, ev = AppEditor.contact_move canvasRef e /\ pointerId e = id.
Definition is_move (ev : AppEditor.Event) : Prop :=
  exists canvasRef e, ev = AppEditor.contact_move canvasRef e.
Definition no_begin (ev : AppEditor.Event) : Prop :=
  forall canvasRef e, ev <> AppEditor.contact_begin canvasRef e.

(** ** GridEditor.tsx: the drawing effect *)

Module GridEditorDraw.

(** The calls on the 2D context that clear, paint or build a path, in
    order; writes to style properties and [setLineDash] are left out.  The
    only [arc] of the effect is a full circle (from 0 to [Math.PI * 2]): its
    centre and radius are kept. *)
Inductive Op : Set :=
  | clearRect (rx ry rw rh : Q)
  | drawImage (dx dy : Q)
  | beginPath
  | path_rect (rx ry rw rh : Q)                  (** [ctx.rect] *)
  | fill_evenodd
  | fill
  | stroke
  | strokeRect (rx ry rw rh : Q)
  | moveTo (px py : Q)
  | lineTo (px py : Q)
  | arc (cx cy radius : Q).

(** The loop [for (let i = 1; i < size; i++)]. *)
Definition grid_lines (rect : Rect) (size : BingoSize) : list Op :=
  let cellW := width rect / Number.of_nat (size_nat size) in
  let cellH := height rect / Number.of_nat (size_nat size) in
  concat (map (fun i =>
      [moveTo (x rect + Number.of_nat i * cellW) (y rect);
       lineTo (x rect + Number.of_nat i * cellW) (y rect + height rect);
       moveTo (x rect) (y rect + Number.of_nat i * cellH);
       lineTo (x rect + width rect) (y rect + Number.of_nat i * cellH)])
    (seq 1 (size_nat size - 1))).

(** The effect of [GridEditor] ([canvas], [image] and [ctx] present). *)
Definition draw (canvas : Canvas) (rect : Rect) (size : BingoSize) : list Op :=
  [clearRect 0 0 (canvas_width canvas) (canvas_height canvas);
   drawImage 0 0;
   beginPath;
   path_rect 0 0 (canvas_width canvas) (canvas_height canvas);
   path_rect (x rect) (y rect) (width rect) (height rect);
   fill_evenodd;
   strokeRect (x rect) (y rect) (width rect) (height rect);
   beginPath]
  ++ grid_lines rect size
  ++ [stroke;
      beginPath;
      arc (x rect + width rect) (y rect + height rect) 12;
      fill;
      stroke].

End GridEditorDraw.

(** ** Further concrete inputs *)

Module Scenarios.

(** A 600 x 400 canvas shown at half its size, 10 from the left and 20 from
    the top of the viewport. *)
Definition shrunk_canvas : Canvas :=
  {| canvas_width := 600; canvas_height := 400;
     bRect_left := 10; bRect_top := 20; bRect_width := 300; bRect_height := 200 |}.

(** [App] on a 100 x 100 image whose region was then set to the square from
    (15, 15) to (85, 85): 5 x 5 cells of side 14, the identity mapping. *)
Definition photo_rect : Rect := {| x := 15; y := 15; width := 70; height := 70 |}.
Definition photo_state : App.State :=
  {| App.gridConfig := {| size := Size5; rect := photo_rect |};
     App.mapping := 0%nat; App.isEditingGrid := true |}.
Definition photo_memory : App.Mem :=
  {| arrays := [seq 0 25];
     objects := map (fun i => mkCell i i) (seq 0 25);
     entropy := fun _ => 1 # 2; drawn := 0 |}.

(** [App] with the region [square100], being edited. *)
Definition editing : App.State :=
  {| App.gridConfig := {| size := Size3; rect := Examples.square100 |};
     App.mapping := 0%nat; App.isEditingGrid := true |}.

(** The editor moving the region with pointer 1, last seen at (50, 50). *)
Definition moving : GridEditor.State :=
  {| GridEditor.isDragging := true;
     GridEditor.dragMode := Some GridEditor.move;
     GridEditor.startPos := {| pos_x := 50; pos_y := 50 |};
     GridEditor.activePointers := [(1%Z, {| pos_x := 50; pos_y := 50 |})];
     GridEditor.initialPinchDist := None;
     GridEditor.initialRectSize := None |}.

(** The board dragging cell 0, the pointer at (45, 45). *)
Definition dragging : BingoBoard.State :=
  {| BingoBoard.draggedIdx := Some 0%nat; BingoBoard.hoverIdx := Some 4%nat;
     BingoBoard.dragPos := {| pos_x := 45; pos_y := 45 |} |}.

Definition at_ (id : Z) (cx cy : Q) : PointerEvent :=
  {| pointerId := id; clientX := cx; clientY := cy |}.

End Scenarios.

(** ** The geometry and the board's hit test on doubles

    The same functions as in [imageUtils] and [BingoBoard], with every
    [number] that holds a coordinate as an IEEE 754 binary64 float (the
    kernel's [float]) and every [/], [*], [+], [-], [<=] and [>=] as the
    binary64 operation: the rounding of the source is kept.  Cell indices
    and sizes stay [nat]; they enter the arithmetic through [of_nat], which
    is exact for them. *)

Module Binary64.
Local Open Scope float_scope.

Definition of_nat (n : nat) : float :=
  PrimFloat.of_uint63 (Uint63.of_Z (Z.of_nat n)).

Record Rect : Set := mkRect { x : float; y : float; width : float; height : float }.
Record Pos : Set := mkPos { pos_x : float; pos_y : float }.

Definition getCellRect (gridRect : Rect) (size : BingoSize) (index : nat) : Rect :=
  let cellWidth := width gridRect / of_nat (size_nat size) in
  let cellHeight := height gridRect / of_nat (size_nat size) in
  let row := (index / size_nat size)%nat in
  let col := (index mod size_nat size)%nat in
  {| x := x gridRect + of_nat col * cellWidth;
     y := y gridRect + of_nat row * cellHeight;
     width := cellWidth;
     height := cellHeight |}.

(** [px >= rect.x] is [rect.x <= px]: both are false when one side is NaN. *)
Definition isPointInRect (px py : float) (rect : Rect) : bool :=
  (x rect <=? px) && (px <=? x rect + width rect)
  && (y rect <=? py) && (py <=? y rect + height rect).

Record Canvas : Set := mkCanvas {
  canvas_width : float; canvas_height : float;
  bRect_left : float; bRect_top : float; bRect_width : float; bRect_height : float
}.

Record PointerEvent : Set := mkPointerEvent {
  pointerId : Z; clientX : float; clientY : float
}.

Definition getCanvasMousePos (canvasRef : option Canvas) (cX cY : float) : Pos :=
  match canvasRef with
  | None => {| pos_x := 0; pos_y := 0 |}
  | Some canvas =>
      let scaleX := canvas_width canvas / bRect_width canvas in
      let scaleY := canvas_height canvas / bRect_height canvas in
      {| pos_x := (cX - bRect_left canvas) * scaleX;
         pos_y := (cY - bRect_top canvas) * scaleY |}
  end.

(** The props and the state of [BingoBoard], and its two handlers that
    scan the cells. *)
Record Props : Set := mkProps { size : BingoSize; rect : Rect }.

Record State : Set := mkState {
  draggedIdx : option nat;
  hoverIdx : option nat;
  dragPos : Pos
}.

Definition cell_at (props : Props) (pos : Pos) : option nat :=
  find (fun i => isPointInRect (pos_x pos) (pos_y pos)
                   (getCellRect (rect props) (size props) i))
       (seq 0 (size_nat (size props) * size_nat (size props))).

Definition handlePointerDown (canvasRef : option Canvas) (props : Props)
    (st : State) (e : PointerEvent) : State :=
  let pos := getCanvasMousePos canvasRef (clientX e) (clientY e) in
  match cell_at props pos with
  | Some i => {| draggedIdx := Some i; hoverIdx := hoverIdx st; dragPos := pos |}
  | None => st
  end.

Definition handlePointerMove (canvasRef : option Canvas) (props : Props)
    (st : State) (e : PointerEvent) : State :=
  match draggedIdx st with
  | None => st
  | Some _ =>
      let pos := getCanvasMousePos canvasRef (clientX e) (clientY e) in
      let foundHover := cell_at props pos in
      {| draggedIdx := draggedIdx st; hoverIdx := foundHover; dragPos := pos |}
  end.

(** *** Vocabulary *)

(** A point strictly inside a rectangle, with the edges as [isPointInRect]
    computes them. *)
Definition interior (px py : float) (rect : Rect) : bool :=
  (x rect <? px) && (px <? x rect + width rect)
  && (y rect <? py) && (py <? y rect + height rect).

(** The rounded edges of the cells meet: along each axis the first cell
    begins where the region begins, every cell ends (at [x + width], as
    [isPointInRect] computes it) where the next one begins, the last one
    ends where the region ends, and no cell ends before it begins.  The
    columns are read off row 0 and the rows off column 0. *)
Definition seamless (region : Rect) (size : BingoSize) : bool :=
  let n := size_nat size in
  let cell := getCellRect region size in
  (x (cell 0%nat) =? x region)
  && forallb (fun c =>
        (x (cell c) <=? x (cell c) + width (cell c))
        && (x (cell c) + width (cell c)
            =? (if decide (S c = n) then x region + width region else x (cell (S c)))))
       (seq 0 n)
  && (y (cell 0%nat) =? y region)
  && forallb (fun r =>
        (y (cell (r * n)%nat) <=? y (cell (r * n)%nat) + height (cell (r * n)%nat))
        && (y (cell (r * n)%nat) + height (cell (r * n)%nat)
            =? (if decide (S r = n) then y region + height region
                else y (cell (S r * n)%nat))))
       (seq 0 n).

End Binary64.

(** Regions and positions of the examples on doubles.  A decimal such as
    11.2 is written [112 / 10]: the division is correctly rounded, so the
    quotient is the double the literal [11.2] denotes in the source. *)
Module Doubles.
Local Open Scope float_scope.

(** Every edge is exact: 3 x 3 cells of side 30. *)
Definition region90 : Binary64.Rect :=
  {| Binary64.x := 0; Binary64.y := 0; Binary64.width := 90; Binary64.height := 90 |}.



(** {9.8, 0, 44.8, 44.8}: columns 2 and 3 of the 4 x 4 grid overlap. *)
Definition region448 : Binary64.Rect :=
  {| Binary64.x := 98 / 10; Binary64.y := 0;
     Binary64.width := 448 / 10; Binary64.height := 448 / 10 |}.

(** The region [handleImageUpload] sets for a 1920 x 1080 image. *)
Definition region1080 : Binary64.Rect :=
  {| Binary64.x := 582; Binary64.y := 162; Binary64.width := 756; Binary64.height := 756 |}.

(** A canvas shown at its own size, at the origin of the viewport. *)
Definition canvas : option Binary64.Canvas :=
  Some {| Binary64.canvas_width := 1920; Binary64.canvas_height := 1080;
          Binary64.bRect_left := 0; Binary64.bRect_top := 0;
          Binary64.bRect_width := 1920; Binary64.bRect_height := 1080 |}.

(** A 600 x 400 canvas shown at half its size, 10 from the left and 20 from
    the top of the viewport. *)
Definition shrunk_canvas : option Binary64.Canvas :=
  Some {| Binary64.canvas_width := 600; Binary64.canvas_height := 400;
          Binary64.bRect_left := 10; Binary64.bRect_top := 20;
          Binary64.bRect_width := 300; Binary64.bRect_height := 200 |}.

Definition idle : Binary64.State :=
  {| Binary64.draggedIdx := None; Binary64.hoverIdx := None;
     Binary64.dragPos := {| Binary64.pos_x := 0; Binary64.pos_y := 0 |} |}.

End Doubles.

(** ** Tactics *)

(** Projections of the memory records the run of a computation builds. *)
Ltac js_simpl :=
  cbn [arrays objects entropy drawn with_arrays with_objects ret fst snd].

(** * Properties *)

(** ** Numbers *)

Lemma of_nat_S (k : nat) : Number.of_nat (S k) == Number.of_nat k + 1.
Proof.
  unfold Number.of_nat. rewrite Nat2Z.inj_succ, <- Z.add_1_r, inject_Z_plus. reflexivity.
Qed.

Lemma of_nat_le (a b : nat) : (a <= b)%nat -> Number.of_nat a <= Number.of_nat b.
Proof. intros H. unfold Number.of_nat. rewrite <- Zle_Qle. lia. Qed.

Lemma of_nat_nonneg (a : nat) : 0 <= Number.of_nat a.
Proof. apply (of_nat_le 0 a). lia. Qed.

Lemma of_nat_pos (a : nat) : (0 < a)%nat -> 0 < Number.of_nat a.
Proof. intros H. unfold Number.of_nat. change 0 with (inject_Z 0). rewrite <- Zlt_Qlt. lia. Qed.

Lemma cell_span (n : nat) (w : Q) :
  (0 < n)%nat -> Number.of_nat n * (w / Number.of_nat n) == w.
Proof.
  intros H. apply Qmult_div_r. pose proof (of_nat_pos n H). lra.
Qed.

(** The side of a cell of a region of non-negative side. *)
Lemma cell_size_nonneg (n : nat) (w : Q) :
  (0 < n)%nat -> 0 <= w -> 0 <= w / Number.of_nat n.
Proof.
  intros Hn Hw. apply Qle_shift_div_l; [by apply of_nat_pos | lra].
Qed.

(** A coordinate of [0, n * c] falls in one of the [n] slots of width [c]. *)
Lemma slot_exists (n : nat) (c t : Q) :
  (0 < n)%nat -> 0 <= t -> t <= Number.of_nat n * c ->
  exists k, (k < n)%nat /\ Number.of_nat k * c <= t /\ t <= Number.of_nat k * c + c.
Proof.
  induction n as [| m IH]; [lia |]. intros _ Ht Hn.
  destruct (Qlt_le_dec t (Number.of_nat m * c)) as [Hlt | Hge].
  - destruct m as [| m'].
    + change (Number.of_nat 0) with 0 in Hlt. lra.
    + destruct IH as (k & Hk & H1 & H2); [lia | lra | lra |].
      exists k. split; [lia | tauto].
  - exists m. split; [lia |]. split; [exact Hge |].
    rewrite of_nat_S in Hn. lra.
Qed.

Lemma slot_within (n k : nat) (c : Q) :
  (k < n)%nat -> 0 <= c ->
  0 <= Number.of_nat k * c /\ Number.of_nat k * c + c <= Number.of_nat n * c.
Proof.
  intros Hk Hc. split.
  - apply Qmult_le_0_compat; [apply of_nat_nonneg | exact Hc].
  - assert (H : Number.of_nat (S k) <= Number.of_nat n) by (apply of_nat_le; lia).
    rewrite of_nat_S in H.
    assert (H' : (Number.of_nat k + 1) * c <= Number.of_nat n * c)
      by (apply Qmult_le_compat_r; assumption).
    lra.
Qed.

Lemma slot_order (a b : nat) (c : Q) :
  (a < b)%nat -> 0 <= c -> Number.of_nat a * c + c <= Number.of_nat b * c.
Proof.
  intros Hab Hc.
  assert (H : Number.of_nat (S a) <= Number.of_nat b) by (apply of_nat_le; lia).
  rewrite of_nat_S in H.
  assert (H' : (Number.of_nat a + 1) * c <= Number.of_nat b * c)
    by (apply Qmult_le_compat_r; assumption).
  lra.
Qed.

(** ** Geometry *)

Lemma leb_le (a b : Q) : Number.leb a b = true <-> a <= b.
Proof. apply Qle_bool_iff. Qed.

Lemma ltb_lt (a b : Q) : Number.ltb a b = true <-> a < b.
Proof.
  unfold Number.ltb. rewrite negb_true_iff.
  destruct (Qle_bool b a) eqn:E.
  - apply Qle_bool_iff in E. split; [discriminate | intros H; lra].
  - split; [intros _ | reflexivity].
    destruct (Qlt_le_dec a b) as [H | H]; [exact H |].
    apply Qle_bool_iff in H. congruence.
Qed.

Lemma isPointInRect_inside (px py : Q) (r : Rect) :
  imageUtils.isPointInRect px py r = true <-> inside px py r.
Proof.
  unfold imageUtils.isPointInRect, inside.
  rewrite !andb_true_iff, !leb_le. tauto.
Qed.

(** C9.  [isPointInRect px py rect] answers [true] exactly when
    [rect.x <= px <= rect.x + rect.width] and
    [rect.y <= py <= rect.y + rect.height].  In particular, for a rectangle
    of non-negative width and height, a point of the left or right edge, a
    point of the top or bottom edge, and each of the four corners is
    inside. *)
Theorem isPointInRect_inclusive (px py : Q) (rect : Rect) :
  (imageUtils.isPointInRect px py rect = true <->
     (x rect <= px /\ px <= x rect + width rect) /\
     (y rect <= py /\ py <= y rect + height rect))
  /\ (0 <= width rect -> 0 <= height rect ->
      ((px == x rect \/ px == x rect + width rect) ->
       y rect <= py /\ py <= y rect + height rect ->
       imageUtils.isPointInRect px py rect = true)
      /\ ((py == y rect \/ py == y rect + height rect) ->
          x rect <= px /\ px <= x rect + width rect ->
          imageUtils.isPointInRect px py rect = true)
      /\ ((px == x rect \/ px == x rect + width rect) ->
          (py == y rect \/ py == y rect + height rect) ->
          imageUtils.isPointInRect px py rect = true)).
Proof.
  split; [apply isPointInRect_inside |].
  intros Hw Hh. split; [| split]; intros Hx Hy; apply isPointInRect_inside;
    unfold inside.
  - destruct Hx as [Hx | Hx]; repeat split; lra.
  - destruct Hx as [Hx | Hx]; repeat split; lra.
  - destruct Hx as [Hx | Hx], Hy as [Hy | Hy]; repeat split; lra.
Qed.

Lemma isPointInRect_inclusive_witness :
  imageUtils.isPointInRect 90 0 Examples.region = true
  /\ imageUtils.isPointInRect 0 45 Examples.region = true
  /\ imageUtils.isPointInRect 45 90 Examples.region = true.
Proof.
  assert (H0 : 0 <= 90) by discriminate.
  split; [| split].
  - destruct (isPointInRect_inclusive 90 0 Examples.region) as [_ Hedges].
    destruct (Hedges H0 H0) as (_ & _ & Hcorner).
    apply Hcorner; [right | left]; reflexivity.
  - destruct (isPointInRect_inclusive 0 45 Examples.region) as [_ Hedges].
    destruct (Hedges H0 H0) as (Hside & _ & _).
    apply Hside; [left; reflexivity | split; discriminate].
  - destruct (isPointInRect_inclusive 45 90 Examples.region) as [_ Hedges].
    destruct (Hedges H0 H0) as (_ & Hbase & _).
    apply Hbase; [right; reflexivity | split; discriminate].
Defined.

Lemma size_nat_pos (s : BingoSize) : (0 < size_nat s)%nat.
Proof. destruct s; simpl; lia. Qed.

Lemma cell_index (n row col : nat) :
  (col < n)%nat -> ((row * n + col) / n = row /\ (row * n + col) mod n = col)%nat.
Proof.
  intros H. split.
  - rewrite Nat.div_add_l by lia. rewrite Nat.div_small by lia. lia.
  - rewrite Nat.add_comm, Nat.Div0.mod_add. apply Nat.mod_small. lia.
Qed.

Lemma cell_coords (n i : nat) :
  (0 < n)%nat -> (i < n * n)%nat -> (i / n < n /\ i mod n < n)%nat.
Proof.
  intros Hn Hi. split.
  - apply Nat.Div0.div_lt_upper_bound. lia.
  - apply Nat.mod_upper_bound. lia.
Qed.

Lemma cell_coords_differ (n i j : nat) :
  (0 < n)%nat -> i <> j -> (i / n <> j / n \/ i mod n <> j mod n)%nat.
Proof.
  intros Hn Hij.
  destruct (decide (i / n = j / n)%nat) as [Hd | Hd]; [| left; exact Hd].
  right. intros Hm. apply Hij.
  rewrite (Nat.div_mod_eq i n), (Nat.div_mod_eq j n). congruence.
Qed.

(** Without rounding, that is with the formulas of [getCellRect] over exact
    rationals, the cells tile every region of positive width and height: a
    point is in the region exactly when it is in one of the cells, and no
    point is in the interior of two different cells.  The gaps and overlaps
    that occur on doubles come from rounding alone. *)
Lemma exact_cells_tile (region : Rect) (size : BingoSize) :
  0 < width region -> 0 < height region ->
  let n := size_nat size in
  let cellWidth := width region / Number.of_nat n in
  let cellHeight := height region / Number.of_nat n in
  (forall i, (i < n * n)%nat ->
     width (imageUtils.getCellRect region size i) = cellWidth
     /\ height (imageUtils.getCellRect region size i) = cellHeight
     /\ x (imageUtils.getCellRect region size i)
        = x region + Number.of_nat (i mod n) * cellWidth
     /\ y (imageUtils.getCellRect region size i)
        = y region + Number.of_nat (i / n) * cellHeight)
  /\ (forall px py,
        inside px py region <->
        exists i, (i < n * n)%nat /\ inside px py (imageUtils.getCellRect region size i))
  /\ (forall i j, (i < n * n)%nat -> (j < n * n)%nat -> i <> j ->
      forall px py,
        ~ (interior px py (imageUtils.getCellRect region size i)
           /\ interior px py (imageUtils.getCellRect region size j))).
Proof.
  intros Hw Hh n cw ch.
  pose proof (size_nat_pos size) as Hn. fold n in Hn.
  pose proof (cell_span n (width region) Hn) as Hsw. fold cw in Hsw.
  pose proof (cell_span n (height region) Hn) as Hsh. fold ch in Hsh.
  assert (Hcw : 0 <= cw) by (apply cell_size_nonneg; [exact Hn | lra]).
  assert (Hch : 0 <= ch) by (apply cell_size_nonneg; [exact Hn | lra]).
  split; [| split].
  - intros i _. repeat split; reflexivity.
  - intros px py. unfold inside. split.
    + intros [[Hx1 Hx2] [Hy1 Hy2]].
      destruct (slot_exists n cw (px - x region) Hn) as (col & Hcol & Hc1 & Hc2);
        [lra | lra |].
      destruct (slot_exists n ch (py - y region) Hn) as (row & Hrow & Hr1 & Hr2);
        [lra | lra |].
      exists (row * n + col)%nat. split; [nia |].
      unfold imageUtils.getCellRect. cbn [x y width height]. fold n cw ch.
      destruct (cell_index n row col Hcol) as [-> ->].
      repeat split; lra.
    + intros (i & Hi & H). revert H.
      unfold imageUtils.getCellRect. cbn [x y width height]. fold n cw ch.
      destruct (cell_coords n i Hn Hi) as [Hrow Hcol].
      pose proof (slot_within n (i mod n) cw Hcol Hcw) as [? ?].
      pose proof (slot_within n (i / n) ch Hrow Hch) as [? ?].
      intros [[? ?] [? ?]]. repeat split; lra.
  - intros i j Hi Hj Hij px py. unfold interior.
    unfold imageUtils.getCellRect. cbn [x y width height]. fold n cw ch.
    intros [[[? ?] [? ?]] [[? ?] [? ?]]].
    destruct (cell_coords_differ n i j Hn Hij) as [Hd | Hd].
    + destruct (Nat.lt_gt_cases (i / n) (j / n)) as [[Hlt | Hlt] _]; [exact Hd | |].
      * pose proof (slot_order _ _ ch Hlt Hch). lra.
      * pose proof (slot_order _ _ ch Hlt Hch). lra.
    + destruct (Nat.lt_gt_cases (i mod n) (j mod n)) as [[Hlt | Hlt] _]; [exact Hd | |].
      * pose proof (slot_order _ _ cw Hlt Hcw). lra.
      * pose proof (slot_order _ _ cw Hlt Hcw). lra.
Qed.

(** ** Scanning the cells of the board *)

(** [find] over [seq a m] returns the least index that passes the test. *)
Lemma find_seq_first (f : nat -> bool) (m a i : nat) :
  find f (seq a m) = Some i <->
  (a <= i < a + m)%nat /\ f i = true /\ forall j, (a <= j < i)%nat -> f j = false.
Proof.
  revert a. induction m as [| m IH]; intros a; simpl.
  - split; [discriminate | lia].
  - destruct (f a) eqn:Ha.
    + split.
      * intros [= <-]. repeat split; [lia | lia | exact Ha | lia].
      * intros (Hi & Hfi & Hfirst). f_equal.
        destruct (decide (a = i)) as [-> | Hne]; [reflexivity |].
        rewrite Hfirst in Ha by lia. discriminate.
    + rewrite IH. split.
      * intros (Hi & Hfi & Hfirst). repeat split; [lia | lia | exact Hfi |].
        intros j Hj. destruct (decide (j = a)) as [-> | Hne]; [exact Ha |].
        apply Hfirst. lia.
      * intros (Hi & Hfi & Hfirst).
        assert (a <> i) by (intros ->; congruence).
        repeat split; [lia | lia | exact Hfi |].
        intros j Hj. apply Hfirst. lia.
Qed.

Lemma find_seq_none (f : nat -> bool) (m a : nat) :
  find f (seq a m) = None <-> forall j, (a <= j < a + m)%nat -> f j = false.
Proof.
  revert a. induction m as [| m IH]; intros a; simpl.
  - split; [intros _ j; lia | reflexivity].
  - destruct (f a) eqn:Ha.
    + split; [discriminate |]. intros H. rewrite H in Ha by lia. discriminate.
    + rewrite IH. split.
      * intros H j Hj. destruct (decide (j = a)) as [-> | Hne]; [exact Ha |].
        apply H. lia.
      * intros H j Hj. apply H. lia.
Qed.


(** ** The order of doubles *)

Section FloatOrder.
Local Open Scope float_scope.
Implicit Types a b c : float.

(** The comparisons of [spec_float] are lexicographic on sign, exponent
    and mantissa. *)
Ltac sf_compare :=
  unfold SFleb, SFltb, SFeqb, SFcompare;
  repeat match goal with
         | |- context [Pos.compare_cont Eq ?p ?q] =>
             change (Pos.compare_cont Eq p q) with (Pos.compare p q)
         end;
  repeat match goal with
         | |- context [Z.compare ?p ?q] => destruct (Z.compare_spec p q)
         | |- context [Pos.compare ?p ?q] => destruct (Pos.compare_spec p q)
         end;
  cbn; try congruence; try lia.

Ltac sf_cases :=
  repeat match goal with
         | s : spec_float |- _ => destruct s as [[] | [] | | [] ? ?]
         end;
  first [ by cbn; congruence | by sf_compare ].

Ltac to_spec :=
  rewrite ?FloatAxioms.leb_spec, ?FloatAxioms.ltb_spec, ?FloatAxioms.eqb_spec;
  repeat match goal with
         | |- context [Prim2SF ?a] => generalize (Prim2SF a); intro
         end.

Lemma double_leb_trans a b c : (a <=? b) = true -> (b <=? c) = true -> (a <=? c) = true.
Proof. to_spec. sf_cases. Qed.

Lemma double_eqb_leb a b : (a =? b) = true -> (a <=? b) = true.
Proof. to_spec. sf_cases. Qed.



Lemma double_ltb_leb_trans a b c : (a <? b) = true -> (b <=? c) = true -> (a <? c) = true.
Proof. to_spec. sf_cases. Qed.

Lemma double_leb_ltb_trans a b c : (a <=? b) = true -> (b <? c) = true -> (a <? c) = true.
Proof. to_spec. sf_cases. Qed.

Lemma double_ltb_irrefl a : (a <? a) = false.
Proof. to_spec. sf_cases. Qed.

(** A double compares with itself exactly when it is not NaN, and two
    doubles that are not NaN compare one way or the other. *)
Lemma double_leb_self_l a b : (a <=? b) = true -> (a <=? a) = true.
Proof. to_spec. sf_cases. Qed.



End FloatOrder.

(** ** Cells whose rounded edges meet *)

(** One axis: [n] intervals from [lo c] to [hi c] that begin at [X], end
    at [X'] and meet. *)
Section Strip.
Local Open Scope float_scope.
Variables (n : nat) (lo hi : nat -> float) (X X' : float).
Hypothesis Hn : (0 < n)%nat.
Hypothesis Hfirst : (lo 0%nat =? X) = true.
Hypothesis Hcell : forall c, (c < n)%nat -> (lo c <=? hi c) = true.
Hypothesis Hnext : forall c, (S c < n)%nat -> (hi c =? lo (S c)) = true.
Hypothesis Hlast : (hi (n - 1)%nat =? X') = true.

Lemma strip_lo_mono (c d : nat) :
  (c + d < n)%nat -> (lo c <=? lo (c + d)%nat) = true.
Proof using Hn Hcell Hnext.
  induction d as [| d IH]; intros Hd.
  - rewrite Nat.add_0_r. apply (double_leb_self_l _ _ (Hcell c ltac:(lia))).
  - apply (double_leb_trans _ (lo (c + d)%nat)); [apply IH; lia |].
    apply (double_leb_trans _ (hi (c + d)%nat)); [apply Hcell; lia |].
    replace (c + S d)%nat with (S (c + d)) by lia.
    apply double_eqb_leb, Hnext. lia.
Qed.

Lemma strip_hi_lo (c d : nat) :
  (c < d)%nat -> (d < n)%nat -> (hi c <=? lo d) = true.
Proof using Hn Hcell Hnext.
  intros Hcd Hd. apply (double_leb_trans _ (lo (S c))).
  - apply double_eqb_leb, Hnext. lia.
  - replace d with (S c + (d - S c))%nat by lia. apply strip_lo_mono. lia.
Qed.



Lemma strip_apart (c d : nat) (p : float) :
  (c < n)%nat -> (d < n)%nat -> c <> d ->
  (lo c <? p) = true -> (p <? hi c) = true ->
  (lo d <=? p) = true -> (p <=? hi d) = true -> False.
Proof using Hn Hcell Hnext.
  intros Hc Hd Hcd Hlo Hhi Hlo' Hhi'.
  assert (Hpp : (p <? p) = true); [| by rewrite double_ltb_irrefl in Hpp].
  destruct (Nat.lt_gt_cases c d) as [[Hlt | Hlt] _]; [exact Hcd | |].
  - apply (double_ltb_leb_trans _ (hi c)); [exact Hhi |].
    apply (double_leb_trans _ (lo d)); [by apply strip_hi_lo | exact Hlo'].
  - apply (double_leb_ltb_trans _ (hi d)); [exact Hhi' |].
    apply (double_leb_ltb_trans _ (lo c)); [by apply strip_hi_lo | exact Hlo].
Qed.

End Strip.

Section Seamless.
Local Open Scope float_scope.
Variables (region : Binary64.Rect) (size : BingoSize).
Hypothesis Hseam : Binary64.seamless region size = true.

Let n := size_nat size.
Let cell := Binary64.getCellRect region size.
Let col_lo (c : nat) := Binary64.x (cell c).
Let col_hi (c : nat) := Binary64.x (cell c) + Binary64.width (cell c).
Let row_lo (r : nat) := Binary64.y (cell (r * n)%nat).
Let row_hi (r : nat) := Binary64.y (cell (r * n)%nat) + Binary64.height (cell (r * n)%nat).

Lemma cell_edges (i : nat) :
  Binary64.x (cell i) = col_lo (i mod n)
  /\ Binary64.x (cell i) + Binary64.width (cell i) = col_hi (i mod n)
  /\ Binary64.y (cell i) = row_lo (i / n)
  /\ Binary64.y (cell i) + Binary64.height (cell i) = row_hi (i / n).
Proof.
  pose proof (size_nat_pos size) as Hn. fold n in Hn.
  unfold col_lo, col_hi, row_lo, row_hi, cell, Binary64.getCellRect.
  cbn [Binary64.x Binary64.y Binary64.width Binary64.height]. fold n.
  rewrite Nat.Div0.mod_mod, Nat.div_mul by lia. auto.
Qed.

Lemma cell_hit (px py : float) (i : nat) :
  Binary64.isPointInRect px py (cell i)
  = (col_lo (i mod n) <=? px) && (px <=? col_hi (i mod n))
    && (row_lo (i / n) <=? py) && (py <=? row_hi (i / n)).
Proof.
  unfold Binary64.isPointInRect.
  destruct (cell_edges i) as (-> & -> & -> & ->). reflexivity.
Qed.

Lemma cell_interior (px py : float) (i : nat) :
  Binary64.interior px py (cell i)
  = (col_lo (i mod n) <? px) && (px <? col_hi (i mod n))
    && (row_lo (i / n) <? py) && (py <? row_hi (i / n)).
Proof.
  unfold Binary64.interior.
  destruct (cell_edges i) as (-> & -> & -> & ->). reflexivity.
Qed.

Lemma seamless_columns :
  (col_lo 0%nat =? Binary64.x region) = true
  /\ (forall c, (c < n)%nat -> (col_lo c <=? col_hi c) = true)
  /\ (forall c, (S c < n)%nat -> (col_hi c =? col_lo (S c)) = true)
  /\ (col_hi (n - 1)%nat =? Binary64.x region + Binary64.width region) = true.
Proof.
  pose proof (size_nat_pos size) as Hn. fold n in Hn.
  pose proof Hseam as H. unfold Binary64.seamless in H. fold n cell in H.
  apply andb_true_iff in H as [H _]. apply andb_true_iff in H as [H _].
  apply andb_true_iff in H as [H0 H].
  assert (Hall : forall c, (c < n)%nat ->
            (col_lo c <=? col_hi c) = true
            /\ (col_hi c =? (if decide (S c = n)
                             then Binary64.x region + Binary64.width region
                             else col_lo (S c))) = true).
  { intros c Hc. rewrite forallb_forall in H.
    specialize (H c ltac:(apply in_seq; lia)).
    by apply andb_true_iff in H. }
  split; [exact H0 |]. split; [intros c Hc; apply (Hall c Hc) |]. split.
  - intros c Hc. destruct (Hall c ltac:(lia)) as [_ Hm].
    destruct (decide (S c = n)); [lia | exact Hm].
  - destruct (Hall (n - 1)%nat ltac:(lia)) as [_ Hm].
    destruct (decide (S (n - 1) = n)); [exact Hm | lia].
Qed.

Lemma seamless_rows :
  (row_lo 0%nat =? Binary64.y region) = true
  /\ (forall r, (r < n)%nat -> (row_lo r <=? row_hi r) = true)
  /\ (forall r, (S r < n)%nat -> (row_hi r =? row_lo (S r)) = true)
  /\ (row_hi (n - 1)%nat =? Binary64.y region + Binary64.height region) = true.
Proof.
  pose proof (size_nat_pos size) as Hn. fold n in Hn.
  pose proof Hseam as H. unfold Binary64.seamless in H. fold n cell in H.
  apply andb_true_iff in H as [H Hrows]. apply andb_true_iff in H as [_ H0].
  assert (Hall : forall r, (r < n)%nat ->
            (row_lo r <=? row_hi r) = true
            /\ (row_hi r =? (if decide (S r = n)
                             then Binary64.y region + Binary64.height region
                             else row_lo (S r))) = true).
  { intros r Hr. rewrite forallb_forall in Hrows.
    specialize (Hrows r ltac:(apply in_seq; lia)).
    by apply andb_true_iff in Hrows. }
  split; [exact H0 |]. split; [intros r Hr; apply (Hall r Hr) |]. split.
  - intros r Hr. destruct (Hall r ltac:(lia)) as [_ Hm].
    destruct (decide (S r = n)); [lia | exact Hm].
  - destruct (Hall (n - 1)%nat ltac:(lia)) as [_ Hm].
    destruct (decide (S (n - 1) = n)); [exact Hm | lia].
Qed.


(** A point strictly inside a cell is in no other cell. *)
Lemma seamless_apart (px py : float) (i j : nat) :
  (i < n * n)%nat -> (j < n * n)%nat -> i <> j ->
  Binary64.interior px py (cell i) = true ->
  Binary64.isPointInRect px py (cell j) = true -> False.
Proof.
  pose proof (size_nat_pos size) as Hn. fold n in Hn.
  destruct seamless_columns as (_ & Hc1 & Hc2 & _).
  destruct seamless_rows as (_ & Hr1 & Hr2 & _).
  intros Hi Hj Hij Hin Hhit.
  rewrite cell_interior, !andb_true_iff in Hin. rewrite cell_hit, !andb_true_iff in Hhit.
  destruct Hin as [[[Hx1 Hx2] Hy1] Hy2]. destruct Hhit as [[[Hx1' Hx2'] Hy1'] Hy2'].
  destruct (cell_coords n i Hn Hi) as [Hrow Hcol].
  destruct (cell_coords n j Hn Hj) as [Hrow' Hcol'].
  destruct (cell_coords_differ n i j Hn Hij) as [Hd | Hd].
  - exact (strip_apart n row_lo row_hi Hn Hr1 Hr2 _ _ py Hrow Hrow' Hd Hy1 Hy2 Hy1' Hy2').
  - exact (strip_apart n col_lo col_hi Hn Hc1 Hc2 _ _ px Hcol Hcol' Hd Hx1 Hx2 Hx1' Hx2').
Qed.

End Seamless.

(** ** The cells on doubles *)


Lemma scan_first (props : Binary64.Props) (pos : Binary64.Pos) (i : nat) :
  let n := size_nat (Binary64.size props) in
  let hit j :=
    Binary64.isPointInRect (Binary64.pos_x pos) (Binary64.pos_y pos)
      (Binary64.getCellRect (Binary64.rect props) (Binary64.size props) j) in
  Binary64.cell_at props pos = Some i <->
  (i < n * n)%nat /\ hit i = true /\ forall j, (j < i)%nat -> hit j = false.
Proof.
  intros n hit. unfold Binary64.cell_at. rewrite find_seq_first. fold n hit.
  split; intros (H1 & H2 & H3); repeat split; try lia; try exact H2;
    intros j Hj; apply H3; lia.
Qed.

Lemma scan_none (props : Binary64.Props) (pos : Binary64.Pos) :
  let n := size_nat (Binary64.size props) in
  let hit j :=
    Binary64.isPointInRect (Binary64.pos_x pos) (Binary64.pos_y pos)
      (Binary64.getCellRect (Binary64.rect props) (Binary64.size props) j) in
  Binary64.cell_at props pos = None <-> forall j, (j < n * n)%nat -> hit j = false.
Proof.
  intros n hit. unfold Binary64.cell_at. rewrite find_seq_none. fold n hit.
  split; intros H j Hj; apply H; lia.
Qed.

(** C10, amended.  On the board, drag-begin and hover detection both
    select the first cell, in ascending index order [0 .. size * size - 1],
    whose rectangle contains the pointer position by the inclusive
    comparisons of [isPointInRect] on doubles: [handlePointerDown] starts
    the drag on it (and changes nothing when no cell contains the
    position), [handlePointerMove], during a drag, sets the hover index to
    it (to [null] when there is none).  So of several cells containing the
    position the one of smallest index is selected.  Where the rounded
    edges of the cells meet ([seamless]), a position in two different cells
    is in the interior of neither: it lies on their boundaries. *)
Theorem board_scan_selects_first (canvasRef : option Binary64.Canvas)
    (props : Binary64.Props) (st : Binary64.State) (e : Binary64.PointerEvent) :
  let pos :=
    Binary64.getCanvasMousePos canvasRef (Binary64.clientX e) (Binary64.clientY e) in
  let n := size_nat (Binary64.size props) in
  let cell i := Binary64.getCellRect (Binary64.rect props) (Binary64.size props) i in
  let hit i :=
    Binary64.isPointInRect (Binary64.pos_x pos) (Binary64.pos_y pos) (cell i) in
  let first i :=
    (i < n * n)%nat /\ hit i = true /\ forall j, (j < i)%nat -> hit j = false in
  let none := forall j, (j < n * n)%nat -> hit j = false in
  (forall i, first i ->
     Binary64.handlePointerDown canvasRef props st e
     = {| Binary64.draggedIdx := Some i;
          Binary64.hoverIdx := Binary64.hoverIdx st;
          Binary64.dragPos := pos |})
  /\ (none -> Binary64.handlePointerDown canvasRef props st e = st)
  /\ (forall d, Binary64.draggedIdx st = Some d ->
      (forall i, Binary64.hoverIdx (Binary64.handlePointerMove canvasRef props st e) = Some i
                 <-> first i)
      /\ (Binary64.hoverIdx (Binary64.handlePointerMove canvasRef props st e) = None
          <-> none))
  /\ ((exists i, first i) \/ none)
  /\ (Binary64.seamless (Binary64.rect props) (Binary64.size props) = true ->
      forall i j, (i < n * n)%nat -> (j < n * n)%nat -> i <> j ->
        hit i = true -> hit j = true ->
        Binary64.interior (Binary64.pos_x pos) (Binary64.pos_y pos) (cell i) = false
        /\ Binary64.interior (Binary64.pos_x pos) (Binary64.pos_y pos) (cell j) = false).
Proof.
  intros pos n cell hit first none.
  assert (Hfirst : forall i, Binary64.cell_at props pos = Some i <-> first i)
    by (intros i; apply scan_first).
  assert (Hnone : Binary64.cell_at props pos = None <-> none) by apply scan_none.
  split; [| split; [| split; [| split]]].
  - intros i Hi. apply Hfirst in Hi.
    unfold Binary64.handlePointerDown. fold pos. by rewrite Hi.
  - intros Hn. apply Hnone in Hn.
    unfold Binary64.handlePointerDown. fold pos. by rewrite Hn.
  - intros d Hd. unfold Binary64.handlePointerMove. fold pos. rewrite Hd.
    cbn [Binary64.hoverIdx]. split; [intros i; apply Hfirst | apply Hnone].
  - destruct (Binary64.cell_at props pos) as [i |] eqn:Hcell.
    + left. exists i. by apply Hfirst.
    + right. by apply Hnone.
  - intros Hseam i j Hi Hj Hij Hhi Hhj. split.
    + destruct (Binary64.interior _ _ (cell i)) eqn:Hin; [exfalso | done].
      exact (seamless_apart _ _ Hseam _ _ i j Hi Hj Hij Hin Hhj).
    + destruct (Binary64.interior _ _ (cell j)) eqn:Hin; [exfalso | done].
      exact (seamless_apart _ _ Hseam _ _ j i Hj Hi (not_eq_sym Hij) Hin Hhi).
Qed.


(** ** Memory and [shuffleArray] *)

Section MemoryFacts.
Context {T O : Type}.
Implicit Types (m : Memory T O) (l : list T).

(** [Math.floor(Math.random() * (i + 1))] is an index of [0 .. i]. *)
Lemma random_index (r : Q) (i : nat) :
  unit_interval r ->
  (0 <= Number.Math_floor (r * Number.of_nat (i + 1)) <= Z.of_nat i)%Z.
Proof.
  intros [H0 H1]. unfold Number.Math_floor.
  pose proof (of_nat_pos (i + 1) ltac:(lia)) as Hpos.
  split.
  - change 0%Z with (Qfloor 0). apply Qfloor_resp_le.
    apply Qmult_le_0_compat; lra.
  - assert (Hlt : r * Number.of_nat (i + 1) < Number.of_nat (i + 1)).
    { rewrite <- (Qmult_1_l (Number.of_nat (i + 1))) at 2.
      apply Qmult_lt_compat_r; assumption. }
    pose proof (Qfloor_le (r * Number.of_nat (i + 1))) as Hfl.
    assert (Hz : inject_Z (Qfloor (r * Number.of_nat (i + 1))) < inject_Z (Z.of_nat (i + 1))).
    { eapply Qle_lt_trans; [exact Hfl | exact Hlt]. }
    rewrite <- Zlt_Qlt in Hz. lia.
Qed.

(** Exchanging two elements of a list. *)
Lemma exchange_perm l (i j : nat) (vi vj : T) :
  l !! i = Some vi -> l !! j = Some vj ->
  <[j := vi]> (<[i := vj]> l) ≡ₚ l.
Proof.
  intros Hi Hj.
  pose proof (lookup_lt_Some _ _ _ Hi) as Hli.
  pose proof (lookup_lt_Some _ _ _ Hj) as Hlj.
  apply Permutation_inj. split; [by rewrite !length_insert |].
  exists (fun k => if decide (k = j) then i else if decide (k = i) then j else k).
  split.
  - intros a b Hab. simpl in Hab. repeat case_decide; subst; try lia; try congruence.
  - intros k. destruct (decide (k = j)) as [-> | Hkj].
    + rewrite list_lookup_insert_eq by (rewrite length_insert; lia). by rewrite Hi.
    + rewrite list_lookup_insert_ne by done.
      destruct (decide (k = i)) as [-> | Hki].
      * rewrite list_lookup_insert_eq by lia. by rewrite Hj.
      * by rewrite list_lookup_insert_ne.
Qed.

Lemma shuffle_step_spec m (newArr : addr) l (i : nat) :
  arrays m !! newArr = Some l -> (i < length l)%nat ->
  unit_interval (entropy m (drawn m)) ->
  exists l',
    imageUtils.shuffle_step newArr i m
    = Some (tt, {| arrays := <[newArr := l']> (arrays m); objects := objects m;
                   entropy := entropy m; drawn := S (drawn m) |})
    /\ l' ≡ₚ l.
Proof.
  intros Harr Hi Hr.
  pose proof (random_index _ i Hr) as Hj.
  set (j := Number.Math_floor (entropy m (drawn m) * Number.of_nat (i + 1))) in *.
  destruct (lookup_lt_is_Some_2 l (Z.to_nat j) ltac:(lia)) as [vj Hvj].
  destruct (lookup_lt_is_Some_2 l i Hi) as [vi Hvi].
  exists (<[Z.to_nat j := vi]> (<[i := vj]> l)). split.
  - unfold imageUtils.shuffle_step, bind, Math_random, array_get, array_set.
    js_simpl. fold j.
    destruct (Z.ltb_spec j 0) as [? | _]; [lia |].
    rewrite Harr, Hvj. js_simpl.
    destruct (Z.ltb_spec (Z.of_nat i) 0) as [? | _]; [lia |].
    rewrite Harr, Nat2Z.id, Hvi. js_simpl. rewrite Harr.
    destruct (decide (i < length l)%nat) as [_ | ?]; [| lia]. js_simpl.
    rewrite list_lookup_insert_eq by (by apply lookup_lt_Some in Harr).
    rewrite length_insert.
    destruct (decide (Z.to_nat j < length l)%nat) as [_ | ?]; [| lia]. js_simpl.
    by rewrite list_insert_insert_eq.
  - by apply exchange_perm.
Qed.
End MemoryFacts.

Section ShuffleFacts.
Context {T O : Type}.
Implicit Types (m : Memory T O) (l : list T).

Lemma shuffle_loop_spec (k : nat) m (newArr : addr) l :
  arrays m !! newArr = Some l -> (k <= length l - 1)%nat ->
  (forall d, unit_interval (entropy m d)) ->
  exists l',
    for_each (rev (seq 1 k)) (imageUtils.shuffle_step newArr) m
    = Some (tt, {| arrays := <[newArr := l']> (arrays m); objects := objects m;
                   entropy := entropy m; drawn := drawn m + k |})
    /\ l' ≡ₚ l.
Proof.
  revert m l. induction k as [| k IH]; intros m l Harr Hk Hent.
  - exists l. split; [| done]. cbn [seq rev for_each]. unfold ret.
    rewrite list_insert_id by done. rewrite Nat.add_0_r. by destruct m.
  - rewrite seq_S, rev_unit. cbn [for_each]. unfold bind.
    destruct (shuffle_step_spec m newArr l (1 + k) Harr ltac:(lia) (Hent _))
      as (l1 & -> & Hl1).
    destruct (IH {| arrays := <[newArr := l1]> (arrays m); objects := objects m;
                    entropy := entropy m; drawn := S (drawn m) |} l1)
      as (l' & -> & Hl'); js_simpl.
    + apply list_lookup_insert_eq. by apply lookup_lt_Some in Harr.
    + rewrite (Permutation_length Hl1). lia.
    + exact Hent.
    + exists l'. split; [| by rewrite Hl'].
      rewrite list_insert_insert_eq. do 3 f_equal. lia.
Qed.

(** The run of [shuffleArray]: one new array, a permutation of the input. *)
Lemma shuffleArray_spec m (array : addr) l :
  arrays m !! array = Some l ->
  (forall d, unit_interval (entropy m d)) ->
  exists l',
    imageUtils.shuffleArray array m
    = Some (length (arrays m),
            {| arrays := arrays m ++ [l']; objects := objects m;
               entropy := entropy m; drawn := drawn m + (length l - 1) |})
    /\ l' ≡ₚ l.
Proof.
  intros Harr Hent.
  unfold imageUtils.shuffleArray, bind, array_elems, new_array, array_length.
  rewrite Harr. js_simpl. rewrite list_lookup_middle by done.
  destruct (shuffle_loop_spec (length l - 1)
               (with_arrays m (arrays m ++ [l])) (length (arrays m)) l)
    as (l' & -> & Hl'); js_simpl.
  - by apply list_lookup_middle.
  - lia.
  - exact Hent.
  - exists l'. split; [| done]. unfold ret. do 3 f_equal.
    rewrite <- (Nat.add_0_r (length (arrays m))) at 1.
    by rewrite insert_app_r.
Qed.
End ShuffleFacts.

(** C7.  For every array, [shuffleArray] ([Math.random] keeping to its
    contract) returns a new array, at an address other than the input's,
    whose elements are a permutation of the input's: same length, same
    elements with the same multiplicities.  The input array holds after the
    call what it held before, in the same order, and so does every other
    array and every object. *)
Theorem shuffleArray_permutes {T O : Type} (m : Memory T O) (array : addr) (l : list T) :
  arrays m !! array = Some l ->
  (forall d, unit_interval (entropy m d)) ->
  exists (newArr : addr) (m' : Memory T O) (l' : list T),
    imageUtils.shuffleArray array m = Some (newArr, m')
    /\ newArr <> array
    /\ arrays m' !! newArr = Some l'
    /\ length l' = length l
    /\ l' ≡ₚ l
    /\ arrays m' !! array = Some l
    /\ (forall a other, arrays m !! a = Some other -> arrays m' !! a = Some other)
    /\ objects m' = objects m.
Proof.
  intros Harr Hent.
  destruct (shuffleArray_spec m array l Harr Hent) as (l' & Hrun & Hperm).
  eexists _, _, l'. split; [exact Hrun |]. js_simpl.
  pose proof (lookup_lt_Some _ _ _ Harr) as Hlt.
  repeat split.
  - lia.
  - by apply list_lookup_middle.
  - by rewrite Hperm.
  - exact Hperm.
  - by rewrite lookup_app_l.
  - intros a other Ha. rewrite lookup_app_l; [done | by apply lookup_lt_Some in Ha].
Qed.

(** ** The cell mapping of [App] *)

Section AppFacts.
Implicit Types (m : App.Mem) (st : App.State).

Lemma init_loop_spec (k a : nat) m (nm : addr) (l : list nat) :
  arrays m !! nm = Some l ->
  for_each (seq a k)
    (fun i => bind (new_object {| currentPos := i; originalPos := i |})
                (fun cell => array_push nm cell)) m
  = Some (tt, {| arrays := <[nm := l ++ seq (length (objects m)) k]> (arrays m);
                 objects := objects m ++ map (fun i => mkCell i i) (seq a k);
                 entropy := entropy m; drawn := drawn m |}).
Proof.
  revert a m l. induction k as [| k IH]; intros a m l Harr.
  - cbn [seq for_each map]. unfold ret.
    rewrite !app_nil_r, list_insert_id by done. by destruct m.
  - cbn [seq for_each map]. unfold bind at 1.
    unfold bind at 1, new_object, array_push. js_simpl. rewrite Harr. js_simpl.
    rewrite (IH _ _ (l ++ [length (objects m)])); js_simpl.
    + rewrite list_insert_insert_eq, length_app, Nat.add_1_r, <- !app_assoc. done.
    + apply list_lookup_insert_eq. by apply lookup_lt_Some in Harr.
Qed.

(** The run of [initializeMapping]: the identity mapping of new objects. *)
Lemma initializeMapping_spec (size : BingoSize) st m :
  let n := (size_nat size * size_nat size)%nat in
  App.initializeMapping size st m
  = Some (App.setMapping st (length (arrays m)),
          {| arrays := arrays m ++ [seq (length (objects m)) n];
             objects := objects m ++ map (fun i => mkCell i i) (seq 0 n);
             entropy := entropy m; drawn := drawn m |}).
Proof.
  intros n. unfold App.initializeMapping, bind at 1, new_array.
  unfold bind. fold n.
  rewrite (init_loop_spec n 0 _ (length (arrays m)) []); js_simpl.
  - unfold ret. do 3 f_equal.
    rewrite <- (Nat.add_0_r (length (arrays m))) at 1.
    by rewrite insert_app_r.
  - by apply list_lookup_middle.
Qed.

Lemma fresh_cells_lookup (objs new : list CellMapping) :
  Forall2 (fun r c => (objs ++ new) !! r = Some c) (seq (length objs) (length new)) new.
Proof.
  apply Forall2_same_length_lookup_2; [by rewrite length_seq |].
  intros i r c Hr Hc. apply lookup_seq in Hr as [-> _].
  by rewrite lookup_app_r, Nat.add_comm, Nat.add_sub by lia.
Qed.
End AppFacts.

Section AppRunFacts.
Implicit Types (m : App.Mem) (st : App.State).

Lemma read_originalPos_spec (refs : list addr) (cells : list CellMapping) (i : nat) m :
  Forall2 (fun r c => objects m !! r = Some c) refs cells ->
  map_from i (fun r (_ : nat) => bind (object_get r) (fun o => ret (originalPos o))) refs m
  = Some (map originalPos cells, m).
Proof.
  intros H. revert i. induction H as [| r c refs cells Hr _ IH]; intros i.
  - reflexivity.
  - cbn [map_from map]. unfold bind at 1. unfold bind at 1, object_get.
    rewrite Hr. unfold ret at 1. unfold bind at 1. rewrite IH. reflexivity.
Qed.

Lemma rebuild_cells_spec (shuffled : addr) (sh : list nat)
    (refs : list addr) (cells : list CellMapping) (i : nat) m :
  Forall2 (fun r c => objects m !! r = Some c) refs cells ->
  arrays m !! shuffled = Some sh ->
  (i + length refs <= length sh)%nat ->
  map_from i
    (fun r k => bind (object_get r) (fun o =>
                bind (array_get shuffled (Z.of_nat k)) (fun v =>
                new_object (App.set_originalPos v o)))) refs m
  = Some (seq (length (objects m)) (length refs),
          with_objects m
            (objects m ++ zip_with (fun c v => App.set_originalPos v c) cells
                            (take (length refs) (drop i sh)))).
Proof.
  revert cells i m.
  induction refs as [| r refs IH]; intros cells i m H Harr Hlen.
  - apply Forall2_nil_inv_l in H as ->. cbn. unfold ret, with_objects.
    rewrite app_nil_r. by destruct m.
  - apply Forall2_cons_inv_l in H as (c & cells' & Hr & H & ->).
    cbn [length] in Hlen.
    destruct (lookup_lt_is_Some_2 sh i ltac:(lia)) as [v Hv].
    cbn [map_from length seq]. unfold bind at 1. unfold bind at 1, object_get.
    rewrite Hr. unfold bind at 1, array_get.
    destruct (Z.ltb_spec (Z.of_nat i) 0) as [? | _]; [lia |].
    rewrite Harr, Nat2Z.id, Hv. unfold new_object at 1. unfold bind at 1.
    rewrite (IH cells' (S i)); js_simpl.
    + unfold ret, with_objects. js_simpl.
      rewrite length_app, Nat.add_1_r. do 3 f_equal.
      rewrite (drop_S _ _ _ Hv). cbn [take zip_with]. by rewrite <- app_assoc.
    + eapply Forall2_impl; [exact H |]. intros r' c' Hr'. by apply lookup_app_l_Some.
    + exact Harr.
    + lia.
Qed.

Lemma originalPos_rebuilt (cells : list CellMapping) (sh : list nat) :
  length cells = length sh ->
  map originalPos (zip_with (fun c v => App.set_originalPos v c) cells sh) = sh.
Proof.
  revert sh. induction cells as [| c cells IH]; intros [| v sh] Hlen;
    try discriminate; [reflexivity |].
  cbn. f_equal. apply IH. by injection Hlen.
Qed.

(** The run of [handleShuffle]: new cell objects, in a new array. *)
Lemma handleShuffle_spec st m (refs : list addr) (cells : list CellMapping) :
  holds_cells m (App.mapping st) refs cells ->
  (forall d, unit_interval (entropy m d)) ->
  exists (sh : list nat) (m' : App.Mem),
    App.handleShuffle st m = Some (App.setMapping st (length (arrays m) + 2), m')
    /\ sh ≡ₚ map originalPos cells
    /\ holds_cells m' (length (arrays m) + 2)%nat
         (seq (length (objects m)) (length refs))
         (zip_with (fun c v => App.set_originalPos v c) cells sh)
    /\ entropy m' = entropy m
    /\ (forall a l, arrays m !! a = Some l -> arrays m' !! a = Some l)
    /\ (forall a c, objects m !! a = Some c -> objects m' !! a = Some c).
Proof.
  intros (Harr & Hnd & Hcells) Hent.
  pose proof (Forall2_length _ _ _ Hcells) as Hlen.
  unfold App.handleShuffle. unfold bind at 1. unfold array_map at 1.
  unfold bind at 1, array_elems at 1. rewrite Harr.
  unfold bind at 1. rewrite (read_originalPos_spec _ _ _ _ Hcells).
  unfold new_array at 1. unfold bind at 1.
  set (m1 := with_arrays m (arrays m ++ [map originalPos cells])).
  destruct (shuffleArray_spec m1 (length (arrays m)) (map originalPos cells))
    as (sh & -> & Hsh).
  { by apply list_lookup_middle. }
  { exact Hent. }
  pose proof (Permutation_length Hsh) as Hshlen. rewrite length_map in Hshlen.
  subst m1. js_simpl. rewrite length_app. cbn [length].
  unfold bind at 1. unfold array_map at 1. unfold bind at 1, array_elems at 1.
  js_simpl. rewrite <- app_assoc, (lookup_app_l_Some _ _ _ _ Harr).
  unfold bind at 1.
  erewrite (rebuild_cells_spec (length (arrays m) + 1) sh refs cells 0); js_simpl.
  2: exact Hcells.
  2: { rewrite lookup_app_r by lia.
       by replace (length (arrays m) + 1 - length (arrays m))%nat with 1%nat by lia. }
  2: lia.
  unfold new_array, ret. js_simpl.
  rewrite length_app. cbn [length].
  exists sh. eexists. split; [reflexivity |]. unfold holds_cells. js_simpl.
  rewrite drop_0, take_ge by lia.
  split; [exact Hsh |]. split; [| split; [done | split]].
  - split; [| split].
    + rewrite app_assoc. apply list_lookup_middle.
      rewrite !length_app. cbn [length]. lia.
    + apply NoDup_seq.
    + rewrite Hlen.
      replace (length cells) with
        (length (zip_with (fun c v => App.set_originalPos v c) cells sh)).
      * apply fresh_cells_lookup.
      * rewrite length_zip_with. lia.
  - intros a l Ha. rewrite <- !app_assoc. by apply lookup_app_l_Some.
  - intros a c Ha. by apply lookup_app_l_Some.
Qed.
End AppRunFacts.

Section SwapFacts.
Implicit Types (m : App.Mem) (st : App.State).

Lemma set_originalPos_twice (v w : nat) (c : CellMapping) :
  App.set_originalPos v (App.set_originalPos w c) = App.set_originalPos v c.
Proof. reflexivity. Qed.

(** The run of [handleSwap] on two positions of the mapping. *)
Lemma handleSwap_spec st m (refs : list addr) (cells : list CellMapping)
    (idxA idxB : nat) (ca cb : CellMapping) :
  holds_cells m (App.mapping st) refs cells ->
  cells !! idxA = Some ca -> cells !! idxB = Some cb ->
  exists m' : App.Mem,
    App.handleSwap idxA idxB st m = Some (App.setMapping st (length (arrays m)), m')
    /\ holds_cells m' (length (arrays m)) refs
         (<[idxB := App.set_originalPos (originalPos ca) cb]>
            (<[idxA := App.set_originalPos (originalPos cb) ca]> cells))
    /\ entropy m' = entropy m
    /\ (forall a l, arrays m !! a = Some l -> arrays m' !! a = Some l)
    /\ length (objects m') = length (objects m).
Proof.
  intros (Harr & Hnd & Hcells) HcA HcB.
  destruct (Forall2_lookup_r _ _ _ _ _ Hcells HcA) as (a & HrA & HoA).
  destruct (Forall2_lookup_r _ _ _ _ _ Hcells HcB) as (b & HrB & HoB).
  pose proof (lookup_lt_Some _ _ _ HoA) as HltA.
  pose proof (lookup_lt_Some _ _ _ HoB) as HltB.
  set (objs1 := <[a := App.set_originalPos (originalPos cb) ca]> (objects m)).
  assert (Hob1 : exists ob1, objs1 !! b = Some ob1
             /\ App.set_originalPos (originalPos ca) ob1
                = App.set_originalPos (originalPos ca) cb).
  { subst objs1. destruct (decide (a = b)) as [<- | Hab].
    - rewrite list_lookup_insert_eq by done. eexists. split; [reflexivity |].
      rewrite set_originalPos_twice. congruence.
    - rewrite list_lookup_insert_ne by done. eauto. }
  destruct Hob1 as (ob1 & Hob1 & Hset).
  assert (Hget : forall (i : nat) (r : addr) (objs : list CellMapping),
             refs !! i = Some r ->
             array_get (length (arrays m)) (Z.of_nat i)
               {| arrays := arrays m ++ [refs]; objects := objs;
                  entropy := entropy m; drawn := drawn m |}
             = Some (r, {| arrays := arrays m ++ [refs]; objects := objs;
                           entropy := entropy m; drawn := drawn m |})).
  { intros i r objs Hi. unfold array_get. js_simpl.
    destruct (Z.ltb_spec (Z.of_nat i) 0) as [? | _]; [lia |].
    by rewrite list_lookup_middle, Nat2Z.id, Hi. }
  eexists. split; [| split; [| split; [| split]]].
  - unfold App.handleSwap. unfold bind at 1, array_elems at 1. rewrite Harr.
    unfold bind at 1, new_array at 1. unfold with_arrays.
    unfold bind at 1. rewrite (Hget _ _ _ HrA).
    unfold bind at 1, object_get at 1. js_simpl. rewrite HoA.
    unfold bind at 1. rewrite (Hget _ _ _ HrA).
    unfold bind at 1. rewrite (Hget _ _ _ HrB).
    unfold bind at 1, object_get at 1. js_simpl. rewrite HoB.
    unfold bind at 1, object_update at 1. js_simpl. rewrite HoA.
    unfold with_objects. js_simpl. fold objs1.
    unfold bind at 1. rewrite (Hget _ _ _ HrB).
    unfold bind at 1, object_update at 1. js_simpl. rewrite Hob1.
    unfold with_objects, ret. js_simpl. rewrite Hset. reflexivity.
  - unfold holds_cells. js_simpl. split; [by apply list_lookup_middle |].
    split; [exact Hnd |].
    apply Forall2_same_length_lookup_2.
    { rewrite !length_insert. by eapply Forall2_length. }
    intros k r c Hr Hc.
    pose proof (lookup_lt_Some _ _ _ HcA) as HlA.
    pose proof (lookup_lt_Some _ _ _ HcB) as HlB.
    destruct (decide (k = idxB)) as [-> | HkB].
    + rewrite list_lookup_insert_eq in Hc by (by rewrite length_insert).
      injection Hc as <-. assert (r = b) as -> by congruence.
      apply list_lookup_insert_eq. subst objs1. by rewrite length_insert.
    + rewrite list_lookup_insert_ne in Hc by done.
      assert (r <> b) as Hrb.
      { intros ->. apply HkB. by eapply NoDup_lookup. }
      rewrite list_lookup_insert_ne by done. subst objs1.
      destruct (decide (k = idxA)) as [-> | HkA].
      * rewrite list_lookup_insert_eq in Hc by done.
        injection Hc as <-. assert (r = a) as -> by congruence.
        by apply list_lookup_insert_eq.
      * rewrite list_lookup_insert_ne in Hc by done.
        assert (r <> a) as Hra.
        { intros ->. apply HkA. by eapply NoDup_lookup. }
        rewrite list_lookup_insert_ne by done.
        exact (Forall2_lookup_lr _ _ _ _ _ _ Hcells Hr Hc).
  - reflexivity.
  - js_simpl. intros a' l Ha. by apply lookup_app_l_Some.
  - js_simpl. subst objs1. by rewrite !length_insert.
Qed.
End SwapFacts.

(** The invariant of the cell mapping: the array holds the addresses of
    distinct cell objects whose [originalPos] are a permutation of the
    range, and [Math.random] keeps to its contract. *)
Lemma reachable_holds_cells (size : BingoSize) (st : App.State) (m : App.Mem) :
  reachable size st m ->
  (forall d, unit_interval (entropy m d))
  /\ exists refs cells,
       holds_cells m (App.mapping st) refs cells
       /\ map originalPos cells ≡ₚ seq 0 (size_nat size * size_nat size).
Proof.
  induction 1 as [st0 m0 st m Hent Hrun
                 | st m st' m' _ [Hent (refs & cells & Hc & Hperm)] Hrun
                 | idxA idxB st m st' m' _ [Hent (refs & cells & Hc & Hperm)] Hrun].
  - rewrite initializeMapping_spec in Hrun. injection Hrun as <- <-.
    split; [exact Hent |]. eexists _, _. split.
    + split; [| split]; js_simpl.
      * by apply list_lookup_middle.
      * apply NoDup_seq.
      * pose proof (fresh_cells_lookup (objects m0)
                      (map (fun i => mkCell i i)
                         (seq 0 (size_nat size * size_nat size)))) as Hfresh.
        by rewrite length_map, length_seq in Hfresh.
    + rewrite map_map. cbn [originalPos]. by rewrite map_id.
  - destruct (handleShuffle_spec st m refs cells Hc Hent)
      as (sh & m2 & Hrun2 & Hsh & Hc2 & Hent2 & _).
    rewrite Hrun2 in Hrun. injection Hrun as <- <-.
    split; [by rewrite Hent2 |]. eexists _, _. split; [exact Hc2 |].
    rewrite originalPos_rebuilt.
    + by rewrite Hsh.
    + by rewrite (Permutation_length Hsh), length_map.
  - destruct Hc as (Harr & Hnd & Hcells).
    destruct (cells !! idxA) as [ca |] eqn:HcA; [destruct (cells !! idxB) as [cb |] eqn:HcB |].
    + destruct (handleSwap_spec st m refs cells idxA idxB ca cb
                  (conj Harr (conj Hnd Hcells)) HcA HcB)
        as (m2 & Hrun2 & Hc2 & Hent2 & _).
      rewrite Hrun2 in Hrun. injection Hrun as <- <-.
      split; [by rewrite Hent2 |]. eexists _, _. split; [exact Hc2 |].
      rewrite !list_fmap_insert. cbn [originalPos App.set_originalPos].
      rewrite <- Hperm. apply exchange_perm; by rewrite list_lookup_fmap, ?HcA, ?HcB.
    + exfalso. revert Hrun.
      assert (refs !! idxB = None) as HrB.
      { apply lookup_ge_None. rewrite (Forall2_length _ _ _ Hcells).
        by apply lookup_ge_None. }
      destruct (Forall2_lookup_r _ _ _ _ _ Hcells HcA) as (a & HrA & HoA).
      unfold App.handleSwap. unfold bind at 1, array_elems at 1. rewrite Harr.
      unfold bind at 1, new_array at 1. unfold with_arrays.
      unfold bind at 1, array_get at 1. js_simpl.
      destruct (Z.ltb_spec (Z.of_nat idxA) 0) as [? | _]; [lia |].
      rewrite list_lookup_middle, Nat2Z.id, HrA by done.
      unfold bind at 1, object_get at 1. js_simpl. rewrite HoA.
      unfold bind at 1, array_get at 1. js_simpl.
      destruct (Z.ltb_spec (Z.of_nat idxA) 0) as [? | _]; [lia |].
      rewrite list_lookup_middle, Nat2Z.id, HrA by done.
      unfold bind at 1, array_get at 1. js_simpl.
      destruct (Z.ltb_spec (Z.of_nat idxB) 0) as [? | _]; [lia |].
      rewrite list_lookup_middle, Nat2Z.id, HrB by done. discriminate.
    + exfalso. revert Hrun.
      assert (refs !! idxA = None) as HrA.
      { apply lookup_ge_None. rewrite (Forall2_length _ _ _ Hcells).
        by apply lookup_ge_None. }
      unfold App.handleSwap. unfold bind at 1, array_elems at 1. rewrite Harr.
      unfold bind at 1, new_array at 1. unfold with_arrays.
      unfold bind at 1, array_get at 1. js_simpl.
      destruct (Z.ltb_spec (Z.of_nat idxA) 0) as [? | _]; [lia |].
      rewrite list_lookup_middle, Nat2Z.id, HrA by done. discriminate.
Qed.

(** C1.  For every grid size and every state of [App] reached from
    [initializeMapping size] by any finite sequence of "shuffle all" and
    swap actions, the [originalPos] values of the [size * size] entries of
    the mapping are a permutation of [0, size * size): none is duplicated,
    and a value occurs exactly when it is in the range.  In such a state
    "shuffle all" always succeeds ([Math.random] keeping to its contract),
    and so does the swap of any two positions of the grid. *)
Theorem mapping_stays_permutation (size : BingoSize) (st : App.State) (m : App.Mem) :
  reachable size st m ->
  let n := (size_nat size * size_nat size)%nat in
  (exists refs cells,
     holds_cells m (App.mapping st) refs cells
     /\ length cells = n
     /\ map originalPos cells ≡ₚ seq 0 n
     /\ NoDup (map originalPos cells)
     /\ (forall v, v ∈ map originalPos cells <-> (v < n)%nat))
  /\ (exists st' m', App.handleShuffle st m = Some (st', m'))
  /\ (forall idxA idxB, (idxA < n)%nat -> (idxB < n)%nat ->
      exists st' m', App.handleSwap idxA idxB st m = Some (st', m')).
Proof.
  intros Hreach n.
  destruct (reachable_holds_cells size st m Hreach) as [Hent (refs & cells & Hc & Hperm)].
  fold n in Hperm.
  assert (Hlen : length cells = n).
  { by rewrite <- (length_map originalPos), (Permutation_length Hperm), length_seq. }
  split; [| split].
  - exists refs, cells.
    split; [exact Hc |]. split; [exact Hlen |]. split; [exact Hperm |].
    split; [rewrite Hperm; apply NoDup_seq |].
    intros v. rewrite Hperm, elem_of_seq. lia.
  - destruct (handleShuffle_spec st m refs cells Hc Hent) as (sh & m2 & Hrun & _).
    eauto.
  - intros idxA idxB HA HB.
    destruct (lookup_lt_is_Some_2 cells idxA ltac:(lia)) as [ca HcA].
    destruct (lookup_lt_is_Some_2 cells idxB ltac:(lia)) as [cb HcB].
    destruct (handleSwap_spec st m refs cells idxA idxB ca cb Hc HcA HcB)
      as (m2 & Hrun & _).
    eauto.
Qed.

(** C6.  A contact-end or contact-cancel on the board during a drag of
    cell [d], the mapping holding distinct cell objects and the dragged and
    hovered indices being positions of it: the drag and the hover are
    cleared; when no cell is hovered, or the hovered cell is [d] itself,
    the state of [App] and the whole memory are unchanged; when a cell
    [h <> d] is hovered, entries [d] and [h] of the mapping have exchanged
    their [originalPos] (their [currentPos] kept) and every other entry is
    as before. *)
Theorem board_drop_exchanges_two_cells (bst : BingoBoard.State) (ast : App.State)
    (m : App.Mem) (refs : list addr) (cells : list CellMapping) (d : nat) (cd : CellMapping) :
  holds_cells m (App.mapping ast) refs cells ->
  BingoBoard.draggedIdx bst = Some d ->
  cells !! d = Some cd ->
  (forall h, BingoBoard.hoverIdx bst = Some h -> is_Some (cells !! h)) ->
  exists bst' ast' m',
    AppBoard.pointerUp bst ast m = Some ((bst', ast'), m')
    /\ BingoBoard.draggedIdx bst' = None
    /\ BingoBoard.hoverIdx bst' = None
    /\ ((BingoBoard.hoverIdx bst = None \/ BingoBoard.hoverIdx bst = Some d) ->
        ast' = ast /\ m' = m)
    /\ (forall h ch, BingoBoard.hoverIdx bst = Some h -> h <> d -> cells !! h = Some ch ->
        exists cells',
          holds_cells m' (App.mapping ast') refs cells'
          /\ cells' !! d = Some {| currentPos := currentPos cd; originalPos := originalPos ch |}
          /\ cells' !! h = Some {| currentPos := currentPos ch; originalPos := originalPos cd |}
          /\ (forall k, k <> d -> k <> h -> cells' !! k = cells !! k)).
Proof.
  intros Hc Hd Hcd Hh.
  unfold AppBoard.pointerUp, BingoBoard.handlePointerUp. rewrite Hd.
  destruct (BingoBoard.hoverIdx bst) as [h |] eqn:Hhover.
  - destruct (decide (d = h)) as [<- | Hne].
    + eexists _, ast, m. split; [reflexivity |]. cbn.
      repeat split; try done. intros h ch [= <-] Hdd. by destruct Hdd.
    + destruct (Hh h eq_refl) as [ch Hch].
      destruct (handleSwap_spec ast m refs cells d h cd ch Hc Hcd Hch)
        as (m2 & Hrun & Hc2 & _).
      unfold bind. rewrite Hrun. unfold ret.
      eexists _, _, m2. split; [reflexivity |]. cbn [BingoBoard.draggedIdx BingoBoard.hoverIdx].
      split; [done |]. split; [done |]. split.
      * intros [[=] | [= ->]]. by destruct Hne.
      * intros h' ch' [= <-] _ Hch'. assert (ch' = ch) as -> by congruence.
        eexists. split; [exact Hc2 |].
        pose proof (lookup_lt_Some _ _ _ Hcd). pose proof (lookup_lt_Some _ _ _ Hch).
        split; [| split].
        -- rewrite list_lookup_insert_ne by done. by apply list_lookup_insert_eq.
        -- apply list_lookup_insert_eq. by rewrite length_insert.
        -- intros k Hkd Hkh. by rewrite !list_lookup_insert_ne.
  - eexists _, ast, m. split; [reflexivity |]. cbn.
    repeat split; try done.
Qed.

(** ** The region editor *)

Section EditorFacts.
Variable Math_sqrt : Q -> Q.
Implicit Types (st : GridEditor.State) (e : PointerEvent).

Lemma Map_set_nonempty (m : GridEditor.PointerMap) (k : Z) (v : Pos) :
  GridEditor.Map_set m k v <> [].
Proof. destruct m as [| [k' v'] m]; simpl; [| case_decide]; discriminate. Qed.

(** Two invariants of the editor: without an active contact there is no
    gesture; in pinch mode a gesture is in progress and the baselines are
    set. *)
Lemma editor_idle st :
  editor_reachable Math_sqrt st ->
  (GridEditor.activePointers st = [] ->
   GridEditor.dragMode st = None /\ GridEditor.isDragging st = false)
  /\ (GridEditor.dragMode st = Some GridEditor.pinch ->
      GridEditor.isDragging st = true
      /\ is_Some (GridEditor.initialPinchDist st)
      /\ is_Some (GridEditor.initialRectSize st)).
Proof.
  induction 1 as [| canvasRef rect st e _ [IH1 IH2]
                  | canvasRef rect st e _ [IH1 IH2]
                  | st e _ [IH1 IH2]].
  - split; [done | discriminate].
  - unfold GridEditor.handlePointerDown.
    set (pos := getCanvasMousePos canvasRef (clientX e) (clientY e)).
    pose proof (Map_set_nonempty (GridEditor.activePointers st) (pointerId e) pos) as Hne.
    repeat case_decide; repeat case_match; cbn; (split; [done |]);
      try discriminate; try exact IH2; eauto;
      exfalso;
      match goal with
      | Hv : GridEditor.Map_values _ = _, Hs : GridEditor.Map_size _ = 2%nat |- _ =>
          apply (f_equal length) in Hv;
          unfold GridEditor.Map_values in Hv; rewrite length_map in Hv;
          unfold GridEditor.Map_size in Hs; cbn in Hv; lia
      end.
  - unfold GridEditor.handlePointerMove.
    set (pos := getCanvasMousePos canvasRef (clientX e) (clientY e)).
    pose proof (Map_set_nonempty (GridEditor.activePointers st) (pointerId e) pos) as Hne.
    repeat case_match; cbn; try (split; [done | exact IH2]); split; assumption.
  - unfold GridEditor.handlePointerUp.
    repeat case_decide; cbn.
    + split; [done | discriminate].
    + split; [| discriminate]. intros Hnil. rewrite Hnil in *. discriminate.
    + split; [| exact IH2]. intros Hnil. rewrite Hnil in *. by destruct H.
Qed.
End EditorFacts.

Lemma Math_max_40 (a : Q) : 40 <= Number.Math_max 40 a.
Proof. apply Q.le_max_l. Qed.

(** C3.  Whatever the rectangle, the positions and the pinch distances
    are: a rectangle that [handlePointerMove] hands to [onRectChange] in
    resize mode or in pinch mode has width and height at least 40.  (The
    bound needs no assumption on the rectangle before the move.) *)
Theorem resize_pinch_keep_min_size (Math_sqrt : Q -> Q) (canvasRef : option Canvas)
    (rect : Rect) (st : GridEditor.State) (e : PointerEvent) (r : Rect) :
  GridEditor.dragMode st = Some GridEditor.resize_br
  \/ GridEditor.dragMode st = Some GridEditor.pinch ->
  snd (GridEditor.handlePointerMove Math_sqrt canvasRef rect st e) = Some r ->
  40 <= width r /\ 40 <= height r.
Proof.
  intros Hmode. unfold GridEditor.handlePointerMove.
  destruct Hmode as [-> | ->]; repeat case_match; cbn [snd]; try discriminate;
    intros [= <-]; cbn [width height]; split; apply Math_max_40.
Qed.

Lemma Map_set_length (m : GridEditor.PointerMap) (k : Z) (v : Pos) :
  (length m <= length (GridEditor.Map_set m k v))%nat.
Proof.
  induction m as [| [k' v'] m IH]; cbn; [lia |].
  destruct (decide (k' = k)); cbn; lia.
Qed.

(** The two contacts of a pinch after a move of one of them: the moved
    contact at its new position, the other where it was. *)
Lemma Map_set_pair (m : GridEditor.PointerMap) (k : Z) (v : Pos) :
  GridEditor.Map_has m k = true ->
  GridEditor.Map_size (GridEditor.Map_set m k v) = 2%nat ->
  exists id0 id1 p0 p1,
    GridEditor.Map_set m k v = [(id0, p0); (id1, p1)]
    /\ ((id0 = k /\ p0 = v /\ (id1, p1) ∈ m) \/ (id1 = k /\ p1 = v /\ (id0, p0) ∈ m)).
Proof.
  unfold GridEditor.Map_size.
  destruct m as [| [a pa] [| [b pb] [| c rest]]]; intros Hhas Hsize.
  - discriminate.
  - cbn in Hhas, Hsize. destruct (decide (a = k)); [discriminate Hsize | discriminate Hhas].
  - cbn in Hhas |- *. destruct (decide (a = k)) as [-> | Ha].
    + exists k, b, v, pb. split; [reflexivity |]. left.
      split; [reflexivity |]. split; [reflexivity |]. apply list_elem_of_In. cbn. auto.
    + cbn. destruct (decide (b = k)) as [-> | Hb]; [| discriminate].
      exists a, k, pa, v. split; [reflexivity |]. right.
      split; [reflexivity |]. split; [reflexivity |]. apply list_elem_of_In. cbn. auto.
  - pose proof (Map_set_length ((a, pa) :: (b, pb) :: c :: rest) k v) as Hlen.
    rewrite Hsize in Hlen. cbn in Hlen. lia.
Qed.

(** C4.  In pinch mode, a rectangle handed to [onRectChange] by
    [handlePointerMove] comes from exactly two active contacts (the moved
    one at its new position, the other where it was) and a non-zero
    baseline distance; with [currentDistance] the distance between the two
    contacts, [Math.sqrt((p1.x - p0.x)^2 + (p1.y - p0.y)^2)], and
    [scale = currentDistance / baselineDistance], its width is
    [max(40, baselineWidth * scale)], its height
    [max(40, baselineHeight * scale)], and its midpoint is the midpoint of
    the rectangle before the move; for the rectangle (0, 0, 100, 100) as
    baseline and a scale of 2 it is (-50, -50, 200, 200).  Such a rectangle
    is handed over whenever the moving contact is tracked, two contacts are
    active, a gesture is in progress and the baseline distance is not
    zero. *)
Theorem pinch_move_rect (Math_sqrt : Q -> Q) (canvasRef : option Canvas)
    (rect : Rect) (st : GridEditor.State) (e : PointerEvent) :
  let pos := getCanvasMousePos canvasRef (clientX e) (clientY e) in
  let newPointers := GridEditor.Map_set (GridEditor.activePointers st) (pointerId e) pos in
  let emitted := snd (GridEditor.handlePointerMove Math_sqrt canvasRef rect st e) in
  GridEditor.dragMode st = Some GridEditor.pinch ->
  (forall r, emitted = Some r ->
     exists id0 id1 p0 p1 dist0 w0 h0,
       newPointers = [(id0, p0); (id1, p1)]
       /\ ((id0 = pointerId e /\ p0 = pos /\ (id1, p1) ∈ GridEditor.activePointers st)
           \/ (id1 = pointerId e /\ p1 = pos /\ (id0, p0) ∈ GridEditor.activePointers st))
       /\ GridEditor.initialPinchDist st = Some dist0 /\ ~ dist0 == 0
       /\ GridEditor.initialRectSize st = Some (w0, h0)
       /\ let currentDistance :=
            Math_sqrt ((pos_x p1 - pos_x p0) * (pos_x p1 - pos_x p0)
                       + (pos_y p1 - pos_y p0) * (pos_y p1 - pos_y p0)) in
          let scale := currentDistance / dist0 in
          width r = Number.Math_max 40 (w0 * scale)
          /\ height r = Number.Math_max 40 (h0 * scale)
          /\ x r + width r / 2 == x rect + width rect / 2
          /\ y r + height r / 2 == y rect + height rect / 2
          /\ (x rect == 0 -> y rect == 0 -> width rect == 100 -> height rect == 100 ->
              w0 == 100 -> h0 == 100 -> scale == 2 ->
              x r == -50 /\ y r == -50 /\ width r == 200 /\ height r == 200))
  /\ (GridEditor.Map_has (GridEditor.activePointers st) (pointerId e) = true ->
      GridEditor.Map_size newPointers = 2%nat ->
      GridEditor.isDragging st = true ->
      forall dist0, GridEditor.initialPinchDist st = Some dist0 -> ~ dist0 == 0 ->
      is_Some (GridEditor.initialRectSize st) ->
      is_Some emitted).
Proof.
  intros pos newPointers emitted Hmode. subst emitted.
  unfold GridEditor.handlePointerMove. fold pos. fold newPointers. rewrite Hmode.
  split.
  - intros r.
    destruct (GridEditor.Map_has (GridEditor.activePointers st) (pointerId e)) eqn:Hhas;
      [| discriminate]. cbn [negb].
    destruct (negb (GridEditor.isDragging st)); [discriminate |].
    destruct (GridEditor.Map_size newPointers) as [| [| [| k]]] eqn:Hsize;
      try discriminate.
    destruct (GridEditor.initialPinchDist st) as [dist0 |]; [| discriminate].
    destruct (GridEditor.initialRectSize st) as [[w0 h0] |]; [| discriminate].
    destruct (Number.truthy dist0) eqn:Htruthy; [| discriminate].
    destruct (Map_set_pair _ _ pos Hhas Hsize) as (id0 & id1 & p0 & p1 & Hpair & Hwho).
    fold newPointers in Hpair. rewrite Hpair. cbn [GridEditor.Map_values map snd].
    intros [= <-]. exists id0, id1, p0, p1, dist0, w0, h0.
    split; [done |]. split; [exact Hwho |]. split; [done |]. split.
    { unfold Number.truthy in Htruthy. apply negb_true_iff in Htruthy.
      intros Hz. apply Qeq_bool_iff in Hz. congruence. }
    split; [done |]. cbn [x y width height].
    split; [reflexivity |]. split; [reflexivity |]. split; [field |]. split; [field |].
    intros Hx Hy Hw Hh Hw0 Hh0 Hscale.
    unfold GridEditor.getDistance, Number.Math_pow2 in *.
    unfold Number.Math_max. rewrite Hw0, Hh0, Hscale, Hx, Hy, Hw, Hh.
    rewrite Q.max_r by lra. repeat split; lra.
  - intros Hhas Hsize Hdrag dist0 Hdist Hnz [[w0 h0] Hsz].
    rewrite Hhas, Hdrag, Hsize, Hdist, Hsz. cbn [negb].
    assert (Number.truthy dist0 = true) as ->.
    { unfold Number.truthy. apply negb_true_iff.
      destruct (Qeq_bool dist0 0) eqn:E; [| done].
      apply Qeq_bool_iff in E. contradiction. }
    destruct (GridEditor.Map_values newPointers) as [| p0 [| p1 rest]] eqn:Hvals.
    + apply (f_equal length) in Hvals. unfold GridEditor.Map_values in Hvals.
      rewrite length_map in Hvals. unfold GridEditor.Map_size in Hsize.
      cbn in Hvals. lia.
    + apply (f_equal length) in Hvals. unfold GridEditor.Map_values in Hvals.
      rewrite length_map in Hvals. unfold GridEditor.Map_size in Hsize.
      cbn in Hvals. lia.
    + cbn [snd]. eauto.
Qed.

(** C8, amended.  In the region editor a contact-move whose identifier
    is not among the active contacts changes nothing: same state (rectangle
    prop, mode, anchor, pinch baselines, active contacts) and no call of
    [onRectChange].  The cell board keeps no contact identifiers: it
    ignores a contact-move exactly when no drag is in progress; during a
    drag, a move of any contact sets the drag position and the hover
    index. *)
Theorem untracked_move_is_ignored (Math_sqrt : Q -> Q) (canvasRef : option Canvas)
    (rect : Rect) (st : GridEditor.State)
    (props : BingoBoard.Props) (bst : BingoBoard.State) (e : PointerEvent) :
  (GridEditor.Map_has (GridEditor.activePointers st) (pointerId e) = false ->
   GridEditor.handlePointerMove Math_sqrt canvasRef rect st e = (st, None))
  /\ (BingoBoard.draggedIdx bst = None ->
      BingoBoard.handlePointerMove canvasRef props bst e = bst)
  /\ (forall d, BingoBoard.draggedIdx bst = Some d ->
      let pos := getCanvasMousePos canvasRef (clientX e) (clientY e) in
      BingoBoard.handlePointerMove canvasRef props bst e
      = {| BingoBoard.draggedIdx := Some d;
           BingoBoard.hoverIdx := BingoBoard.cell_at props pos;
           BingoBoard.dragPos := pos |}).
Proof.
  split; [| split].
  - intros Hhas. unfold GridEditor.handlePointerMove. by rewrite Hhas.
  - intros Hd. unfold BingoBoard.handlePointerMove. by rewrite Hd.
  - intros d Hd pos. unfold BingoBoard.handlePointerMove. by rewrite Hd.
Qed.

(** C5, amended.  When a contact begins and no contact was active, the
    gesture mode was [null]; then: if the position is strictly nearer than
    30 pixels, on both axes, to the bottom-right corner of the rectangle, the
    editor enters resize mode; otherwise, if the position is in the
    rectangle (boundary included), it enters move mode; otherwise no gesture
    starts and the mode stays [null].  In every case the contact is
    recorded and [onRectChange] is not called. *)
Theorem first_contact_starts_gesture (Math_sqrt : Q -> Q) (canvasRef : option Canvas)
    (rect : Rect) (st : GridEditor.State) (e : PointerEvent) :
  editor_reachable Math_sqrt st ->
  GridEditor.activePointers st = [] ->
  let pos := getCanvasMousePos canvasRef (clientX e) (clientY e) in
  let st' := fst (GridEditor.handlePointerDown Math_sqrt canvasRef rect st e) in
  GridEditor.dragMode st = None
  /\ GridEditor.activePointers st' = [(pointerId e, pos)]
  /\ snd (GridEditor.handlePointerDown Math_sqrt canvasRef rect st e) = None
  /\ (near_handle pos rect ->
      GridEditor.dragMode st' = Some GridEditor.resize_br
      /\ GridEditor.isDragging st' = true /\ GridEditor.startPos st' = pos)
  /\ (~ near_handle pos rect -> inside (pos_x pos) (pos_y pos) rect ->
      GridEditor.dragMode st' = Some GridEditor.move
      /\ GridEditor.isDragging st' = true /\ GridEditor.startPos st' = pos)
  /\ (~ near_handle pos rect -> ~ inside (pos_x pos) (pos_y pos) rect ->
      GridEditor.dragMode st' = None /\ GridEditor.isDragging st' = false
      /\ GridEditor.startPos st' = GridEditor.startPos st).
Proof.
  intros Hreach Hnone pos st'.
  destruct (editor_idle Math_sqrt st Hreach) as [Hidle _].
  destruct (Hidle Hnone) as [Hmode Hdrag].
  subst st'. unfold GridEditor.handlePointerDown. fold pos.
  rewrite Hnone. cbn [GridEditor.Map_set GridEditor.Map_size length].
  destruct (decide (1%nat = 1%nat)) as [_ | ?]; [| done].
  set (near := (Number.ltb _ 30 && Number.ltb _ 30)%bool).
  set (within := (Number.leb _ _ && Number.leb _ _ && Number.leb _ _ && Number.leb _ _)%bool).
  assert (Hnear : near = true <-> near_handle pos rect).
  { unfold near, near_handle, Number.Math_abs. by rewrite andb_true_iff, !ltb_lt. }
  assert (Hin : within = true <-> inside (pos_x pos) (pos_y pos) rect).
  { unfold within, inside. rewrite !andb_true_iff, !leb_le. tauto. }
  split; [exact Hmode |].
  destruct near.
  - cbn. split; [done |]. split; [done |]. split; [done |].
    split; intros Hn; exfalso; apply Hn; by apply Hnear.
  - assert (~ near_handle pos rect) as Hnn by (intros Hn; apply Hnear in Hn; done).
    destruct within.
    + cbn. split; [done |]. split; [done |]. split; [done |]. split; [done |].
      intros _ Hni. exfalso. apply Hni. by apply Hin.
    + assert (~ inside (pos_x pos) (pos_y pos) rect) as Hni
        by (intros Hi; apply Hin in Hi; done).
      cbn. split; [done |]. split; [done |]. split; [done |]. split; [done |].
      done.
Qed.

(** ** Examples *)

Lemma half_in_unit_interval : unit_interval (1 # 2).
Proof. split; reflexivity || discriminate. Qed.


Lemma region90_seamless : Binary64.seamless Doubles.region90 Size3 = true.
Proof. vm_compute. reflexivity. Qed.



Lemma board_scan_selects_first_witness :
  let e := {| Binary64.pointerId := 1; Binary64.clientX := 40; Binary64.clientY := 35 |} in
  let props := {| Binary64.size := Size3; Binary64.rect := Doubles.region90 |} in
  let begun := Binary64.handlePointerDown Doubles.shrunk_canvas props Doubles.idle e in
  Binary64.dragPos begun = {| Binary64.pos_x := 60; Binary64.pos_y := 30 |}
  /\ Binary64.draggedIdx begun = Some 1%nat
  /\ Binary64.isPointInRect 60 30 (Binary64.getCellRect Doubles.region90 Size3 5) = true
  /\ Binary64.interior 60 30 (Binary64.getCellRect Doubles.region90 Size3 5) = false.
Proof.
  intros e props begun.
  destruct (board_scan_selects_first Doubles.shrunk_canvas props Doubles.idle e)
    as (Hdown & _ & _ & _ & Hedge).
  assert (Hbegun : begun
            = {| Binary64.draggedIdx := Some 1%nat;
                 Binary64.hoverIdx := Binary64.hoverIdx Doubles.idle;
                 Binary64.dragPos :=
                   Binary64.getCanvasMousePos Doubles.shrunk_canvas
                     (Binary64.clientX e) (Binary64.clientY e) |}).
  { apply (Hdown 1%nat). split; [cbn; lia |]. split; [vm_compute; reflexivity |].
    intros j Hj. destruct j as [| j]; [vm_compute; reflexivity | lia]. }
  split; [| split; [| split]].
  - rewrite Hbegun. vm_compute. reflexivity.
  - rewrite Hbegun. reflexivity.
  - vm_compute. reflexivity.
  - apply (Hedge region90_seamless 1%nat 5%nat); cbn; try lia; vm_compute; reflexivity.
Defined.

(** C10, as stated, fails on doubles: a position in two cells need not
    lie on a boundary line they share.  In the region {9.8, 0, 44.8, 44.8}
    cut in 4 x 4 the position (43.4, 5) is in the interior of cell 2 and in
    the interior of cell 3, and the drag begins on cell 2.  In the region
    [handleImageUpload] sets for a 1920 x 1080 image, cut in 5 x 5, the
    position at the right edge of cell 1 (x = 884.4000000000001) is in the
    interior of cell 2, and the drag begins on cell 1. *)
Lemma overlap_off_the_boundary :
  let at_ cx cy :=
    {| Binary64.pointerId := 1; Binary64.clientX := cx; Binary64.clientY := cy |} in
  let pos (e : Binary64.PointerEvent) :=
    Binary64.getCanvasMousePos Doubles.canvas (Binary64.clientX e) (Binary64.clientY e) in
  let inside e r := Binary64.isPointInRect (Binary64.pos_x (pos e)) (Binary64.pos_y (pos e)) r in
  let strictly_inside e r :=
    Binary64.interior (Binary64.pos_x (pos e)) (Binary64.pos_y (pos e)) r in
  let begun props e :=
    Binary64.draggedIdx (Binary64.handlePointerDown Doubles.canvas props Doubles.idle e) in
  (let cell := Binary64.getCellRect Doubles.region448 Size4 in
   let e := at_ (434 / 10)%float 5%float in
   strictly_inside e (cell 2%nat) = true
   /\ strictly_inside e (cell 3%nat) = true
   /\ begun {| Binary64.size := Size4; Binary64.rect := Doubles.region448 |} e = Some 2%nat)
  /\ (let cell := Binary64.getCellRect Doubles.region1080 Size5 in
      let e := at_ (Binary64.x (cell 1%nat) + Binary64.width (cell 1%nat))%float 300%float in
      inside e (cell 1%nat) = true
      /\ strictly_inside e (cell 2%nat) = true
      /\ begun {| Binary64.size := Size5; Binary64.rect := Doubles.region1080 |} e
         = Some 1%nat).
Proof. vm_compute. repeat split. Qed.

Lemma entropy_half {T O : Type} (d : nat) :
  unit_interval (entropy (@Examples.empty_memory T O) d).
Proof. apply half_in_unit_interval. Qed.

Lemma shuffleArray_permutes_witness :
  exists (newArr : addr) (m' : Memory nat unit) (l' : list nat),
    imageUtils.shuffleArray 0
      {| arrays := [[10; 20; 30; 40]%nat]; objects := [];
         entropy := fun _ => 1 # 2; drawn := 0 |} = Some (newArr, m')
    /\ newArr <> 0%nat
    /\ arrays m' !! newArr = Some l'
    /\ l' ≡ₚ [10; 20; 30; 40]%nat
    /\ arrays m' !! 0%nat = Some [10; 20; 30; 40]%nat.
Proof.
  destruct (shuffleArray_permutes
              {| arrays := [[10; 20; 30; 40]%nat]; objects := ([] : list unit);
                 entropy := fun _ => 1 # 2; drawn := 0 |}
              0 [10; 20; 30; 40]%nat eq_refl (fun _ => half_in_unit_interval))
    as (newArr & m' & l' & Hrun & Hnew & Hl' & _ & Hperm & Hkept & _).
  exists newArr, m', l'. auto.
Defined.

Lemma identity9_holds_cells :
  holds_cells Examples.identity9 0 (seq 0 9) (map (fun i => mkCell i i) (seq 0 9)).
Proof.
  split; [reflexivity |]. split; [apply NoDup_seq |].
  exact (fresh_cells_lookup [] (map (fun i => mkCell i i) (seq 0 9))).
Qed.

Lemma mapping_stays_permutation_witness :
  exists (st : App.State) (m : App.Mem),
    (st0 <- App.initializeMapping Size3 Examples.app0 ;;
     st1 <- App.handleShuffle st0 ;;
     App.handleSwap 0 8 st1)%js Examples.empty_memory = Some (st, m)
    /\ exists refs cells,
         holds_cells m (App.mapping st) refs cells
         /\ map originalPos cells ≡ₚ seq 0 9
         /\ NoDup (map originalPos cells).
Proof.
  eexists _, _. split; [vm_compute; reflexivity |].
  eassert (Hreach : reachable Size3 _ _).
  { eapply (reach_swap Size3 0 8); [eapply reach_shuffle;
        [eapply (reach_init Size3 Examples.app0 Examples.empty_memory) |] |].
    - exact (@entropy_half nat CellMapping).
    - vm_compute. reflexivity.
    - vm_compute. reflexivity.
    - vm_compute. reflexivity. }
  destruct (mapping_stays_permutation Size3 _ _ Hreach)
    as ((refs & cells & Hc & _ & Hperm & Hnd & _) & _).
  exists refs, cells. auto.
Defined.

Lemma board_drop_exchanges_two_cells_witness :
  exists bst' ast' m' cells',
    AppBoard.pointerUp
      {| BingoBoard.draggedIdx := Some 0%nat; BingoBoard.hoverIdx := Some 8%nat;
         BingoBoard.dragPos := {| pos_x := 80; pos_y := 80 |} |}
      Examples.app0 Examples.identity9 = Some ((bst', ast'), m')
    /\ BingoBoard.draggedIdx bst' = None /\ BingoBoard.hoverIdx bst' = None
    /\ holds_cells m' (App.mapping ast') (seq 0 9) cells'
    /\ cells' !! 0%nat = Some {| currentPos := 0; originalPos := 8 |}
    /\ cells' !! 8%nat = Some {| currentPos := 8; originalPos := 0 |}
    /\ cells' !! 4%nat = Some {| currentPos := 4; originalPos := 4 |}.
Proof.
  destruct (board_drop_exchanges_two_cells
              {| BingoBoard.draggedIdx := Some 0%nat; BingoBoard.hoverIdx := Some 8%nat;
                 BingoBoard.dragPos := {| pos_x := 80; pos_y := 80 |} |}
              Examples.app0 Examples.identity9 (seq 0 9)
              (map (fun i => mkCell i i) (seq 0 9)) 0 (mkCell 0 0)
              identity9_holds_cells eq_refl eq_refl)
    as (bst' & ast' & m' & Hrun & Hd & Hh & _ & Hswap).
  { intros h [= <-]. by eexists. }
  destruct (Hswap 8%nat (mkCell 8 8) eq_refl ltac:(lia) eq_refl)
    as (cells' & Hc & H0 & H8 & Hrest).
  exists bst', ast', m', cells'.
  repeat (split; [assumption |]). rewrite Hrest by lia. reflexivity.
Defined.

Lemma resize_pinch_keep_min_size_witness :
  exists r : Rect,
    snd (GridEditor.handlePointerMove Examples.sqrt_of_square Examples.canvas
           Examples.square100 Examples.resizing
           {| pointerId := 1; clientX := 10; clientY := 120 |}) = Some r
    /\ width r == 40 /\ height r == 120
    /\ 40 <= width r /\ 40 <= height r.
Proof.
  eexists. split; [vm_compute; reflexivity |].
  split; [reflexivity |]. split; [reflexivity |].
  apply (resize_pinch_keep_min_size Examples.sqrt_of_square Examples.canvas
           Examples.square100 Examples.resizing
           {| pointerId := 1; clientX := 10; clientY := 120 |});
    [left; reflexivity | vm_compute; reflexivity].
Defined.

Lemma pinch_move_rect_witness :
  let st1 :=
    fst (GridEditor.handlePointerDown Examples.sqrt_of_square Examples.canvas
           Examples.square100 GridEditor.initial (Scenarios.at_ 1 10 20)) in
  let st2 :=
    fst (GridEditor.handlePointerDown Examples.sqrt_of_square Examples.canvas
           Examples.square100 st1 (Scenarios.at_ 2 40 60)) in
  exists (r : Rect) (dist0 : Q),
    GridEditor.initialPinchDist st2 = Some dist0 /\ dist0 == 50
    /\ snd (GridEditor.handlePointerMove Examples.sqrt_of_square Examples.canvas
              Examples.square100 st2 (Scenarios.at_ 2 70 100)) = Some r
    /\ x r == -50 /\ y r == -50 /\ width r == 200 /\ height r == 200.
Proof.
  intros st1 st2.
  destruct (pinch_move_rect Examples.sqrt_of_square Examples.canvas
              Examples.square100 st2 (Scenarios.at_ 2 70 100) eq_refl)
    as [Hshape Hemits].
  destruct (Hemits eq_refl eq_refl eq_refl _ eq_refl ltac:(discriminate)
              ltac:(by eexists)) as [r Hr].
  exists r. eexists. split; [reflexivity |]. split; [reflexivity |].
  split; [exact Hr |].
  destruct (Hshape r Hr)
    as (id0 & id1 & p0 & p1 & dist0 & w0 & h0 & Hpair & _ & Hdist & _ & Hsize & Hrect).
  injection Hpair as <- <- <- <-. injection Hdist as <-. injection Hsize as <- <-.
  destruct Hrect as (_ & _ & _ & _ & Hexample).
  apply Hexample; reflexivity.
Defined.

Lemma first_contact_starts_gesture_witness :
  GridEditor.dragMode
    (fst (GridEditor.handlePointerDown Examples.sqrt_of_square Examples.canvas
            Examples.square100 GridEditor.initial
            {| pointerId := 1; clientX := 90; clientY := 120 |}))
  = Some GridEditor.resize_br
  /\ GridEditor.dragMode
       (fst (GridEditor.handlePointerDown Examples.sqrt_of_square Examples.canvas
               Examples.square100 GridEditor.initial
               {| pointerId := 1; clientX := 200; clientY := 200 |}))
     = None.
Proof.
  split.
  - destruct (first_contact_starts_gesture Examples.sqrt_of_square Examples.canvas
                Examples.square100 GridEditor.initial
                {| pointerId := 1; clientX := 90; clientY := 120 |}
                (editor_initial _) eq_refl) as (_ & _ & _ & Hnear & _).
    apply Hnear. split; reflexivity.
  - destruct (first_contact_starts_gesture Examples.sqrt_of_square Examples.canvas
                Examples.square100 GridEditor.initial
                {| pointerId := 1; clientX := 200; clientY := 200 |}
                (editor_initial _) eq_refl) as (_ & _ & _ & _ & _ & Hout).
    apply Hout.
    + intros [Hx _]. revert Hx. vm_compute. discriminate.
    + intros [[_ Hx] _]. revert Hx. vm_compute. intros Hx. by apply Hx.
Defined.

(** C5, as stated, fails on the edge of the handle zone: a first contact
    exactly 30 pixels from the bottom-right corner on both axes, inside the
    rectangle, starts a move, not a resize. *)
Lemma handle_test_is_strict :
  let e := {| pointerId := 1; clientX := 70; clientY := 70 |} in
  let pos := getCanvasMousePos Examples.canvas (clientX e) (clientY e) in
  GridEditor.activePointers GridEditor.initial = []
  /\ Qabs (pos_x pos - (x Examples.square100 + width Examples.square100)) <= 30
  /\ Qabs (pos_y pos - (y Examples.square100 + height Examples.square100)) <= 30
  /\ GridEditor.dragMode
       (fst (GridEditor.handlePointerDown Examples.sqrt_of_square Examples.canvas
               Examples.square100 GridEditor.initial e))
     = Some GridEditor.move.
Proof. vm_compute. repeat split; discriminate. Qed.

Lemma untracked_move_is_ignored_witness :
  GridEditor.handlePointerMove Examples.sqrt_of_square Examples.canvas
    Examples.square100 Examples.resizing
    {| pointerId := 7; clientX := 10; clientY := 120 |} = (Examples.resizing, None)
  /\ BingoBoard.handlePointerMove Examples.canvas Examples.board BingoBoard.initial
       {| pointerId := 7; clientX := 10; clientY := 120 |} = BingoBoard.initial.
Proof.
  destruct (untracked_move_is_ignored Examples.sqrt_of_square Examples.canvas
              Examples.square100 Examples.resizing Examples.board BingoBoard.initial
              {| pointerId := 7; clientX := 10; clientY := 120 |})
    as (Heditor & Hboard & _).
  split; [apply Heditor | apply Hboard]; reflexivity.
Defined.

(** C8, as stated, fails on the cell board: pointer 1 begins a drag on
    cell 0; a move of pointer 2, which the board never saw begin, sets the
    hover index to cell 4 and changes the state. *)
Lemma board_follows_any_pointer :
  let down := {| pointerId := 1; clientX := 10; clientY := 10 |} in
  let move := {| pointerId := 2; clientX := 50; clientY := 50 |} in
  let st1 := BingoBoard.handlePointerDown Examples.canvas Examples.board
               BingoBoard.initial down in
  let st2 := BingoBoard.handlePointerMove Examples.canvas Examples.board st1 move in
  pointerId move <> pointerId down
  /\ BingoBoard.draggedIdx st1 = Some 0%nat
  /\ BingoBoard.hoverIdx st1 = None
  /\ BingoBoard.hoverIdx st2 = Some 4%nat
  /\ st2 <> st1.
Proof.
  vm_compute. repeat split; try discriminate.
Qed.

(** * More properties *)

(** ** The cell mapping: initialisation, size changes, swaps *)

Lemma identity_cells_length (n : nat) : length (identity_cells n) = n.
Proof. unfold identity_cells. by rewrite length_map, length_seq. Qed.

Lemma identity_cells_currentPos (n : nat) : map currentPos (identity_cells n) = seq 0 n.
Proof. unfold identity_cells. rewrite map_map. cbn [currentPos]. by rewrite map_id. Qed.

Lemma identity_cells_originalPos (n : nat) : map originalPos (identity_cells n) = seq 0 n.
Proof. unfold identity_cells. rewrite map_map. cbn [originalPos]. by rewrite map_id. Qed.

(** [initializeMapping] never fails and leaves the identity mapping, made
    of new objects in a new array; what was in memory stays. *)
Lemma initializeMapping_identity (size : BingoSize) (st : App.State) (m : App.Mem) :
  let n := (size_nat size * size_nat size)%nat in
  exists m' : App.Mem,
    App.initializeMapping size st m = Some (App.setMapping st (length (arrays m)), m')
    /\ holds_cells m' (length (arrays m)) (seq (length (objects m)) n) (identity_cells n)
    /\ entropy m' = entropy m
    /\ (forall a l, arrays m !! a = Some l -> arrays m' !! a = Some l)
    /\ (forall a c, objects m !! a = Some c -> objects m' !! a = Some c).
Proof.
  intros n. eexists. split; [apply initializeMapping_spec |]. fold n.
  split; [| split; [done | split]]; js_simpl.
  - split; [by apply list_lookup_middle |]. split; [apply NoDup_seq |]. js_simpl.
    pose proof (fresh_cells_lookup (objects m) (identity_cells n)) as Hfresh.
    by rewrite identity_cells_length in Hfresh.
  - intros a l Ha. by apply lookup_app_l_Some.
  - intros a c Ha. by apply lookup_app_l_Some.
Qed.

(** X1.  [handleSizeChange newSize] never fails: it sets the size to
    [newSize], keeps the rectangle and the editing flag, and replaces the
    mapping by the identity mapping of [newSize * newSize] cells, whatever
    the mapping was (so a shuffle made before is lost).  Arrays and objects
    that existed before are left as they were. *)
Theorem handleSizeChange_resets_mapping (newSize : BingoSize) (st : App.State)
    (m : App.Mem) :
  let n := (size_nat newSize * size_nat newSize)%nat in
  exists (st' : App.State) (m' : App.Mem) (refs : list addr),
    App.handleSizeChange newSize st m = Some (st', m')
    /\ size (App.gridConfig st') = newSize
    /\ rect (App.gridConfig st') = rect (App.gridConfig st)
    /\ App.isEditingGrid st' = App.isEditingGrid st
    /\ holds_cells m' (App.mapping st') refs (identity_cells n)
    /\ (forall a l, arrays m !! a = Some l -> arrays m' !! a = Some l)
    /\ (forall a c, objects m !! a = Some c -> objects m' !! a = Some c).
Proof.
  intros n. unfold App.handleSizeChange.
  destruct (initializeMapping_identity newSize
              (App.setGridConfig st {| size := newSize; rect := rect (App.gridConfig st) |}) m)
    as (m' & Hrun & Hcells & _ & Harr & Hobj).
  eexists _, m', _. split; [exact Hrun |].
  split; [done |]. split; [done |]. split; [done |].
  split; [exact Hcells |]. split; assumption.
Qed.

Lemma handleSwap_out_of_range (st : App.State) (m : App.Mem) (refs : list addr)
    (cells : list CellMapping) (idxA idxB : nat) :
  holds_cells m (App.mapping st) refs cells ->
  cells !! idxA = None \/ cells !! idxB = None ->
  App.handleSwap idxA idxB st m = None.
Proof.
  intros (Harr & Hnd & Hcells) Hout.
  assert (Hnone : forall i, cells !! i = None -> refs !! i = None).
  { intros i Hi. apply lookup_ge_None. rewrite (Forall2_length _ _ _ Hcells).
    by apply lookup_ge_None. }
  unfold App.handleSwap. unfold bind at 1, array_elems at 1. rewrite Harr.
  unfold bind at 1, new_array at 1. unfold with_arrays.
  unfold bind at 1, array_get at 1. js_simpl.
  destruct (Z.ltb_spec (Z.of_nat idxA) 0) as [? | _]; [lia |].
  rewrite list_lookup_middle, Nat2Z.id by done.
  destruct (cells !! idxA) as [ca |] eqn:HcA.
  - destruct Hout as [[=] | HcB].
    destruct (Forall2_lookup_r _ _ _ _ _ Hcells HcA) as (a & HrA & HoA).
    rewrite HrA. unfold bind at 1, object_get at 1. js_simpl. rewrite HoA.
    unfold bind at 1, array_get at 1. js_simpl.
    destruct (Z.ltb_spec (Z.of_nat idxA) 0) as [? | _]; [lia |].
    rewrite list_lookup_middle, Nat2Z.id, HrA by done.
    unfold bind at 1, array_get at 1. js_simpl.
    destruct (Z.ltb_spec (Z.of_nat idxB) 0) as [? | _]; [lia |].
    by rewrite list_lookup_middle, Nat2Z.id, (Hnone _ HcB) by done.
  - by rewrite (Hnone _ HcA).
Qed.

Lemma set_own_originalPos (c : CellMapping) :
  App.set_originalPos (originalPos c) c = c.
Proof. by destruct c. Qed.

(** Exchanging twice gives back the list. *)
Lemma exchange_cells_twice (cells : list CellMapping) (a b : nat) (ca cb : CellMapping) :
  cells !! a = Some ca -> cells !! b = Some cb ->
  let once := <[b := App.set_originalPos (originalPos ca) cb]>
                (<[a := App.set_originalPos (originalPos cb) ca]> cells) in
  exists ca' cb',
    once !! a = Some ca' /\ once !! b = Some cb'
    /\ <[b := App.set_originalPos (originalPos ca') cb']>
         (<[a := App.set_originalPos (originalPos cb') ca']> once) = cells.
Proof.
  intros Ha Hb once.
  pose proof (lookup_lt_Some _ _ _ Ha) as Hla.
  pose proof (lookup_lt_Some _ _ _ Hb) as Hlb.
  destruct (decide (a = b)) as [-> | Hab].
  - assert (ca = cb) as -> by congruence.
    exists cb, cb. subst once.
    rewrite !set_own_originalPos, !list_insert_insert_eq.
    rewrite list_lookup_insert_eq by done.
    split; [done |]. split; [done |]. by apply list_insert_id.
  - exists (App.set_originalPos (originalPos cb) ca),
           (App.set_originalPos (originalPos ca) cb). subst once.
    split; [| split].
    + rewrite list_lookup_insert_ne by done. by apply list_lookup_insert_eq.
    + apply list_lookup_insert_eq. by rewrite length_insert.
    + cbn [originalPos App.set_originalPos].
      apply list_eq. intros k.
      destruct (decide (k = b)) as [-> | Hkb].
      * rewrite list_lookup_insert_eq by (by rewrite !length_insert).
        rewrite Hb. by destruct cb.
      * rewrite list_lookup_insert_ne by done.
        destruct (decide (k = a)) as [-> | Hka].
        -- rewrite list_lookup_insert_eq by (by rewrite !length_insert).
           rewrite Ha. by destruct ca.
        -- by rewrite !list_lookup_insert_ne.
Qed.

(** X3.  On a mapping of distinct cells and for indices in range (equal
    or not), [handleSwap idxA idxB] done twice gives back the cells it
    started from, and [handleSwap idxB idxA] gives the same cells as
    [handleSwap idxA idxB]. *)
Theorem handleSwap_twice_restores (st : App.State) (m : App.Mem) (refs : list addr)
    (cells : list CellMapping) (idxA idxB : nat) :
  holds_cells m (App.mapping st) refs cells ->
  (idxA < length cells)%nat -> (idxB < length cells)%nat ->
  exists st1 m1 st2 m2 cells1,
    App.handleSwap idxA idxB st m = Some (st1, m1)
    /\ holds_cells m1 (App.mapping st1) refs cells1
    /\ App.handleSwap idxA idxB st1 m1 = Some (st2, m2)
    /\ holds_cells m2 (App.mapping st2) refs cells
    /\ (forall st1' m1', App.handleSwap idxB idxA st m = Some (st1', m1') ->
        holds_cells m1' (App.mapping st1') refs cells1).
Proof.
  intros Hc HA HB.
  destruct (lookup_lt_is_Some_2 cells idxA HA) as [ca HcA].
  destruct (lookup_lt_is_Some_2 cells idxB HB) as [cb HcB].
  destruct (handleSwap_spec st m refs cells idxA idxB ca cb Hc HcA HcB)
    as (m1 & Hrun1 & Hc1 & _).
  destruct (exchange_cells_twice cells idxA idxB ca cb HcA HcB)
    as (ca' & cb' & HcA' & HcB' & Hback).
  destruct (handleSwap_spec (App.setMapping st (length (arrays m))) m1 refs _
              idxA idxB ca' cb' Hc1 HcA' HcB')
    as (m2 & Hrun2 & Hc2 & _).
  rewrite Hback in Hc2.
  eexists _, m1, _, m2, _. split; [exact Hrun1 |]. split; [exact Hc1 |].
  split; [exact Hrun2 |]. split; [exact Hc2 |].
  intros st1' m1' Hrun.
  destruct (handleSwap_spec st m refs cells idxB idxA cb ca Hc HcB HcA)
    as (m3 & Hrun3 & Hc3 & _).
  rewrite Hrun3 in Hrun. injection Hrun as <- <-.
  destruct (decide (idxA = idxB)) as [<- | Hne].
  - assert (ca = cb) as <- by congruence. exact Hc3.
  - by rewrite list_insert_insert_ne in Hc3.
Qed.

(** X4.  On a mapping of distinct cells, [handleSwap idxA idxB] succeeds
    exactly when both indices are positions of the mapping; with an index
    out of range it throws (reading [originalPos] of [undefined]). *)
Theorem handleSwap_succeeds_iff_in_range (st : App.State) (m : App.Mem)
    (refs : list addr) (cells : list CellMapping) (idxA idxB : nat) :
  holds_cells m (App.mapping st) refs cells ->
  is_Some (App.handleSwap idxA idxB st m)
  <-> (idxA < length cells)%nat /\ (idxB < length cells)%nat.
Proof.
  intros Hc. split.
  - intros [r Hr].
    destruct (cells !! idxA) as [ca |] eqn:HcA; [destruct (cells !! idxB) as [cb |] eqn:HcB |].
    + split; by eapply lookup_lt_Some.
    + rewrite (handleSwap_out_of_range st m refs cells idxA idxB Hc) in Hr; [done | by right].
    + rewrite (handleSwap_out_of_range st m refs cells idxA idxB Hc) in Hr; [done | by left].
  - intros [HA HB].
    destruct (lookup_lt_is_Some_2 cells idxA HA) as [ca HcA].
    destruct (lookup_lt_is_Some_2 cells idxB HB) as [cb HcB].
    destruct (handleSwap_spec st m refs cells idxA idxB ca cb Hc HcA HcB)
      as (m1 & -> & _). by eexists.
Qed.

(** X5.  [handleSwap] copies the array but not the cells: the new mapping
    is another array that holds the same objects, so the exchange also
    shows through the previous mapping array.  [handleShuffle] copies the
    cells: the previous mapping array still holds the cells it held, and
    the new mapping holds objects none of which is an old one. *)
Theorem swap_writes_shared_cells_shuffle_copies (st : App.State) (m : App.Mem)
    (refs : list addr) (cells : list CellMapping) :
  holds_cells m (App.mapping st) refs cells ->
  (forall idxA idxB ca cb st' m',
     cells !! idxA = Some ca -> cells !! idxB = Some cb ->
     App.handleSwap idxA idxB st m = Some (st', m') ->
     App.mapping st' <> App.mapping st
     /\ arrays m' !! App.mapping st' = Some refs
     /\ holds_cells m' (App.mapping st) refs
          (<[idxB := App.set_originalPos (originalPos ca) cb]>
             (<[idxA := App.set_originalPos (originalPos cb) ca]> cells)))
  /\ (forall st' m',
        (forall d, unit_interval (entropy m d)) ->
        App.handleShuffle st m = Some (st', m') ->
        App.mapping st' <> App.mapping st
        /\ holds_cells m' (App.mapping st) refs cells
        /\ exists refs' cells', holds_cells m' (App.mapping st') refs' cells'
             /\ forall r, r ∈ refs' -> r ∉ refs).
Proof.
  intros Hc. pose proof Hc as (Harr & Hnd & Hcells).
  pose proof (lookup_lt_Some _ _ _ Harr) as Hlt.
  split.
  - intros idxA idxB ca cb st' m' HcA HcB Hrun.
    destruct (handleSwap_spec st m refs cells idxA idxB ca cb Hc HcA HcB)
      as (m1 & Hrun1 & (Harr1 & _ & Hcells1) & _ & Hframe & _).
    rewrite Hrun1 in Hrun. injection Hrun as <- <-. cbn [App.mapping App.setMapping].
    split; [lia |]. split; [exact Harr1 |].
    split; [by apply Hframe |]. split; [exact Hnd | exact Hcells1].
  - intros st' m' Hent Hrun.
    destruct (handleShuffle_spec st m refs cells Hc Hent)
      as (sh & m1 & Hrun1 & _ & Hc1 & _ & Harrs & Hobjs).
    rewrite Hrun1 in Hrun. injection Hrun as <- <-. cbn [App.mapping App.setMapping].
    split; [lia |]. split.
    + split; [by apply Harrs |]. split; [exact Hnd |].
      eapply Forall2_impl; [exact Hcells |]. intros r c Hr. by apply Hobjs.
    + eexists _, _. split; [exact Hc1 |].
      intros r Hr Hold. apply elem_of_seq in Hr.
      apply list_elem_of_lookup in Hold as [i Hi].
      destruct (Forall2_lookup_l _ _ _ _ _ Hcells Hi) as (c & _ & Hobj).
      apply lookup_lt_Some in Hobj. lia.
Qed.

(** ** The app from the first image on *)

Lemma currentPos_rebuilt (cells : list CellMapping) (sh : list nat) :
  length cells = length sh ->
  map currentPos (zip_with (fun c v => App.set_originalPos v c) cells sh)
  = map currentPos cells.
Proof.
  revert sh. induction cells as [| c cells IH]; intros [| v sh] Hlen;
    try discriminate; [reflexivity |].
  cbn. f_equal. apply IH. by injection Hlen.
Qed.

Lemma currentPos_kept (cells : list CellMapping) (i v : nat) (c : CellMapping) :
  cells !! i = Some c ->
  map currentPos (<[i := App.set_originalPos v c]> cells) = map currentPos cells.
Proof.
  intros Hi. rewrite list_fmap_insert. cbn [currentPos App.set_originalPos].
  apply list_insert_id. by rewrite list_lookup_fmap, Hi.
Qed.

(** The run of the [onload] callback of [handleImageUpload]. *)
Lemma handleImageUpload_loaded_spec (w h : Q) (st : App.State) (m : App.Mem) :
  exists (st' : App.State) (m' : App.Mem),
    AppImage.handleImageUpload_loaded w h st m = Some (st', m')
    /\ App.gridConfig st'
       = {| size := Size5;
            rect := {| x := (w - Qmin w h * (7 # 10)) / 2;
                       y := (h - Qmin w h * (7 # 10)) / 2;
                       width := Qmin w h * (7 # 10);
                       height := Qmin w h * (7 # 10) |} |}
    /\ App.isEditingGrid st' = true
    /\ holds_cells m' (App.mapping st') (seq (length (objects m)) 25) (identity_cells 25)
    /\ entropy m' = entropy m.
Proof.
  unfold AppImage.handleImageUpload_loaded, bind.
  destruct (initializeMapping_identity Size5
              (App.setGridConfig st
                 {| size := Size5;
                    rect := {| x := (w - Qmin w h * (7 # 10)) / 2;
                               y := (h - Qmin w h * (7 # 10)) / 2;
                               width := Qmin w h * (7 # 10);
                               height := Qmin w h * (7 # 10) |} |}) m)
    as (m' & -> & Hcells & Hent & _).
  eexists _, m'. split; [reflexivity |]. cbn. auto.
Qed.

(** The invariant of the app: [Math.random] keeps to its contract, and the
    mapping holds one cell object for each position of the grid of the
    current size, each with its own position as [currentPos], the
    [originalPos] being a permutation of the positions. *)
Lemma app_reachable_inv (st : App.State) (m : App.Mem) :
  app_reachable st m ->
  (forall d, unit_interval (entropy m d))
  /\ exists refs cells,
       let n := (size_nat (size (App.gridConfig st))
                 * size_nat (size (App.gridConfig st)))%nat in
       holds_cells m (App.mapping st) refs cells
       /\ map currentPos cells = seq 0 n
       /\ map originalPos cells ≡ₚ seq 0 n.
Proof.
  induction 1 as [w h st0 m0 st m Hent Hrun
                 | newSize st m st' m' _ [Hent _] Hrun
                 | st m st' m' _ [Hent (refs & cells & Hc & Hcur & Hperm)] Hrun
                 | idxA idxB st m st' m' _ [Hent (refs & cells & Hc & Hcur & Hperm)] Hrun
                 | r st m _ IH
                 | st m _ IH].
  - destruct (handleImageUpload_loaded_spec w h st0 m0)
      as (st1 & m1 & Hrun1 & Hcfg & _ & Hc & Hent1).
    rewrite Hrun1 in Hrun. injection Hrun as <- <-.
    split; [by rewrite Hent1 |]. eexists _, _. rewrite Hcfg. cbn [size size_nat].
    split; [exact Hc |].
    split; [apply identity_cells_currentPos | by rewrite identity_cells_originalPos].
  - unfold App.handleSizeChange in Hrun.
    destruct (initializeMapping_identity newSize
                (App.setGridConfig st {| size := newSize; rect := rect (App.gridConfig st) |}) m)
      as (m1 & Hrun1 & Hc & Hent1 & _).
    rewrite Hrun1 in Hrun. injection Hrun as <- <-.
    split; [by rewrite Hent1 |]. eexists _, _. cbn.
    split; [exact Hc |].
    split; [apply identity_cells_currentPos | by rewrite identity_cells_originalPos].
  - destruct (handleShuffle_spec st m refs cells Hc Hent)
      as (sh & m1 & Hrun1 & Hsh & Hc1 & Hent1 & _).
    rewrite Hrun1 in Hrun. injection Hrun as <- <-.
    assert (length cells = length sh)
      by (by rewrite (Permutation_length Hsh), length_map).
    split; [by rewrite Hent1 |]. eexists _, _. cbn.
    split; [exact Hc1 |]. split.
    + by rewrite currentPos_rebuilt.
    + rewrite originalPos_rebuilt by done. by rewrite Hsh.
  - destruct (cells !! idxA) as [ca |] eqn:HcA; [destruct (cells !! idxB) as [cb |] eqn:HcB |].
    + destruct (handleSwap_spec st m refs cells idxA idxB ca cb Hc HcA HcB)
        as (m1 & Hrun1 & Hc1 & Hent1 & _).
      rewrite Hrun1 in Hrun. injection Hrun as <- <-.
      split; [by rewrite Hent1 |]. eexists _, _. cbn.
      split; [exact Hc1 |]. split.
      * rewrite !list_fmap_insert. cbn [currentPos App.set_originalPos].
        rewrite !list_insert_id; [done | by rewrite list_lookup_fmap, HcA |].
        rewrite list_insert_id by (by rewrite list_lookup_fmap, HcA).
        by rewrite list_lookup_fmap, HcB.
      * rewrite !list_fmap_insert. cbn [originalPos App.set_originalPos].
        rewrite <- Hperm. apply exchange_perm; by rewrite list_lookup_fmap, ?HcA, ?HcB.
    + rewrite (handleSwap_out_of_range st m refs cells idxA idxB Hc) in Hrun;
        [done | by right].
    + rewrite (handleSwap_out_of_range st m refs cells idxA idxB Hc) in Hrun;
        [done | by left].
  - exact IH.
  - exact IH.
Qed.

(** X2.  In every state of [App] from the first image on (image loads,
    size changes, "shuffle all", swaps, rectangle changes and the confirm /
    modify toggle, in any order) the mapping holds exactly [size * size]
    distinct cells for the current grid size, the cell at index [i] has
    [currentPos = i], and the [originalPos] values are a permutation of
    [0 .. size * size - 1]. *)
Theorem mapping_matches_grid_size (st : App.State) (m : App.Mem) :
  app_reachable st m ->
  let n := (size_nat (size (App.gridConfig st))
            * size_nat (size (App.gridConfig st)))%nat in
  exists refs cells,
    holds_cells m (App.mapping st) refs cells
    /\ length cells = n
    /\ (forall i c, cells !! i = Some c -> currentPos c = i)
    /\ map originalPos cells ≡ₚ seq 0 n.
Proof.
  intros Hreach n.
  destruct (app_reachable_inv st m Hreach) as [_ (refs & cells & Hc & Hcur & Hperm)].
  fold n in Hcur, Hperm.
  exists refs, cells. split; [exact Hc |].
  split; [by rewrite <- (length_map currentPos), Hcur, length_seq |].
  split; [| exact Hperm].
  intros i c Hi.
  assert (map currentPos cells !! i = Some (currentPos c)) as Hl
    by (by rewrite list_lookup_fmap, Hi).
  rewrite Hcur in Hl. apply lookup_seq in Hl. lia.
Qed.

(** X17.  When an image of positive width [w] and height [h] has loaded,
    [handleImageUpload] sets the size to 5, turns editing on, installs the
    identity mapping of 25 cells, and sets the region to a square of side
    0.7 times the smaller of [w] and [h], centred on the image and
    strictly inside it. *)
Theorem image_load_centres_default_region (w h : Q) (st : App.State) (m : App.Mem) :
  0 < w -> 0 < h ->
  exists (st' : App.State) (m' : App.Mem) (refs : list addr),
    AppImage.handleImageUpload_loaded w h st m = Some (st', m')
    /\ size (App.gridConfig st') = Size5
    /\ App.isEditingGrid st' = true
    /\ holds_cells m' (App.mapping st') refs (identity_cells 25)
    /\ let r := rect (App.gridConfig st') in
       width r == height r
       /\ 0 < width r
       /\ (width r == w * (7 # 10) \/ width r == h * (7 # 10))
       /\ width r <= w * (7 # 10) /\ height r <= h * (7 # 10)
       /\ x r + width r / 2 == w / 2
       /\ y r + height r / 2 == h / 2
       /\ 0 < x r /\ x r + width r < w
       /\ 0 < y r /\ y r + height r < h.
Proof.
  intros Hw Hh.
  destruct (handleImageUpload_loaded_spec w h st m)
    as (st' & m' & Hrun & Hcfg & Hedit & Hc & _).
  eexists st', m', _. split; [exact Hrun |]. rewrite Hcfg. cbn [size rect x y width height].
  split; [done |]. split; [done |]. split; [exact Hc |].
  generalize (Q.min_spec w h). generalize (Qmin w h). intros g Hg.
  split; [reflexivity |].
  assert (Hhalf : forall q : Q, q / 2 == q * (1 # 2)) by (intros q; field).
  rewrite !Hhalf.
  destruct Hg as [[Hlt Hg] | [Hle Hg]].
  - split; [lra |]. split; [left; lra |]. repeat split; lra.
  - split; [lra |]. split; [right; lra |]. repeat split; lra.
Qed.

(** ** Export and drawing *)

(** A [map] or [forEach] callback that only reads the cell objects. *)
Lemma map_from_read {B : Type} (f : nat -> nat -> Js nat CellMapping B)
    (g : nat -> CellMapping -> B) (refs : list addr) (cells : list CellMapping)
    (i : nat) (m : App.Mem) :
  Forall2 (fun r c => objects m !! r = Some c) refs cells ->
  (forall r c k, objects m !! r = Some c -> f r k m = Some (g k c, m)) ->
  map_from i f refs m = Some (imap (fun k => g (i + k)%nat) cells, m).
Proof.
  intros H Hf. revert i. induction H as [| r c refs cells Hr _ IH]; intros i.
  - reflexivity.
  - cbn [map_from]. unfold bind at 1. rewrite (Hf r c i Hr).
    unfold bind at 1. rewrite IH. unfold ret. cbn [imap].
    rewrite Nat.add_0_r. do 3 f_equal.
    apply imap_ext. intros k c' _. cbn. f_equal. lia.
Qed.

Lemma downloadImage_spec (st : App.State) (m : App.Mem) (refs : list addr)
    (cells : list CellMapping) :
  holds_cells m (App.mapping st) refs cells ->
  let cell := imageUtils.getCellRect (rect (App.gridConfig st)) (size (App.gridConfig st)) in
  AppExport.downloadImage true true st m
  = Some (Canvas2D.drawImage 0 0
            :: imap (fun i c => blit (cell (originalPos c)) (cell i)) cells, m).
Proof.
  intros (Harr & _ & Hcells) cell.
  unfold AppExport.downloadImage. cbn [negb].
  unfold bind at 1, array_elems at 1. rewrite Harr.
  unfold bind at 1.
  erewrite (map_from_read _ (fun i c => blit (cell (originalPos c)) (cell i)));
    [reflexivity | exact Hcells |].
  intros r c k Hr. unfold bind, object_get. by rewrite Hr.
Qed.

(** X16.  In every state of [App] from the first image on,
    [downloadImage] (image and context present) succeeds, leaves the
    memory as it was, and draws the whole image followed by one cell-sized
    copy per mapping entry, in index order: entry [i] copies the rectangle
    of cell [originalPos] onto the rectangle of cell [i].  The targets are
    the cells [0 .. size * size - 1] in order, and the sources are a
    permutation of them: every cell of the region is written once and read
    once. *)
Theorem export_copies_each_cell_once (st : App.State) (m : App.Mem) :
  app_reachable st m ->
  let n := (size_nat (size (App.gridConfig st))
            * size_nat (size (App.gridConfig st)))%nat in
  let cell := imageUtils.getCellRect (rect (App.gridConfig st)) (size (App.gridConfig st)) in
  exists refs cells,
    holds_cells m (App.mapping st) refs cells
    /\ AppExport.downloadImage true true st m
       = Some (Canvas2D.drawImage 0 0
                 :: imap (fun i c => blit (cell (originalPos c)) (cell i)) cells, m)
    /\ imap (fun i _ => cell i) cells = map cell (seq 0 n)
    /\ map (fun c => cell (originalPos c)) cells ≡ₚ map cell (seq 0 n).
Proof.
  intros Hreach n cell.
  destruct (app_reachable_inv st m Hreach) as [_ (refs & cells & Hc & Hcur & Hperm)].
  fold n in Hcur, Hperm.
  exists refs, cells. split; [exact Hc |].
  split; [exact (downloadImage_spec st m refs cells Hc) |]. split.
  - assert (Hlen : length cells = n)
      by (by rewrite <- (length_map currentPos), Hcur, length_seq).
    clear -Hlen. rewrite <- Hlen. clear Hlen.
    apply list_eq. intros i. rewrite list_lookup_imap, list_lookup_fmap.
    destruct (cells !! i) as [c |] eqn:Hi; cbn.
    + apply lookup_lt_Some in Hi. by rewrite lookup_seq_lt.
    + apply lookup_ge_None in Hi. by rewrite lookup_seq_ge.
  - rewrite <- Hperm, map_map. done.
Qed.

Lemma board_idle_no_hover (st : BingoBoard.State) :
  board_reachable st ->
  BingoBoard.draggedIdx st = None -> BingoBoard.hoverIdx st = None.
Proof.
  induction 1 as [| canvasRef props st e _ IH | canvasRef props st e _ IH | st _ IH].
  - done.
  - unfold BingoBoard.handlePointerDown. case_match; [discriminate | exact IH].
  - unfold BingoBoard.handlePointerMove.
    destruct (BingoBoard.draggedIdx st) eqn:Hd; [cbn; discriminate | auto].
  - unfold BingoBoard.handlePointerUp. by repeat case_match.
Qed.

Lemma draw_spec (props : BingoBoard.Props) (bst : BingoBoard.State) (a : addr)
    (m : App.Mem) (refs : list addr) (cells : list CellMapping) :
  holds_cells m a refs cells ->
  let cell := imageUtils.getCellRect (BingoBoard.rect props) (BingoBoard.size props) in
  let slot i c :=
    if decide (BingoBoard.draggedIdx bst = Some i)
    then [Canvas2D.fillRect (x (cell i)) (y (cell i)) (width (cell i)) (height (cell i))]
    else if decide (BingoBoard.hoverIdx bst = Some i)
    then [blit (cell (originalPos c)) (cell i);
          Canvas2D.strokeRect (x (cell i) + 3) (y (cell i) + 3)
            (width (cell i) - 6) (height (cell i) - 6)]
    else [blit (cell (originalPos c)) (cell i)] in
  (BingoBoard.draggedIdx bst = None ->
   BingoBoardDraw.draw props a bst m
   = Some (Canvas2D.drawImage 0 0 :: concat (imap slot cells), m))
  /\ (forall d cd, BingoBoard.draggedIdx bst = Some d -> cells !! d = Some cd ->
      BingoBoardDraw.draw props a bst m
      = Some (Canvas2D.drawImage 0 0 :: concat (imap slot cells)
              ++ [Canvas2D.drawImage9
                    (x (cell (originalPos cd))) (y (cell (originalPos cd)))
                    (width (cell d)) (height (cell d))
                    (pos_x (BingoBoard.dragPos bst) - width (cell d) / 2)
                    (pos_y (BingoBoard.dragPos bst) - height (cell d) / 2)
                    (width (cell d)) (height (cell d))], m)).
Proof.
  intros (Harr & _ & Hcells) cell slot.
  assert (Hslot : forall r c k, objects m !! r = Some c ->
    (if decide (BingoBoard.draggedIdx bst = Some k)
     then ret [Canvas2D.fillRect (x (cell k)) (y (cell k)) (width (cell k)) (height (cell k))]
     else bind (object_get r) (fun c' =>
       if decide (BingoBoard.hoverIdx bst = Some k)
       then ret [blit (cell (originalPos c')) (cell k);
                 Canvas2D.strokeRect (x (cell k) + 3) (y (cell k) + 3)
                   (width (cell k) - 6) (height (cell k) - 6)]
       else ret [blit (cell (originalPos c')) (cell k)])) m
    = Some (slot k c, m)).
  { intros r c k Hr. unfold slot. case_decide; [reflexivity |].
    unfold bind, object_get. rewrite Hr. by case_decide. }
  split.
  - intros Hd. unfold BingoBoardDraw.draw.
    unfold bind at 1, array_elems at 1. rewrite Harr.
    unfold bind at 1.
    erewrite (map_from_read _ slot); [| exact Hcells | exact Hslot].
    rewrite Hd. unfold bind, ret. by rewrite app_nil_r.
  - intros d cd Hd Hcd. unfold BingoBoardDraw.draw.
    unfold bind at 1, array_elems at 1. rewrite Harr.
    unfold bind at 1.
    erewrite (map_from_read _ slot); [| exact Hcells | exact Hslot].
    rewrite Hd.
    destruct (Forall2_lookup_r _ _ _ _ _ Hcells Hcd) as (r & Hr & Hor).
    unfold bind at 1. unfold bind at 1, array_get.
    destruct (Z.ltb_spec (Z.of_nat d) 0) as [? | _]; [lia |].
    rewrite Harr, Nat2Z.id, Hr. unfold bind at 1, object_get. rewrite Hor.
    reflexivity.
Qed.

(** ** The board: what it draws *)

Lemma concat_imap_singleton {A B : Type} (f : nat -> A -> B) (l : list A) :
  concat (imap (fun i a => [f i a]) l) = imap f l.
Proof.
  revert f. induction l as [| a l IH]; intros f; [reflexivity |].
  cbn [imap concat app]. f_equal. apply IH.
Qed.

(** X18.  While no drag is in progress, the board draws exactly what
    [downloadImage] exports: in every state of [App] from the first image
    on and every state of the board reachable by pointer events with no
    cell dragged, the effect of [BingoBoard] and [downloadImage] issue the
    same drawing calls, and both succeed. *)
Theorem idle_board_draws_what_export_draws (bst : BingoBoard.State) (ast : App.State)
    (m : App.Mem) :
  board_reachable bst -> BingoBoard.draggedIdx bst = None ->
  app_reachable ast m ->
  BingoBoardDraw.draw (AppBoardEvents.props ast) (App.mapping ast) bst m
  = AppExport.downloadImage true true ast m
  /\ is_Some (AppExport.downloadImage true true ast m).
Proof.
  intros Hboard Hidle Happ.
  pose proof (board_idle_no_hover bst Hboard Hidle) as Hhover.
  destruct (app_reachable_inv ast m Happ) as [_ (refs & cells & Hc & _)].
  destruct (draw_spec (AppBoardEvents.props ast) bst _ m refs cells Hc) as [Hdraw _].
  rewrite (Hdraw Hidle), (downloadImage_spec ast m refs cells Hc).
  split; [| by eexists].
  do 3 f_equal. etransitivity; [| apply concat_imap_singleton]. f_equal.
  apply imap_ext. intros i c _. cbn.
  rewrite Hidle, Hhover. by repeat case_decide.
Qed.

(** X19.  While the cell at index [d] is dragged, the board draws last a
    copy of that cell's image (the rectangle of cell [originalPos]) of
    cell size centred on the drag position; the place of cell [d] itself
    is filled. *)
Theorem dragged_cell_floats_under_pointer (props : BingoBoard.Props)
    (bst : BingoBoard.State) (a : addr) (m : App.Mem) (refs : list addr)
    (cells : list CellMapping) (d : nat) (cd : CellMapping) :
  holds_cells m a refs cells ->
  BingoBoard.draggedIdx bst = Some d -> cells !! d = Some cd ->
  let cell := imageUtils.getCellRect (BingoBoard.rect props) (BingoBoard.size props) in
  exists calls sx sy sw sh dx dy dw dh,
    BingoBoardDraw.draw props a bst m = Some (calls, m)
    /\ last calls = Some (Canvas2D.drawImage9 sx sy sw sh dx dy dw dh)
    /\ {| x := sx; y := sy; width := sw; height := sh |} = cell (originalPos cd)
    /\ dw = width (cell d) /\ dh = height (cell d)
    /\ dx + dw / 2 == pos_x (BingoBoard.dragPos bst)
    /\ dy + dh / 2 == pos_y (BingoBoard.dragPos bst)
    /\ Canvas2D.fillRect (x (cell d)) (y (cell d)) (width (cell d)) (height (cell d)) ∈ calls.
Proof.
  intros Hc Hd Hcd cell.
  destruct (draw_spec props bst a m refs cells Hc) as [_ Hdraw].
  rewrite (Hdraw d cd Hd Hcd). fold cell.
  eexists _, _, _, _, _, _, _, _, _. split; [reflexivity |].
  split; [by rewrite app_comm_cons, last_snoc |].
  split; [reflexivity |]. split; [reflexivity |]. split; [reflexivity |].
  split; [field |]. split; [field |].
  apply elem_of_cons. right. apply elem_of_app. left.
  apply list_elem_of_In, in_concat. eexists. split.
  - apply list_elem_of_In, list_elem_of_lookup. exists d.
    rewrite list_lookup_imap, Hcd. reflexivity.
  - cbn. case_decide; [by left | done].
Qed.

(** ** The region editor inside the app *)

Section EditorInApp.
Variable Math_sqrt : Q -> Q.

(** Contact-begin and contact-end never call [onRectChange]. *)
Lemma down_up_emit_nothing (canvasRef : option Canvas) (rect : Rect)
    (est : GridEditor.State) (e : PointerEvent) :
  snd (GridEditor.handlePointerDown Math_sqrt canvasRef rect est e) = None
  /\ snd (GridEditor.handlePointerUp est e) = None.
Proof.
  split.
  - unfold GridEditor.handlePointerDown. by repeat (case_decide || case_match).
  - unfold GridEditor.handlePointerUp. by repeat case_decide.
Qed.

(** A rectangle handed to [onRectChange] is the old one moved, or has sides
    of at least 40. *)
Lemma move_emits_sized (canvasRef : option Canvas) (rect : Rect)
    (est : GridEditor.State) (e : PointerEvent) (r : Rect) :
  snd (GridEditor.handlePointerMove Math_sqrt canvasRef rect est e) = Some r ->
  (width r = width rect /\ height r = height rect)
  \/ (40 <= width r /\ 40 <= height r).
Proof.
  unfold GridEditor.handlePointerMove.
  repeat case_match; cbn [snd]; try discriminate; intros [= <-]; cbn [width height];
    (by left) || (right; split; apply Math_max_40).
Qed.

Lemma step_keeps_min_size (s : App.State * GridEditor.State) (ev : AppEditor.Event) :
  40 <= width (rect (App.gridConfig (fst s))) ->
  40 <= height (rect (App.gridConfig (fst s))) ->
  let s' := AppEditor.step Math_sqrt s ev in
  40 <= width (rect (App.gridConfig (fst s')))
  /\ 40 <= height (rect (App.gridConfig (fst s')))
  /\ size (App.gridConfig (fst s')) = size (App.gridConfig (fst s))
  /\ App.mapping (fst s') = App.mapping (fst s)
  /\ App.isEditingGrid (fst s') = App.isEditingGrid (fst s).
Proof.
  intros Hw Hh. destruct s as [ast est]. cbn [fst snd] in *.
  destruct ev as [canvasRef e | canvasRef e | e]; cbn [AppEditor.step fst snd].
  - destruct (down_up_emit_nothing canvasRef (rect (App.gridConfig ast)) est e) as [Hn _].
    destruct (GridEditor.handlePointerDown _ _ _ _ _) as [est' o]. cbn in Hn. subst o.
    cbn. auto.
  - pose proof (move_emits_sized canvasRef (rect (App.gridConfig ast)) est e) as Hem.
    destruct (GridEditor.handlePointerMove _ _ _ _ _) as [est' [r |]]; cbn in *; [| auto].
    destruct (Hem r eq_refl) as [[-> ->] | [? ?]]; auto.
  - destruct (down_up_emit_nothing None (rect (App.gridConfig ast)) est e) as [_ Hn].
    destruct (GridEditor.handlePointerUp _ _) as [est' o]. cbn in Hn. subst o.
    cbn. auto.
Qed.

Lemma run_keeps_min_size (evs : list AppEditor.Event) (s : App.State * GridEditor.State) :
  40 <= width (rect (App.gridConfig (fst s))) ->
  40 <= height (rect (App.gridConfig (fst s))) ->
  let s' := AppEditor.run Math_sqrt s evs in
  40 <= width (rect (App.gridConfig (fst s')))
  /\ 40 <= height (rect (App.gridConfig (fst s')))
  /\ size (App.gridConfig (fst s')) = size (App.gridConfig (fst s))
  /\ App.mapping (fst s') = App.mapping (fst s)
  /\ App.isEditingGrid (fst s') = App.isEditingGrid (fst s).
Proof.
  revert s. induction evs as [| ev evs IH]; intros s Hw Hh; [by cbn |].
  cbn zeta. unfold AppEditor.run. cbn [fold_left].
  destruct (step_keeps_min_size s ev Hw Hh) as (Hw' & Hh' & Hs & Hm & He).
  destruct (IH _ Hw' Hh') as (? & ? & ? & ? & ?).
  repeat split; try done; unfold AppEditor.run in *; congruence.
Qed.

End EditorInApp.

(** X9.  Inside [App], whose [onRectChange] stores the rectangle the
    editor hands over: if the rectangle is at least 40 wide and 40 high,
    it still is after any sequence of contact-begin, contact-move and
    contact-end events on the editor, from any editor state; the events
    change neither the grid size, nor the mapping, nor the editing
    flag. *)
Theorem editor_keeps_min_size (Math_sqrt : Q -> Q) (ast : App.State)
    (est : GridEditor.State) (evs : list AppEditor.Event) :
  40 <= width (rect (App.gridConfig ast)) ->
  40 <= height (rect (App.gridConfig ast)) ->
  let ast' := fst (AppEditor.run Math_sqrt (ast, est) evs) in
  40 <= width (rect (App.gridConfig ast'))
  /\ 40 <= height (rect (App.gridConfig ast'))
  /\ size (App.gridConfig ast') = size (App.gridConfig ast)
  /\ App.mapping ast' = App.mapping ast
  /\ App.isEditingGrid ast' = App.isEditingGrid ast.
Proof.
  intros Hw Hh. exact (run_keeps_min_size Math_sqrt evs (ast, est) Hw Hh).
Qed.

Section EditorGestures.
Variable Math_sqrt : Q -> Q.

Lemma following_move_step (id : Z) (ast : App.State) (est : GridEditor.State)
    (canvasRef : option Canvas) (e : PointerEvent) :
  following GridEditor.move id est -> pointerId e = id ->
  let pos := getCanvasMousePos canvasRef (clientX e) (clientY e) in
  let s' := AppEditor.step Math_sqrt (ast, est) (AppEditor.contact_move canvasRef e) in
  let r := rect (App.gridConfig ast) in
  let r' := rect (App.gridConfig (fst s')) in
  following GridEditor.move id (snd s')
  /\ GridEditor.startPos (snd s') = pos
  /\ x r' = x r + (pos_x pos - pos_x (GridEditor.startPos est))
  /\ y r' = y r + (pos_y pos - pos_y (GridEditor.startPos est))
  /\ width r' = width r /\ height r' = height r.
Proof.
  intros (Hmode & Hdrag & p & Hact) Hid pos.
  cbn [AppEditor.step fst snd]. unfold GridEditor.handlePointerMove. fold pos.
  rewrite Hact, Hid, Hmode, Hdrag. cbn [GridEditor.Map_has GridEditor.Map_set].
  destruct (decide (id = id)) as [_ | ?]; [| done].
  cbn. repeat split; eauto.
Qed.

Lemma following_resize_step (id : Z) (ast : App.State) (est : GridEditor.State)
    (canvasRef : option Canvas) (e : PointerEvent) :
  following GridEditor.resize_br id est -> pointerId e = id ->
  let pos := getCanvasMousePos canvasRef (clientX e) (clientY e) in
  let s' := AppEditor.step Math_sqrt (ast, est) (AppEditor.contact_move canvasRef e) in
  let r := rect (App.gridConfig ast) in
  let r' := rect (App.gridConfig (fst s')) in
  following GridEditor.resize_br id (snd s')
  /\ GridEditor.startPos (snd s') = pos
  /\ x r' = x r /\ y r' = y r
  /\ width r' = Qmax 40 (width r + (pos_x pos - pos_x (GridEditor.startPos est)))
  /\ height r' = Qmax 40 (height r + (pos_y pos - pos_y (GridEditor.startPos est))).
Proof.
  intros (Hmode & Hdrag & p & Hact) Hid pos.
  cbn [AppEditor.step fst snd]. unfold GridEditor.handlePointerMove. fold pos.
  rewrite Hact, Hid, Hmode, Hdrag. cbn [GridEditor.Map_has GridEditor.Map_set].
  destruct (decide (id = id)) as [_ | ?]; [| done].
  cbn. repeat split; eauto.
Qed.

Lemma run_cons (s : App.State * GridEditor.State) (ev : AppEditor.Event)
    (evs : list AppEditor.Event) :
  AppEditor.run Math_sqrt s (ev :: evs)
  = AppEditor.run Math_sqrt (AppEditor.step Math_sqrt s ev) evs.
Proof. reflexivity. Qed.

Lemma moves_follow_pointer (id : Z) (evs : list AppEditor.Event)
    (ast : App.State) (est : GridEditor.State) :
  following GridEditor.move id est ->
  Forall (is_move_of id) evs ->
  let s' := AppEditor.run Math_sqrt (ast, est) evs in
  let r := rect (App.gridConfig ast) in
  let r' := rect (App.gridConfig (fst s')) in
  following GridEditor.move id (snd s')
  /\ x r' - pos_x (GridEditor.startPos (snd s')) == x r - pos_x (GridEditor.startPos est)
  /\ y r' - pos_y (GridEditor.startPos (snd s')) == y r - pos_y (GridEditor.startPos est)
  /\ width r' = width r /\ height r' = height r.
Proof.
  intros Hf Hevs. revert ast est Hf.
  induction Hevs as [| ev evs (canvasRef & e & -> & Hid) _ IH]; intros ast est Hf.
  - cbn. split; [exact Hf |]. split; [reflexivity |]. split; [reflexivity |]. done.
  - cbn zeta. rewrite run_cons.
    destruct (following_move_step id ast est canvasRef e Hf Hid)
      as (Hf' & Hstart & Hx & Hy & Hw & Hh).
    destruct (AppEditor.step Math_sqrt (ast, est) _) as [ast1 est1] eqn:Hstep.
    cbn [fst snd] in *.
    destruct (IH ast1 est1 Hf') as (Hf2 & Hx2 & Hy2 & Hw2 & Hh2).
    split; [exact Hf2 |].
    rewrite Hx2, Hy2, Hw2, Hh2, Hx, Hy, Hw, Hh, Hstart.
    split; [ring |]. split; [ring |]. done.
Qed.

Lemma resizes_keep_corner (id : Z) (evs : list AppEditor.Event)
    (ast : App.State) (est : GridEditor.State) :
  following GridEditor.resize_br id est ->
  Forall (is_move_of id) evs ->
  let s' := AppEditor.run Math_sqrt (ast, est) evs in
  following GridEditor.resize_br id (snd s')
  /\ x (rect (App.gridConfig (fst s'))) = x (rect (App.gridConfig ast))
  /\ y (rect (App.gridConfig (fst s'))) = y (rect (App.gridConfig ast)).
Proof.
  intros Hf Hevs. revert ast est Hf.
  induction Hevs as [| ev evs (canvasRef & e & -> & Hid) _ IH]; intros ast est Hf.
  - by cbn.
  - cbn zeta. rewrite run_cons.
    destruct (following_resize_step id ast est canvasRef e Hf Hid)
      as (Hf' & _ & Hx & Hy & _).
    destruct (AppEditor.step Math_sqrt (ast, est) _) as [ast1 est1] eqn:Hstep.
    cbn [fst snd] in *.
    destruct (IH ast1 est1 Hf') as (Hf2 & Hx2 & Hy2).
    split; [exact Hf2 |]. split; congruence.
Qed.

(** In pinch mode a contact-move keeps the mode and the midpoint. *)
Lemma pinch_step_keeps_centre (ast : App.State) (est : GridEditor.State)
    (canvasRef : option Canvas) (e : PointerEvent) :
  GridEditor.dragMode est = Some GridEditor.pinch ->
  let s' := AppEditor.step Math_sqrt (ast, est) (AppEditor.contact_move canvasRef e) in
  let r := rect (App.gridConfig ast) in
  let r' := rect (App.gridConfig (fst s')) in
  GridEditor.dragMode (snd s') = Some GridEditor.pinch
  /\ x r' + width r' / 2 == x r + width r / 2
  /\ y r' + height r' / 2 == y r + height r / 2.
Proof.
  intros Hmode. cbn [AppEditor.step fst snd].
  unfold GridEditor.handlePointerMove. rewrite Hmode.
  repeat case_match; cbn; (split; [done |]); split; reflexivity || field.
Qed.

Lemma pinches_keep_centre (evs : list AppEditor.Event)
    (ast : App.State) (est : GridEditor.State) :
  GridEditor.dragMode est = Some GridEditor.pinch ->
  Forall is_move evs ->
  let s' := AppEditor.run Math_sqrt (ast, est) evs in
  let r := rect (App.gridConfig ast) in
  let r' := rect (App.gridConfig (fst s')) in
  GridEditor.dragMode (snd s') = Some GridEditor.pinch
  /\ x r' + width r' / 2 == x r + width r / 2
  /\ y r' + height r' / 2 == y r + height r / 2.
Proof.
  intros Hmode Hevs. revert ast est Hmode.
  induction Hevs as [| ev evs (canvasRef & e & ->) _ IH]; intros ast est Hmode.
  - cbn. by repeat split.
  - cbn zeta. rewrite run_cons.
    destruct (pinch_step_keeps_centre ast est canvasRef e Hmode) as (Hmode' & Hx & Hy).
    destruct (AppEditor.step Math_sqrt (ast, est) _) as [ast1 est1] eqn:Hstep.
    cbn [fst snd] in *.
    destruct (IH ast1 est1 Hmode') as (Hmode2 & Hx2 & Hy2).
    split; [exact Hmode2 |]. split; [by rewrite Hx2 | by rewrite Hy2].
Qed.

(** Without a gesture mode, moves and ends change neither the mode nor
    anything of the app. *)
Lemma idle_until_begin (evs : list AppEditor.Event)
    (ast : App.State) (est : GridEditor.State) :
  GridEditor.dragMode est = None ->
  Forall no_begin evs ->
  fst (AppEditor.run Math_sqrt (ast, est) evs) = ast
  /\ GridEditor.dragMode (snd (AppEditor.run Math_sqrt (ast, est) evs)) = None.
Proof.
  intros Hmode Hevs. revert est Hmode.
  induction Hevs as [| ev evs Hev _ IH]; intros est Hmode; [done |].
  rewrite run_cons.
  assert (Hstep : fst (AppEditor.step Math_sqrt (ast, est) ev) = ast
                  /\ GridEditor.dragMode (snd (AppEditor.step Math_sqrt (ast, est) ev)) = None).
  { destruct ev as [canvasRef e | canvasRef e | e]; cbn [AppEditor.step fst snd].
    - by destruct (Hev canvasRef e).
    - unfold GridEditor.handlePointerMove. rewrite Hmode.
      by repeat case_match.
    - unfold GridEditor.handlePointerUp. rewrite Hmode. by repeat case_decide. }
  destruct (AppEditor.step Math_sqrt (ast, est) ev) as [ast1 est1].
  cbn [fst snd] in Hstep. destruct Hstep as [-> Hmode1]. by apply IH.
Qed.

End EditorGestures.

(** X10.  While the editor follows a single contact in move mode, any
    sequence of moves of that contact keeps the editor in that mode, keeps
    the offset between the rectangle's corner and the pointer (the
    rectangle moves by what the pointer moved in total), and keeps width
    and height. *)
Theorem move_gesture_follows_pointer (Math_sqrt : Q -> Q) (id : Z)
    (evs : list AppEditor.Event) (ast : App.State) (est : GridEditor.State) :
  following GridEditor.move id est ->
  Forall (is_move_of id) evs ->
  let s' := AppEditor.run Math_sqrt (ast, est) evs in
  let r := rect (App.gridConfig ast) in
  let r' := rect (App.gridConfig (fst s')) in
  following GridEditor.move id (snd s')
  /\ x r' - pos_x (GridEditor.startPos (snd s')) == x r - pos_x (GridEditor.startPos est)
  /\ y r' - pos_y (GridEditor.startPos (snd s')) == y r - pos_y (GridEditor.startPos est)
  /\ width r' = width r /\ height r' = height r.
Proof. apply moves_follow_pointer. Qed.

(** X11.  During a resize gesture (moves of the single contact the
    editor follows) the top-left corner of the rectangle stays where it
    was; during a pinch, moves of any contacts keep the centre of the
    rectangle where it was. *)
Theorem resize_fixes_corner_pinch_fixes_centre (Math_sqrt : Q -> Q)
    (evs : list AppEditor.Event) (ast : App.State) (est : GridEditor.State) :
  let s' := AppEditor.run Math_sqrt (ast, est) evs in
  let r := rect (App.gridConfig ast) in
  let r' := rect (App.gridConfig (fst s')) in
  (forall id, following GridEditor.resize_br id est -> Forall (is_move_of id) evs ->
     x r' = x r /\ y r' = y r)
  /\ (GridEditor.dragMode est = Some GridEditor.pinch -> Forall is_move evs ->
      x r' + width r' / 2 == x r + width r / 2
      /\ y r' + height r' / 2 == y r + height r / 2).
Proof.
  cbn zeta. split.
  - intros id Hf Hevs.
    by destruct (resizes_keep_corner Math_sqrt id evs ast est Hf Hevs) as (_ & ? & ?).
  - intros Hmode Hevs.
    by destruct (pinches_keep_centre Math_sqrt evs ast est Hmode Hevs) as (_ & ? & ?).
Qed.

(** ** The active contacts of the editor *)

Lemma Map_has_keys (m : GridEditor.PointerMap) (k : Z) :
  GridEditor.Map_has m k = true <-> k ∈ Map_keys m.
Proof.
  unfold Map_keys. induction m as [| [k' v'] m IH]; cbn.
  - split; [discriminate | intros H; by apply elem_of_nil in H].
  - rewrite elem_of_cons. case_decide as Hk.
    + split; [intros _; by left | done].
    + rewrite IH. split; [by right | intros [-> | Hin]; [by destruct Hk | done]].
Qed.

Lemma Map_set_keys (m : GridEditor.PointerMap) (k : Z) (v : Pos) :
  Map_keys (GridEditor.Map_set m k v)
  = if GridEditor.Map_has m k then Map_keys m else Map_keys m ++ [k].
Proof.
  unfold Map_keys. induction m as [| [k' v'] m IH]; cbn; [done |].
  case_decide; cbn; [by subst |]. rewrite IH. by destruct (GridEditor.Map_has m k).
Qed.

Lemma Map_delete_keys (m : GridEditor.PointerMap) (k : Z) :
  NoDup (Map_keys m) ->
  NoDup (Map_keys (GridEditor.Map_delete m k))
  /\ (k ∉ Map_keys (GridEditor.Map_delete m k))
  /\ (forall k', k' <> k ->
        (k' ∈ Map_keys (GridEditor.Map_delete m k)) <-> (k' ∈ Map_keys m)).
Proof.
  unfold Map_keys. induction m as [| [k' v'] m IH]; cbn; intros Hnd.
  - split; [constructor |]. split; [apply not_elem_of_nil | done].
  - apply NoDup_cons in Hnd as [Hk' Hnd]. case_decide as Hk.
    + subst k'. split; [done |]. split; [done |].
      intros k'' Hne. rewrite elem_of_cons. intuition congruence.
    + destruct (IH Hnd) as (IH1 & IH2 & IH3). cbn. split; [| split].
      * apply NoDup_cons. split; [| done]. intros Hin. apply Hk'.
        by apply (IH3 k').
      * rewrite elem_of_cons. intuition congruence.
      * intros k'' Hne. rewrite !elem_of_cons, (IH3 k'' Hne). done.
Qed.

Lemma Map_set_lookup (m : GridEditor.PointerMap) (k : Z) (v : Pos) :
  (k, v) ∈ GridEditor.Map_set m k v.
Proof.
  induction m as [| [k' v'] m IH]; cbn; [apply list_elem_of_singleton; done |].
  case_decide; apply elem_of_cons; [by left | by right].
Qed.

Lemma editor_keys_distinct (Math_sqrt : Q -> Q) (est : GridEditor.State) :
  editor_reachable Math_sqrt est -> NoDup (Map_keys (GridEditor.activePointers est)).
Proof.
  assert (Hset : forall m k v, NoDup (Map_keys m) ->
            NoDup (Map_keys (GridEditor.Map_set m k v))).
  { intros m k v Hnd. rewrite Map_set_keys.
    destruct (GridEditor.Map_has m k) eqn:Hhas; [done |].
    apply NoDup_app. split; [done |]. split; [| apply NoDup_singleton].
    intros k' Hin Hk'. apply list_elem_of_singleton in Hk'. subst k'.
    apply (proj2 (Map_has_keys _ _)) in Hin. congruence. }
  induction 1 as [| canvasRef rect st e _ IH | canvasRef rect st e _ IH | st e _ IH].
  - constructor.
  - unfold GridEditor.handlePointerDown.
    repeat (case_decide || case_match); cbn; by apply Hset.
  - unfold GridEditor.handlePointerMove.
    repeat case_match; cbn; done || by apply Hset.
  - unfold GridEditor.handlePointerUp.
    repeat case_decide; cbn; by apply Map_delete_keys.
Qed.

(** X12.  After a contact-end the editor (in any state reachable by
    pointer events) no longer tracks that contact and tracks the others as
    before; a later move of that contact is ignored; and when no contact
    is left, the gesture mode, the dragging flag and the pinch baselines
    are all cleared. *)
Theorem ended_contact_is_forgotten (Math_sqrt : Q -> Q) (est : GridEditor.State)
    (e : PointerEvent) :
  editor_reachable Math_sqrt est ->
  let est' := fst (GridEditor.handlePointerUp est e) in
  GridEditor.Map_has (GridEditor.activePointers est') (pointerId e) = false
  /\ (forall k, k <> pointerId e ->
        GridEditor.Map_has (GridEditor.activePointers est') k
        = GridEditor.Map_has (GridEditor.activePointers est) k)
  /\ (forall canvasRef rect e', pointerId e' = pointerId e ->
        GridEditor.handlePointerMove Math_sqrt canvasRef rect est' e' = (est', None))
  /\ (GridEditor.activePointers est' = [] ->
        GridEditor.dragMode est' = None /\ GridEditor.isDragging est' = false
        /\ GridEditor.initialPinchDist est' = None
        /\ GridEditor.initialRectSize est' = None).
Proof.
  intros Hreach est'.
  pose proof (editor_keys_distinct Math_sqrt est Hreach) as Hnd.
  destruct (Map_delete_keys (GridEditor.activePointers est) (pointerId e) Hnd)
    as (_ & Hgone & Hrest).
  assert (Hact : GridEditor.activePointers est'
                 = GridEditor.Map_delete (GridEditor.activePointers est) (pointerId e)).
  { subst est'. unfold GridEditor.handlePointerUp. by repeat case_decide. }
  assert (Hhas : GridEditor.Map_has (GridEditor.activePointers est') (pointerId e) = false).
  { rewrite Hact.
    destruct (GridEditor.Map_has
                (GridEditor.Map_delete (GridEditor.activePointers est) (pointerId e))
                (pointerId e)) eqn:Hh; [| done].
    apply (proj1 (Map_has_keys _ _)) in Hh. contradiction. }
  split; [exact Hhas |]. split; [| split].
  - intros k Hk. rewrite Hact.
    destruct (GridEditor.Map_has (GridEditor.activePointers est) k) eqn:Hh.
    + apply (proj2 (Map_has_keys _ _)), (proj2 (Hrest k Hk)).
      by apply (proj1 (Map_has_keys _ _)).
    + destruct (GridEditor.Map_has
                  (GridEditor.Map_delete (GridEditor.activePointers est) (pointerId e)) k)
        eqn:Hh'; [| done].
      apply (proj1 (Map_has_keys _ _)), (proj1 (Hrest k Hk)) in Hh'.
      apply (proj2 (Map_has_keys _ _)) in Hh'. congruence.
  - intros canvasRef rect e' Hid. unfold GridEditor.handlePointerMove.
    by rewrite Hid, Hhas.
  - subst est'. unfold GridEditor.handlePointerUp.
    case_decide as Hsize; [done |].
    intros Hnil. exfalso. apply Hsize.
    revert Hnil. repeat case_decide; cbn; intros ->; done.
Qed.

(** X13.  When a contact-end leaves at most one contact, the gesture is
    over: whatever moves and contact-ends follow, the rectangle (the whole
    [App] state) does not change and the gesture mode stays none until the
    next contact-begin. *)
Theorem no_gesture_until_next_begin (Math_sqrt : Q -> Q) (ast : App.State)
    (est : GridEditor.State) (e : PointerEvent) (evs : list AppEditor.Event) :
  (GridEditor.Map_size (GridEditor.Map_delete (GridEditor.activePointers est) (pointerId e))
   <= 1)%nat ->
  Forall no_begin evs ->
  let s' := AppEditor.run Math_sqrt (ast, est) (AppEditor.contact_end e :: evs) in
  fst s' = ast /\ GridEditor.dragMode (snd s') = None.
Proof.
  intros Hsize Hevs. cbn zeta. rewrite run_cons.
  cbn [AppEditor.step fst snd].
  assert (Hup : exists est1, GridEditor.handlePointerUp est e = (est1, None)
                             /\ GridEditor.dragMode est1 = None).
  { unfold GridEditor.handlePointerUp. repeat case_decide; eauto. lia. }
  destruct Hup as (est1 & -> & Hmode). cbn [AppEditor.deliver].
  by apply idle_until_begin.
Qed.

(** ** Pinch *)

(** X14.  A second contact turns a one-contact gesture into a pinch: the
    contact-begin itself changes no rectangle and records the distance of
    the two contacts and the rectangle's size as baselines; a move of the
    new contact to where it began (the distance being non-zero and the
    rectangle at least 40 x 40) hands over a rectangle equal to the
    current one. *)
Theorem pinch_start_does_not_jump (Math_sqrt : Q -> Q) (ast : App.State)
    (est : GridEditor.State) (id0 : Z) (p0 : Pos)
    (canvasRef : option Canvas) (e : PointerEvent) :
  GridEditor.activePointers est = [(id0, p0)] ->
  pointerId e <> id0 ->
  let pos := getCanvasMousePos canvasRef (clientX e) (clientY e) in
  let r := rect (App.gridConfig ast) in
  let s1 := AppEditor.step Math_sqrt (ast, est) (AppEditor.contact_begin canvasRef e) in
  let s2 := AppEditor.step Math_sqrt s1 (AppEditor.contact_move canvasRef e) in
  (fst s1 = ast
   /\ GridEditor.dragMode (snd s1) = Some GridEditor.pinch
   /\ GridEditor.isDragging (snd s1) = true
   /\ GridEditor.activePointers (snd s1) = [(id0, p0); (pointerId e, pos)]
   /\ GridEditor.initialPinchDist (snd s1) = Some (GridEditor.getDistance Math_sqrt p0 pos)
   /\ GridEditor.initialRectSize (snd s1) = Some (width r, height r))
  /\ (40 <= width r -> 40 <= height r ->
      ~ GridEditor.getDistance Math_sqrt p0 pos == 0 ->
      let r2 := rect (App.gridConfig (fst s2)) in
      x r2 == x r /\ y r2 == y r /\ width r2 == width r /\ height r2 == height r).
Proof.
  intros Hact Hid pos r.
  cbn [AppEditor.step fst snd]. unfold GridEditor.handlePointerDown. fold pos r.
  rewrite Hact. cbn [GridEditor.Map_set].
  destruct (decide (id0 = pointerId e)) as [? | _]; [by subst |].
  cbn [GridEditor.Map_size length GridEditor.Map_values map snd].
  destruct (decide (2%nat = 1%nat)) as [? | _]; [lia |].
  destruct (decide (2%nat = 2%nat)) as [_ | ?]; [| lia].
  cbn [AppEditor.deliver fst snd].
  split; [by repeat split |].
  intros Hw Hh Hdist.
  unfold GridEditor.handlePointerMove. fold pos r.
  cbn [GridEditor.activePointers GridEditor.isDragging GridEditor.dragMode
       GridEditor.initialPinchDist GridEditor.initialRectSize GridEditor.startPos
       GridEditor.Map_has GridEditor.Map_set].
  destruct (decide (id0 = pointerId e)) as [? | _]; [by subst |].
  destruct (decide (pointerId e = pointerId e)) as [_ | ?]; [| done].
  cbn [negb GridEditor.Map_size length GridEditor.Map_values map snd].
  assert (Number.truthy (GridEditor.getDistance Math_sqrt p0 pos) = true) as ->.
  { unfold Number.truthy. apply negb_true_iff.
    destruct (Qeq_bool _ 0) eqn:E; [| done]. apply Qeq_bool_iff in E. contradiction. }
  cbn [AppEditor.deliver fst snd App.onRectChange App.setGridConfig App.gridConfig
       rect x y width height].
  set (d := GridEditor.getDistance Math_sqrt p0 pos) in *.
  assert (Hscale : d / d == 1) by (by field).
  unfold Number.Math_max.
  assert (HW : Qmax 40 (width r * (d / d)) == width r).
  { rewrite Hscale, Qmult_1_r. by apply Q.max_r. }
  assert (HH : Qmax 40 (height r * (d / d)) == height r).
  { rewrite Hscale, Qmult_1_r. by apply Q.max_r. }
  rewrite HW, HH. repeat split; try reflexivity; field.
Qed.

(** ** Pointer positions *)


(** ** Hit-testing the cells *)

Lemma cell_at_Some (props : BingoBoard.Props) (pos : Pos) (i : nat) :
  let n := size_nat (BingoBoard.size props) in
  let cell := imageUtils.getCellRect (BingoBoard.rect props) (BingoBoard.size props) in
  BingoBoard.cell_at props pos = Some i <->
  (i < n * n)%nat /\ inside (pos_x pos) (pos_y pos) (cell i)
  /\ forall j, (j < i)%nat -> ~ inside (pos_x pos) (pos_y pos) (cell j).
Proof.
  intros n cell. unfold BingoBoard.cell_at. rewrite find_seq_first.
  fold n cell. rewrite isPointInRect_inside.
  split; intros (H1 & H2 & H3); (split; [lia |]); (split; [exact H2 |]); intros j Hj.
  - intros Hin. apply isPointInRect_inside in Hin. rewrite H3 in Hin by lia. discriminate.
  - destruct (imageUtils.isPointInRect _ _ _) eqn:E; [| done].
    apply isPointInRect_inside in E. destruct (H3 j); [lia | done].
Qed.

(** ** Drag and drop on the board *)

Lemma cell_at_in_range (props : BingoBoard.Props) (pos : Pos) (i : nat) :
  BingoBoard.cell_at props pos = Some i ->
  (i < size_nat (BingoBoard.size props) * size_nat (BingoBoard.size props))%nat.
Proof. intros H. by apply cell_at_Some in H as (? & _). Qed.

(** X20.  A drag from a position found in cell [a] to a position found
    in another cell [b], then contact-end, on the board inside [App] (any
    state from the first image on, any board state): the run succeeds, the
    entries [a] and [b] of the mapping have exchanged their [originalPos]
    and every other entry is as before, the grid configuration is
    unchanged, drag and hover are cleared, and the state reached is again
    one of [App]'s. *)
Theorem drag_and_drop_swaps (bst : BingoBoard.State) (ast : App.State) (m : App.Mem)
    (c1 c2 : option Canvas) (e1 e2 : PointerEvent) (a b : nat) :
  app_reachable ast m ->
  let pos1 := getCanvasMousePos c1 (clientX e1) (clientY e1) in
  let pos2 := getCanvasMousePos c2 (clientX e2) (clientY e2) in
  BingoBoard.cell_at (AppBoardEvents.props ast) pos1 = Some a ->
  BingoBoard.cell_at (AppBoardEvents.props ast) pos2 = Some b ->
  a <> b ->
  exists bst' ast' m' refs cells ca cb,
    holds_cells m (App.mapping ast) refs cells
    /\ cells !! a = Some ca /\ cells !! b = Some cb
    /\ AppBoardEvents.run (bst, ast)
         [AppBoardEvents.contact_begin c1 e1; AppBoardEvents.contact_move c2 e2;
          AppBoardEvents.contact_end] m = Some ((bst', ast'), m')
    /\ BingoBoard.draggedIdx bst' = None /\ BingoBoard.hoverIdx bst' = None
    /\ App.gridConfig ast' = App.gridConfig ast
    /\ holds_cells m' (App.mapping ast') refs
         (<[b := {| currentPos := b; originalPos := originalPos ca |}]>
            (<[a := {| currentPos := a; originalPos := originalPos cb |}]> cells))
    /\ app_reachable ast' m'.
Proof.
  intros Happ pos1 pos2 Ha Hb Hab.
  destruct (app_reachable_inv ast m Happ) as [_ (refs & cells & Hc & Hcur & _)].
  assert (Hlen : length cells
                 = (size_nat (size (App.gridConfig ast))
                    * size_nat (size (App.gridConfig ast)))%nat)
    by (by rewrite <- (length_map currentPos), Hcur, length_seq).
  pose proof (cell_at_in_range _ _ _ Ha) as Hra.
  pose proof (cell_at_in_range _ _ _ Hb) as Hrb.
  cbn [AppBoardEvents.props BingoBoard.size] in Hra, Hrb.
  destruct (lookup_lt_is_Some_2 cells a ltac:(lia)) as [ca Hca].
  destruct (lookup_lt_is_Some_2 cells b ltac:(lia)) as [cb Hcb].
  assert (Hpos : forall i c, cells !! i = Some c -> currentPos c = i).
  { intros i c Hi.
    assert (map currentPos cells !! i = Some (currentPos c)) as Hl
      by (by rewrite list_lookup_fmap, Hi).
    rewrite Hcur in Hl. apply lookup_seq in Hl. lia. }
  destruct (handleSwap_spec ast m refs cells a b ca cb Hc Hca Hcb)
    as (m' & Hrun & Hc' & _).
  eexists _, _, m', refs, cells, ca, cb.
  split; [exact Hc |]. split; [exact Hca |]. split; [exact Hcb |].
  split.
  { cbn [AppBoardEvents.run AppBoardEvents.step fst snd]. unfold bind at 1, ret at 1.
    unfold bind at 1, ret at 1. cbn [fst snd].
    unfold BingoBoard.handlePointerDown. fold pos1. rewrite Ha.
    unfold BingoBoard.handlePointerMove. cbn [BingoBoard.draggedIdx]. fold pos2. rewrite Hb.
    unfold bind at 1, AppBoard.pointerUp, BingoBoard.handlePointerUp.
    cbn [BingoBoard.draggedIdx BingoBoard.hoverIdx].
    destruct (decide (a = b)) as [? | _]; [done |].
    unfold bind at 1. rewrite Hrun. reflexivity. }
  split; [done |]. split; [done |]. split; [done |]. split.
  - unfold App.set_originalPos in Hc'.
    by rewrite (Hpos _ _ Hca), (Hpos _ _ Hcb) in Hc'.
  - eapply app_swap; [exact Happ | exact Hrun].
Qed.

Lemma pointerUp_without_swap (bst : BingoBoard.State) (ast : App.State) (m : App.Mem) :
  BingoBoard.draggedIdx bst = None \/ BingoBoard.hoverIdx bst = None
  \/ BingoBoard.draggedIdx bst = BingoBoard.hoverIdx bst ->
  AppBoard.pointerUp bst ast m
  = Some (({| BingoBoard.draggedIdx := None; BingoBoard.hoverIdx := None;
              BingoBoard.dragPos := BingoBoard.dragPos bst |}, ast), m).
Proof.
  intros H. unfold AppBoard.pointerUp, BingoBoard.handlePointerUp.
  destruct (BingoBoard.draggedIdx bst) as [d |], (BingoBoard.hoverIdx bst) as [h |];
    try reflexivity.
  destruct (decide (d = h)) as [_ | Hne]; [reflexivity |].
  destruct H as [[=] | [[=] | [= ->]]]. by destruct Hne.
Qed.

(** X21.  A drag that ends outside every cell, or on the cell it began
    on, or a press and release with no move in between (on a board with no
    drag in progress), changes neither the state of [App] nor the memory,
    and clears drag and hover. *)
Theorem cancelled_drags_change_nothing (bst : BingoBoard.State) (ast : App.State)
    (m : App.Mem) (c1 c2 : option Canvas) (e1 e2 : PointerEvent) :
  let pos1 := getCanvasMousePos c1 (clientX e1) (clientY e1) in
  let pos2 := getCanvasMousePos c2 (clientX e2) (clientY e2) in
  let gesture :=
    [AppBoardEvents.contact_begin c1 e1; AppBoardEvents.contact_move c2 e2;
     AppBoardEvents.contact_end] in
  let unchanged r :=
    exists bst', r = Some ((bst', ast), m)
      /\ BingoBoard.draggedIdx bst' = None /\ BingoBoard.hoverIdx bst' = None in
  (BingoBoard.cell_at (AppBoardEvents.props ast) pos2 = None ->
   unchanged (AppBoardEvents.run (bst, ast) gesture m))
  /\ (forall a, BingoBoard.cell_at (AppBoardEvents.props ast) pos1 = Some a ->
        BingoBoard.cell_at (AppBoardEvents.props ast) pos2 = Some a ->
        unchanged (AppBoardEvents.run (bst, ast) gesture m))
  /\ (board_reachable bst -> BingoBoard.draggedIdx bst = None ->
      unchanged (AppBoardEvents.run (bst, ast)
                   [AppBoardEvents.contact_begin c1 e1; AppBoardEvents.contact_end] m)).
Proof.
  intros pos1 pos2 gesture unchanged. subst gesture unchanged. cbn beta.
  split; [| split].
  - intros Hout.
    cbn [AppBoardEvents.run AppBoardEvents.step fst snd]. unfold bind at 1, ret at 1.
    unfold bind at 1, ret at 1. cbn [fst snd]. unfold bind at 1.
    rewrite pointerUp_without_swap; [eexists; split; [reflexivity | done] |].
    unfold BingoBoard.handlePointerMove, BingoBoard.handlePointerDown. fold pos1 pos2.
    rewrite Hout.
    destruct (BingoBoard.cell_at (AppBoardEvents.props ast) pos1) as [a |] eqn:Ha; cbn.
    + by right; left.
    + destruct (BingoBoard.draggedIdx bst) as [d |] eqn:Hd; cbn; [by right; left |].
      rewrite Hd. by left.
  - intros a Ha Hb.
    cbn [AppBoardEvents.run AppBoardEvents.step fst snd]. unfold bind at 1, ret at 1.
    unfold bind at 1, ret at 1. cbn [fst snd]. unfold bind at 1.
    rewrite pointerUp_without_swap; [eexists; split; [reflexivity | done] |].
    unfold BingoBoard.handlePointerMove, BingoBoard.handlePointerDown. fold pos1 pos2.
    rewrite Ha. cbn. rewrite Hb. by right; right.
  - intros Hreach Hidle.
    pose proof (board_idle_no_hover bst Hreach Hidle) as Hhover.
    cbn [AppBoardEvents.run AppBoardEvents.step fst snd]. unfold bind at 1, ret at 1.
    cbn [fst snd]. unfold bind at 1.
    rewrite pointerUp_without_swap; [eexists; split; [reflexivity | done] |].
    unfold BingoBoard.handlePointerDown.
    destruct (BingoBoard.cell_at _ _); cbn; [by right; left | by left].
Qed.

(** ** [shuffleArray]: what it draws, what it can return *)

Section ShuffleMore.
Context {T O : Type}.
Implicit Types (m : Memory T O) (l : list T).

(** X6.  [shuffleArray] on an array of length [n] calls [Math.random]
    exactly [n - 1] times ([Math.random] keeping to its contract) and
    leaves the entropy as it was; on an array of length 0 or 1 it draws
    nothing and returns an equal copy, whatever [Math.random] is. *)
Theorem shuffleArray_draws_length_minus_one m (array : addr) l :
  arrays m !! array = Some l ->
  ((forall d, unit_interval (entropy m d)) ->
   exists (newArr : addr) m',
     imageUtils.shuffleArray array m = Some (newArr, m')
     /\ drawn m' = (drawn m + (length l - 1))%nat
     /\ entropy m' = entropy m)
  /\ ((length l <= 1)%nat ->
      imageUtils.shuffleArray array m
      = Some (length (arrays m), with_arrays m (arrays m ++ [l]))).
Proof.
  intros Harr. split.
  - intros Hent. destruct (shuffleArray_spec m array l Harr Hent) as (l' & -> & _).
    by eexists _, _.
  - intros Hlen.
    unfold imageUtils.shuffleArray, bind, array_elems, new_array, array_length.
    rewrite Harr. js_simpl. rewrite list_lookup_middle by done.
    replace (length l - 1)%nat with 0%nat by lia. reflexivity.
Qed.

Lemma exact_index (j i : nat) :
  (j <= i)%nat ->
  unit_interval (Number.of_nat j / Number.of_nat (i + 1))
  /\ Number.Math_floor (Number.of_nat j / Number.of_nat (i + 1) * Number.of_nat (i + 1))
     = Z.of_nat j.
Proof.
  intros Hji. pose proof (of_nat_pos (i + 1) ltac:(lia)) as Hpos.
  split.
  - split.
    + apply Qle_shift_div_l; [exact Hpos |]. rewrite Qmult_0_l. apply of_nat_nonneg.
    + apply Qlt_shift_div_r; [exact Hpos |]. rewrite Qmult_1_l.
      unfold Number.of_nat. rewrite <- Zlt_Qlt. lia.
  - unfold Number.Math_floor.
    assert (Heq : Number.of_nat j / Number.of_nat (i + 1) * Number.of_nat (i + 1)
                  == Number.of_nat j) by (field; lra).
    rewrite Heq. unfold Number.of_nat. apply Qfloor_Z.
Qed.

Lemma shuffle_step_exact m (newArr : addr) l (i j : nat) :
  arrays m !! newArr = Some l -> (i < length l)%nat -> (j <= i)%nat ->
  Number.Math_floor (entropy m (drawn m) * Number.of_nat (i + 1)) = Z.of_nat j ->
  imageUtils.shuffle_step newArr i m
  = Some (tt, {| arrays := <[newArr := exchange l i j]> (arrays m); objects := objects m;
                 entropy := entropy m; drawn := S (drawn m) |}).
Proof.
  intros Harr Hi Hj Hfloor.
  destruct (lookup_lt_is_Some_2 l j ltac:(lia)) as [vj Hvj].
  destruct (lookup_lt_is_Some_2 l i Hi) as [vi Hvi].
  unfold exchange. rewrite Hvi, Hvj.
  unfold imageUtils.shuffle_step, bind, Math_random, array_get, array_set.
  js_simpl. rewrite Hfloor.
  destruct (Z.ltb_spec (Z.of_nat j) 0) as [? | _]; [lia |].
  rewrite Harr, Nat2Z.id, Hvj. js_simpl.
  destruct (Z.ltb_spec (Z.of_nat i) 0) as [? | _]; [lia |].
  rewrite Harr, Nat2Z.id, Hvi. js_simpl. rewrite Harr.
  destruct (decide (i < length l)%nat) as [_ | ?]; [| lia]. js_simpl.
  rewrite list_lookup_insert_eq by (by apply lookup_lt_Some in Harr).
  rewrite length_insert.
  destruct (decide (j < length l)%nat) as [_ | ?]; [| lia]. js_simpl.
  by rewrite list_insert_insert_eq.
Qed.

Lemma exchange_length l (i j : nat) : length (exchange l i j) = length l.
Proof. unfold exchange. repeat case_match; by rewrite ?length_insert. Qed.

(** The loop run on a tape that picks [choice i] at each [i]. *)
Lemma shuffle_loop_exact (choice : nat -> nat) (K : nat) (k : nat) m (newArr : addr) l :
  arrays m !! newArr = Some l -> (k <= length l - 1)%nat -> (k <= K)%nat ->
  (forall i, (choice i <= i)%nat) ->
  entropy m = tape_of choice K -> drawn m = (K - k)%nat ->
  for_each (rev (seq 1 k)) (imageUtils.shuffle_step newArr) m
  = Some (tt, {| arrays := <[newArr := fisher_yates choice k l]> (arrays m);
                 objects := objects m; entropy := entropy m; drawn := K |}).
Proof.
  revert m l. induction k as [| k IH]; intros m l Harr Hk HK Hchoice Hent Hdrawn.
  - cbn [seq rev for_each fisher_yates]. unfold ret.
    rewrite list_insert_id by done. rewrite Nat.sub_0_r in Hdrawn.
    rewrite <- Hdrawn. by destruct m.
  - rewrite seq_S, rev_unit. cbn [for_each fisher_yates]. unfold bind.
    pose proof (Hchoice (S k)) as Hc.
    assert (Hstep : imageUtils.shuffle_step newArr (1 + k) m
              = Some (tt, {| arrays := <[newArr := exchange l (1 + k) (choice (S k))]> (arrays m);
                             objects := objects m; entropy := entropy m;
                             drawn := S (drawn m) |})).
    { apply shuffle_step_exact; [exact Harr | lia | cbn; lia |].
      rewrite Hent, Hdrawn. unfold tape_of.
      replace (K - (K - S k))%nat with (S k) by lia.
      replace (1 + k + 1)%nat with (S k + 1)%nat by lia.
      apply exact_index. exact Hc. }
    rewrite Hstep.
    rewrite (IH _ (exchange l (1 + k) (choice (S k)))); js_simpl.
    + by rewrite list_insert_insert_eq.
    + apply list_lookup_insert_eq. by apply lookup_lt_Some in Harr.
    + rewrite exchange_length. lia.
    + lia.
    + exact Hchoice.
    + exact Hent.
    + lia.
Qed.

Lemma exchange_lookup l (i j : nat) (vi vj : T) :
  l !! i = Some vi -> l !! j = Some vj ->
  exchange l i j !! i = Some vj
  /\ exchange l i j ≡ₚ l
  /\ (forall n, (i < n)%nat -> (j < n)%nat ->
        take n (exchange l i j) ≡ₚ take n l /\ drop n (exchange l i j) = drop n l).
Proof.
  intros Hi Hj. unfold exchange. rewrite Hi, Hj.
  pose proof (lookup_lt_Some _ _ _ Hi) as Hli.
  pose proof (lookup_lt_Some _ _ _ Hj) as Hlj.
  split; [| split].
  - destruct (decide (i = j)) as [<- | Hne].
    + rewrite list_lookup_insert_eq by (by rewrite length_insert). congruence.
    + rewrite list_lookup_insert_ne by done. by apply list_lookup_insert_eq.
  - by apply exchange_perm.
  - intros n Hin Hjn. split.
    + rewrite !take_insert_lt by done. apply exchange_perm.
      * rewrite lookup_take_lt by done. exact Hi.
      * rewrite lookup_take_lt by done. exact Hj.
    + by rewrite !drop_insert_lt by done.
Qed.

Lemma fisher_yates_ext (c1 c2 : nat -> nat) (k : nat) l :
  (forall i, (1 <= i <= k)%nat -> c1 i = c2 i) ->
  fisher_yates c1 k l = fisher_yates c2 k l.
Proof.
  revert l. induction k as [| k IH]; intros l Hc; [reflexivity |].
  cbn [fisher_yates]. rewrite (Hc (S k)) by lia. apply IH. intros i Hi. apply Hc. lia.
Qed.

(** Every arrangement of the first [k + 1] elements is reached by some
    choice of indices. *)
Lemma fisher_yates_reaches (k : nat) l l' :
  (k < length l)%nat ->
  take (S k) l' ≡ₚ take (S k) l -> drop (S k) l' = drop (S k) l ->
  exists choice : nat -> nat,
    (forall i, (choice i <= i)%nat) /\ fisher_yates choice k l = l'.
Proof.
  revert l l'. induction k as [| k IH]; intros l l' Hk Htake Hdrop.
  - exists (fun _ => 0%nat). split; [intros i; lia |]. cbn [fisher_yates].
    rewrite <- (take_drop 1 l), <- (take_drop 1 l'), Hdrop. f_equal.
    destruct l as [| v l]; [cbn in Hk; lia |].
    cbn in Htake. apply Permutation_singleton_r in Htake. by rewrite Htake.
  - assert (Hlen : length l' = length l).
    { rewrite <- (take_drop (S (S k)) l), <- (take_drop (S (S k)) l'), !length_app.
      by rewrite (Permutation_length Htake), Hdrop. }
    destruct (lookup_lt_is_Some_2 l' (S k) ltac:(lia)) as [v Hv].
    destruct (lookup_lt_is_Some_2 l (S k) Hk) as [vi Hvi].
    assert (Hin : v ∈ take (S (S k)) l).
    { rewrite <- Htake. apply list_elem_of_lookup. exists (S k).
      by rewrite lookup_take_lt by lia. }
    apply list_elem_of_lookup in Hin as [j Hj].
    assert (Hjk : (j < S (S k))%nat).
    { apply lookup_lt_Some in Hj. rewrite length_take in Hj. lia. }
    rewrite lookup_take_lt in Hj by done.
    destruct (exchange_lookup l (S k) j vi v Hvi Hj) as (Hat & _ & Hparts).
    destruct (Hparts (S (S k)) ltac:(lia) Hjk) as [Htake1 Hdrop1].
    set (l1 := exchange l (S k) j) in *.
    destruct (IH l1 l') as (choice & Hchoice & Hfy).
    + subst l1. rewrite exchange_length. lia.
    + apply (Permutation_app_inv_r [v]).
      rewrite <- (take_S_r l' (S k) v Hv), <- (take_S_r l1 (S k) v Hat).
      by rewrite Htake, Htake1.
    + rewrite (drop_S l' v (S k) Hv), (drop_S l1 v (S k) Hat). by rewrite Hdrop, Hdrop1.
    + exists (fun i => if decide (i = S k) then j else choice i). split.
      * intros i. case_decide; [lia | apply Hchoice].
      * cbn [fisher_yates]. destruct (decide (S k = S k)) as [_ | ?]; [| done].
        fold l1. rewrite <- Hfy. apply fisher_yates_ext.
        intros i Hi. case_decide; [lia | reflexivity].
Qed.

(** X7.  [shuffleArray] can return every permutation of its input: for
    each permutation [l'] of the array [l] there are answers of
    [Math.random], all in [0, 1), with which the call returns a new array
    holding exactly [l'], after [length l - 1] draws. *)
Theorem shuffleArray_reaches_every_permutation l l' (arrs : list (list T))
    (objs : list O) (array : addr) :
  l' ≡ₚ l -> arrs !! array = Some l ->
  exists tape : nat -> Q,
    (forall d, unit_interval (tape d))
    /\ imageUtils.shuffleArray array
         {| arrays := arrs; objects := objs; entropy := tape; drawn := 0 |}
       = Some (length arrs,
               {| arrays := arrs ++ [l']; objects := objs; entropy := tape;
                  drawn := length l - 1 |}).
Proof.
  intros Hperm Harr.
  assert (Hchoice : exists choice : nat -> nat,
            (forall i, (choice i <= i)%nat)
            /\ fisher_yates choice (length l - 1) l = l').
  { destruct l as [| v l0] eqn:El.
    - apply Permutation_nil_r in Hperm. subst l'.
      exists (fun _ => 0%nat). split; [intros i; lia | reflexivity].
    - rewrite <- El in *. assert (0 < length l)%nat by (subst l; cbn; lia).
      apply fisher_yates_reaches; [lia | |].
      + replace (S (length l - 1)) with (length l) by lia.
        rewrite take_ge by (by rewrite (Permutation_length Hperm)).
        by rewrite take_ge.
      + replace (S (length l - 1)) with (length l) by lia.
        rewrite drop_ge by (by rewrite (Permutation_length Hperm)).
        by rewrite drop_ge. }
  destruct Hchoice as (choice & Hchoice & Hfy).
  exists (tape_of choice (length l - 1)). split.
  - intros d. apply exact_index, Hchoice.
  - unfold imageUtils.shuffleArray, bind, array_elems, new_array, array_length.
    js_simpl. rewrite Harr. js_simpl. rewrite list_lookup_middle by done.
    rewrite (shuffle_loop_exact choice (length l - 1) (length l - 1) _ _ l); js_simpl.
    + unfold ret. rewrite Hfy. do 3 f_equal.
      rewrite <- (Nat.add_0_r (length arrs)) at 1. by rewrite insert_app_r.
    + by apply list_lookup_middle.
    + lia.
    + lia.
    + exact Hchoice.
    + reflexivity.
    + lia.
Qed.

End ShuffleMore.

(** ** What the editor draws *)

Lemma grid_lines_ops (rect : Rect) (size : BingoSize) (op : GridEditorDraw.Op) :
  op ∈ GridEditorDraw.grid_lines rect size ->
  (exists px py, op = GridEditorDraw.moveTo px py)
  \/ (exists px py, op = GridEditorDraw.lineTo px py).
Proof.
  unfold GridEditorDraw.grid_lines. intros Hin.
  apply list_elem_of_In, in_concat in Hin as (ops & Hops & Hin).
  apply in_map_iff in Hops as (i & <- & _).
  cbn in Hin. destruct Hin as [<- | [<- | [<- | [<- | []]]]]; eauto.
Qed.

Lemma drawn_handle (canvas : Canvas) (rect : Rect) (size : BingoSize) (cx cy radius : Q) :
  GridEditorDraw.arc cx cy radius ∈ GridEditorDraw.draw canvas rect size ->
  cx = x rect + width rect /\ cy = y rect + height rect /\ radius = 12.
Proof.
  unfold GridEditorDraw.draw. intros Hin.
  apply elem_of_app in Hin as [Hin | Hin].
  { apply list_elem_of_In in Hin. cbn in Hin.
    repeat (destruct Hin as [Hin | Hin]; [discriminate |]). destruct Hin. }
  apply elem_of_app in Hin as [Hin | Hin].
  { apply grid_lines_ops in Hin as [(? & ? & [=]) | (? & ? & [=])]. }
  apply list_elem_of_In in Hin. cbn in Hin.
  destruct Hin as [Hin | [Hin | [Hin | [Hin | [Hin | []]]]]]; try discriminate.
  injection Hin as <- <- <-. auto.
Qed.

(** X22.  The dashed lines the editor draws are the inner edges of the
    cells of [getCellRect]: for [i = 1 .. size - 1] a vertical segment at
    the left edge of column [i] from the top to the bottom of the region,
    and a horizontal segment at the top edge of row [i] from its left to
    its right; so the left edge of every cell not in column 0, and the top
    edge of every cell not in row 0, is drawn. *)
Theorem editor_grid_marks_cell_edges (rect : Rect) (size : BingoSize) :
  let n := size_nat size in
  let cell := imageUtils.getCellRect rect size in
  let lines := GridEditorDraw.grid_lines rect size in
  lines
  = concat (map (fun i =>
        [GridEditorDraw.moveTo (x (cell i)) (y rect);
         GridEditorDraw.lineTo (x (cell i)) (y rect + height rect);
         GridEditorDraw.moveTo (x rect) (y (cell (i * n)%nat));
         GridEditorDraw.lineTo (x rect + width rect) (y (cell (i * n)%nat))])
      (seq 1 (n - 1)))
  /\ (forall k, (k < n * n)%nat -> (0 < k mod n)%nat ->
        GridEditorDraw.moveTo (x (cell k)) (y rect) ∈ lines
        /\ GridEditorDraw.lineTo (x (cell k)) (y rect + height rect) ∈ lines)
  /\ (forall k, (k < n * n)%nat -> (0 < k / n)%nat ->
        GridEditorDraw.moveTo (x rect) (y (cell k)) ∈ lines
        /\ GridEditorDraw.lineTo (x rect + width rect) (y (cell k)) ∈ lines).
Proof.
  intros n cell lines. pose proof (size_nat_pos size) as Hn. fold n in Hn.
  assert (Hin : forall i, (1 <= i < n)%nat ->
            forall op,
              In op [GridEditorDraw.moveTo
                       (x rect + Number.of_nat i * (width rect / Number.of_nat n)) (y rect);
                     GridEditorDraw.lineTo
                       (x rect + Number.of_nat i * (width rect / Number.of_nat n))
                       (y rect + height rect);
                     GridEditorDraw.moveTo (x rect)
                       (y rect + Number.of_nat i * (height rect / Number.of_nat n));
                     GridEditorDraw.lineTo (x rect + width rect)
                       (y rect + Number.of_nat i * (height rect / Number.of_nat n))] ->
              op ∈ lines).
  { intros i Hi op Hop. unfold lines, GridEditorDraw.grid_lines.
    apply list_elem_of_In, in_concat. eexists. split; [| exact Hop].
    apply in_map_iff. exists i. split; [reflexivity | apply in_seq; lia]. }
  split; [| split].
  - unfold lines, GridEditorDraw.grid_lines. fold n. f_equal.
    apply map_ext_in. intros i Hi. apply in_seq in Hi.
    unfold cell, imageUtils.getCellRect. cbn [x y]. fold n.
    rewrite Nat.mod_small by lia. rewrite Nat.div_mul by lia. reflexivity.
  - intros k Hk Hcol.
    pose proof (cell_coords n k Hn Hk) as [_ Hlt].
    unfold cell, imageUtils.getCellRect. cbn [x y]. fold n.
    split; apply (Hin (k mod n)%nat); try lia; cbn; auto.
  - intros k Hk Hrow.
    pose proof (cell_coords n k Hn Hk) as [Hlt _].
    unfold cell, imageUtils.getCellRect. cbn [x y]. fold n.
    split; apply (Hin (k / n)%nat); try lia; cbn; auto.
Qed.

(** X23.  The handle the editor draws is a disc of radius 12 around the
    bottom-right corner of the rectangle; a first contact (no contact
    active before) anywhere on that disc starts a resize gesture, anchored
    at the contact position, and hands over no rectangle. *)
Theorem pressing_drawn_handle_resizes (Math_sqrt : Q -> Q) (canvas : Canvas)
    (canvasRef : option Canvas) (rect : Rect) (size : BingoSize)
    (est : GridEditor.State) (e : PointerEvent) (cx cy radius : Q) :
  GridEditor.activePointers est = [] ->
  GridEditorDraw.arc cx cy radius ∈ GridEditorDraw.draw canvas rect size ->
  let pos := getCanvasMousePos canvasRef (clientX e) (clientY e) in
  (pos_x pos - cx) * (pos_x pos - cx) + (pos_y pos - cy) * (pos_y pos - cy)
  <= radius * radius ->
  let r := GridEditor.handlePointerDown Math_sqrt canvasRef rect est e in
  GridEditor.dragMode (fst r) = Some GridEditor.resize_br
  /\ GridEditor.isDragging (fst r) = true
  /\ GridEditor.startPos (fst r) = pos
  /\ GridEditor.activePointers (fst r) = [(pointerId e, pos)]
  /\ snd r = None.
Proof.
  intros Hidle Harc pos Hdisc r.
  apply drawn_handle in Harc as (-> & -> & ->).
  assert (Hnear : forall d o : Q, d * d + o * o <= 12 * 12 ->
            Number.ltb (Number.Math_abs d) 30 = true).
  { intros d o Hd. apply ltb_lt. unfold Number.Math_abs.
    apply Qabs_case; intros _; nra. }
  unfold r, GridEditor.handlePointerDown. fold pos. rewrite Hidle.
  cbn [GridEditor.Map_set GridEditor.Map_size length].
  destruct (decide (1 = 1)%nat) as [_ | ?]; [| done].
  rewrite (Hnear _ _ Hdisc).
  rewrite (Hnear (pos_y pos - (y rect + height rect)) (pos_x pos - (x rect + width rect)))
    by (rewrite Qplus_comm; exact Hdisc).
  cbn. auto.
Qed.

(** ** Examples of the further properties *)

Lemma photo_reachable : app_reachable Scenarios.photo_state Scenarios.photo_memory.
Proof.
  eassert (H : app_reachable _ _).
  { eapply (app_image 100 100 Examples.app0 Examples.empty_memory).
    - exact (@entropy_half nat CellMapping).
    - vm_compute. reflexivity. }
  apply (app_rect Scenarios.photo_rect) in H. exact H.
Qed.

Lemma mapping_matches_grid_size_witness :
  exists refs cells,
    holds_cells Scenarios.photo_memory (App.mapping Scenarios.photo_state) refs cells
    /\ length cells = 25%nat
    /\ map originalPos cells ≡ₚ seq 0 25.
Proof.
  destruct (mapping_matches_grid_size _ _ photo_reachable)
    as (refs & cells & Hc & Hlen & _ & Hperm).
  exists refs, cells. split; [exact Hc |]. split; [exact Hlen | exact Hperm].
Defined.

Lemma handleSwap_twice_restores_witness :
  exists st1 m1 st2 m2,
    App.handleSwap 0 8 Examples.app0 Examples.identity9 = Some (st1, m1)
    /\ App.handleSwap 0 8 st1 m1 = Some (st2, m2)
    /\ holds_cells m2 (App.mapping st2) (seq 0 9) (map (fun i => mkCell i i) (seq 0 9)).
Proof.
  destruct (handleSwap_twice_restores Examples.app0 Examples.identity9 (seq 0 9)
              (map (fun i => mkCell i i) (seq 0 9)) 0 8 identity9_holds_cells
              ltac:(rewrite length_map, length_seq; lia)
              ltac:(rewrite length_map, length_seq; lia))
    as (st1 & m1 & st2 & m2 & cells1 & H1 & _ & H2 & Hback & _).
  exists st1, m1, st2, m2. auto.
Defined.

Lemma handleSwap_succeeds_iff_in_range_witness :
  is_Some (App.handleSwap 0 8 Examples.app0 Examples.identity9)
  /\ ~ is_Some (App.handleSwap 0 9 Examples.app0 Examples.identity9).
Proof.
  split.
  - apply (handleSwap_succeeds_iff_in_range Examples.app0 Examples.identity9 (seq 0 9)
             (map (fun i => mkCell i i) (seq 0 9)) 0 8 identity9_holds_cells).
    rewrite length_map, length_seq. lia.
  - intros H.
    apply (handleSwap_succeeds_iff_in_range Examples.app0 Examples.identity9 (seq 0 9)
             (map (fun i => mkCell i i) (seq 0 9)) 0 9 identity9_holds_cells) in H.
    rewrite length_map, length_seq in H. lia.
Defined.

Lemma swap_writes_shared_cells_shuffle_copies_witness :
  exists st' m' cells',
    App.handleSwap 0 8 Examples.app0 Examples.identity9 = Some (st', m')
    /\ App.mapping st' <> App.mapping Examples.app0
    /\ holds_cells m' (App.mapping Examples.app0) (seq 0 9) cells'
    /\ cells' !! 0%nat = Some (mkCell 0 8) /\ cells' !! 8%nat = Some (mkCell 8 0).
Proof.
  eexists _, _, _. split; [vm_compute; reflexivity |].
  destruct (swap_writes_shared_cells_shuffle_copies Examples.app0 Examples.identity9
              (seq 0 9) (map (fun i => mkCell i i) (seq 0 9)) identity9_holds_cells)
    as [Hswap _].
  destruct (Hswap 0%nat 8%nat (mkCell 0 0) (mkCell 8 8) _ _ eq_refl eq_refl eq_refl)
    as (Hnew & _ & Hold).
  split; [exact Hnew |]. split; [exact Hold |]. split; reflexivity.
Defined.

Lemma shuffleArray_draws_length_minus_one_witness :
  exists (newArr : addr) (m' : Memory nat unit),
    imageUtils.shuffleArray 0
      {| arrays := [[10; 20; 30; 40]%nat]; objects := [];
         entropy := fun _ => 1 # 2; drawn := 0 |} = Some (newArr, m')
    /\ drawn m' = 3%nat.
Proof.
  destruct (shuffleArray_draws_length_minus_one
              {| arrays := [[10; 20; 30; 40]%nat]; objects := ([] : list unit);
                 entropy := fun _ => 1 # 2; drawn := 0 |}
              0 [10; 20; 30; 40]%nat eq_refl) as [Hdraws _].
  destruct (Hdraws (fun _ => half_in_unit_interval)) as (newArr & m' & Hrun & Hd & _).
  exists newArr, m'. split; [exact Hrun | exact Hd].
Defined.

Lemma shuffleArray_reaches_every_permutation_witness :
  exists tape : nat -> Q,
    (forall d, unit_interval (tape d))
    /\ imageUtils.shuffleArray 0
         {| arrays := [[10; 20; 30]%nat]; objects := ([] : list unit);
            entropy := tape; drawn := 0 |}
       = Some (1%nat,
               {| arrays := [[10; 20; 30]; [30; 10; 20]]%nat; objects := [];
                  entropy := tape; drawn := 2 |}).
Proof.
  exact (shuffleArray_reaches_every_permutation [10; 20; 30]%nat [30; 10; 20]%nat
           [[10; 20; 30]%nat] [] 0 (Permutation_cons_append [10; 20]%nat 30%nat) eq_refl).
Defined.


Lemma editor_keeps_min_size_witness :
  let ast' :=
    fst (AppEditor.run Examples.sqrt_of_square (Scenarios.editing, GridEditor.initial)
           [AppEditor.contact_begin Examples.canvas (Scenarios.at_ 1 90 90);
            AppEditor.contact_move Examples.canvas (Scenarios.at_ 1 10 130)]) in
  width (rect (App.gridConfig ast')) == 40
  /\ 40 <= width (rect (App.gridConfig ast'))
  /\ 40 <= height (rect (App.gridConfig ast')).
Proof.
  split; [reflexivity |].
  destruct (editor_keeps_min_size Examples.sqrt_of_square Scenarios.editing
              GridEditor.initial
              [AppEditor.contact_begin Examples.canvas (Scenarios.at_ 1 90 90);
               AppEditor.contact_move Examples.canvas (Scenarios.at_ 1 10 130)]
              ltac:(discriminate) ltac:(discriminate)) as (Hw & Hh & _).
  split; [exact Hw | exact Hh].
Defined.

Lemma moving_follows : following GridEditor.move 1 Scenarios.moving.
Proof. split; [reflexivity |]. split; [reflexivity |]. by eexists. Qed.

Lemma resizing_follows : following GridEditor.resize_br 1 Examples.resizing.
Proof. split; [reflexivity |]. split; [reflexivity |]. by eexists. Qed.

Lemma move_gesture_follows_pointer_witness :
  let s' :=
    AppEditor.run Examples.sqrt_of_square (Scenarios.editing, Scenarios.moving)
      [AppEditor.contact_move Examples.canvas (Scenarios.at_ 1 60 70);
       AppEditor.contact_move Examples.canvas (Scenarios.at_ 1 80 20)] in
  x (rect (App.gridConfig (fst s'))) == 30 /\ y (rect (App.gridConfig (fst s'))) == -30
  /\ x (rect (App.gridConfig (fst s'))) - pos_x (GridEditor.startPos (snd s')) == 0 - 50
  /\ width (rect (App.gridConfig (fst s'))) = 100.
Proof.
  split; [reflexivity |]. split; [reflexivity |].
  destruct (move_gesture_follows_pointer Examples.sqrt_of_square 1
              [AppEditor.contact_move Examples.canvas (Scenarios.at_ 1 60 70);
               AppEditor.contact_move Examples.canvas (Scenarios.at_ 1 80 20)]
              Scenarios.editing Scenarios.moving moving_follows)
    as (_ & Hx & _ & Hw & _).
  { repeat constructor; by eexists _, _. }
  split; [exact Hx | exact Hw].
Defined.

Lemma resize_fixes_corner_pinch_fixes_centre_witness :
  let s' :=
    AppEditor.run Examples.sqrt_of_square (Scenarios.editing, Examples.resizing)
      [AppEditor.contact_move Examples.canvas (Scenarios.at_ 1 150 10)] in
  x (rect (App.gridConfig (fst s'))) = 0 /\ y (rect (App.gridConfig (fst s'))) = 0
  /\ width (rect (App.gridConfig (fst s'))) == 150
  /\ height (rect (App.gridConfig (fst s'))) == 40.
Proof.
  destruct (resize_fixes_corner_pinch_fixes_centre Examples.sqrt_of_square
              [AppEditor.contact_move Examples.canvas (Scenarios.at_ 1 150 10)]
              Scenarios.editing Examples.resizing) as [Hresize _].
  destruct (Hresize 1%Z resizing_follows) as [Hx Hy].
  { repeat constructor; by eexists _, _. }
  split; [exact Hx |]. split; [exact Hy |]. split; reflexivity.
Defined.

Lemma ended_contact_is_forgotten_witness :
  let est :=
    fst (GridEditor.handlePointerDown Examples.sqrt_of_square Examples.canvas
           Examples.square100 GridEditor.initial (Scenarios.at_ 1 50 50)) in
  let est' := fst (GridEditor.handlePointerUp est (Scenarios.at_ 1 60 60)) in
  GridEditor.Map_has (GridEditor.activePointers est) 1 = true
  /\ GridEditor.Map_has (GridEditor.activePointers est') 1 = false
  /\ GridEditor.handlePointerMove Examples.sqrt_of_square Examples.canvas
       Examples.square100 est' (Scenarios.at_ 1 70 70) = (est', None).
Proof.
  split; [reflexivity |].
  destruct (ended_contact_is_forgotten Examples.sqrt_of_square
              (fst (GridEditor.handlePointerDown Examples.sqrt_of_square Examples.canvas
                      Examples.square100 GridEditor.initial (Scenarios.at_ 1 50 50)))
              (Scenarios.at_ 1 60 60))
    as (Hgone & _ & Hmove & _).
  { apply editor_down, editor_initial. }
  split; [exact Hgone |]. apply Hmove. reflexivity.
Defined.

Lemma no_gesture_until_next_begin_witness :
  let s' :=
    AppEditor.run Examples.sqrt_of_square (Scenarios.editing, Examples.resizing)
      [AppEditor.contact_end (Scenarios.at_ 1 100 100);
       AppEditor.contact_move Examples.canvas (Scenarios.at_ 1 150 150);
       AppEditor.contact_end (Scenarios.at_ 1 150 150)] in
  fst s' = Scenarios.editing /\ GridEditor.dragMode (snd s') = None.
Proof.
  apply (no_gesture_until_next_begin Examples.sqrt_of_square Scenarios.editing
           Examples.resizing (Scenarios.at_ 1 100 100)
           [AppEditor.contact_move Examples.canvas (Scenarios.at_ 1 150 150);
            AppEditor.contact_end (Scenarios.at_ 1 150 150)]).
  - vm_compute. lia.
  - repeat constructor; intros c e; discriminate.
Defined.

Lemma pinch_start_does_not_jump_witness :
  let s1 :=
    AppEditor.step Examples.sqrt_of_square (Scenarios.editing, Examples.resizing)
      (AppEditor.contact_begin Examples.canvas (Scenarios.at_ 2 130 140)) in
  let s2 :=
    AppEditor.step Examples.sqrt_of_square s1
      (AppEditor.contact_move Examples.canvas (Scenarios.at_ 2 130 140)) in
  GridEditor.dragMode (snd s1) = Some GridEditor.pinch
  /\ (exists d, GridEditor.initialPinchDist (snd s1) = Some d /\ d == 50)
  /\ x (rect (App.gridConfig (fst s2))) == 0
  /\ width (rect (App.gridConfig (fst s2))) == 100.
Proof.
  destruct (pinch_start_does_not_jump Examples.sqrt_of_square Scenarios.editing
              Examples.resizing 1 {| pos_x := 100; pos_y := 100 |} Examples.canvas
              (Scenarios.at_ 2 130 140) eq_refl ltac:(discriminate))
    as ((_ & Hmode & _ & _ & Hdist & _) & Hstill).
  split; [exact Hmode |]. split.
  - eexists. split; [exact Hdist | reflexivity].
  - destruct (Hstill ltac:(discriminate) ltac:(discriminate) ltac:(discriminate))
      as (Hx & _ & Hw & _).
    split; [exact Hx | exact Hw].
Defined.


Lemma export_copies_each_cell_once_witness :
  exists calls,
    AppExport.downloadImage true true Scenarios.photo_state Scenarios.photo_memory
    = Some (calls, Scenarios.photo_memory)
    /\ length calls = 26%nat
    /\ calls !! 0%nat = Some (Canvas2D.drawImage 0 0).
Proof.
  destruct (export_copies_each_cell_once _ _ photo_reachable)
    as (refs & cells & Hc & Hrun & Htargets & _).
  eexists. split; [exact Hrun |]. split; [| reflexivity].
  cbn [length]. rewrite length_imap.
  apply (f_equal length) in Htargets. rewrite length_imap, length_map, length_seq in Htargets.
  rewrite Htargets. reflexivity.
Defined.

Lemma image_load_centres_default_region_witness :
  exists st' m',
    AppImage.handleImageUpload_loaded 200 100 Examples.app0 Examples.empty_memory
    = Some (st', m')
    /\ width (rect (App.gridConfig st')) == 70
    /\ x (rect (App.gridConfig st')) == 65 /\ y (rect (App.gridConfig st')) == 15
    /\ x (rect (App.gridConfig st')) + width (rect (App.gridConfig st')) / 2 == 200 / 2.
Proof.
  destruct (image_load_centres_default_region 200 100 Examples.app0
              Examples.empty_memory eq_refl eq_refl)
    as (st' & m' & refs & Hrun & _ & _ & _ & Hrect).
  exists st', m'. split; [exact Hrun |].
  destruct Hrect as (_ & _ & _ & _ & _ & Hcx & _).
  vm_compute in Hrun. injection Hrun as <- <-.
  split; [reflexivity |]. split; [reflexivity |]. split; [reflexivity | exact Hcx].
Defined.

Lemma idle_board_draws_what_export_draws_witness :
  BingoBoardDraw.draw (AppBoardEvents.props Scenarios.photo_state)
    (App.mapping Scenarios.photo_state) BingoBoard.initial Scenarios.photo_memory
  = AppExport.downloadImage true true Scenarios.photo_state Scenarios.photo_memory.
Proof.
  apply (idle_board_draws_what_export_draws BingoBoard.initial Scenarios.photo_state
           Scenarios.photo_memory board_initial eq_refl photo_reachable).
Defined.

Lemma dragged_cell_floats_under_pointer_witness :
  exists calls sx sy sw sh dx dy dw dh,
    BingoBoardDraw.draw Examples.board 0 Scenarios.dragging Examples.identity9
    = Some (calls, Examples.identity9)
    /\ last calls = Some (Canvas2D.drawImage9 sx sy sw sh dx dy dw dh)
    /\ sx == 0 /\ sy == 0 /\ sw == 30 /\ sh == 30
    /\ dx == 30 /\ dy == 30 /\ dw == 30 /\ dh == 30.
Proof.
  destruct (dragged_cell_floats_under_pointer Examples.board Scenarios.dragging 0
              Examples.identity9 (seq 0 9) (map (fun i => mkCell i i) (seq 0 9))
              0 (mkCell 0 0) identity9_holds_cells eq_refl eq_refl)
    as (calls & sx & sy & sw & sh & dx & dy & dw & dh & Hrun & Hlast & _).
  exists calls, sx, sy, sw, sh, dx, dy, dw, dh.
  split; [exact Hrun |]. split; [exact Hlast |].
  vm_compute in Hrun. injection Hrun as <-.
  vm_compute in Hlast. injection Hlast as <- <- <- <- <- <- <- <-.
  repeat split.
Defined.

Lemma drag_and_drop_swaps_witness :
  exists bst' ast' m' refs cells',
    AppBoardEvents.run (BingoBoard.initial, Scenarios.photo_state)
      [AppBoardEvents.contact_begin Examples.canvas (Scenarios.at_ 1 20 20);
       AppBoardEvents.contact_move Examples.canvas (Scenarios.at_ 1 50 50);
       AppBoardEvents.contact_end] Scenarios.photo_memory = Some ((bst', ast'), m')
    /\ BingoBoard.draggedIdx bst' = None
    /\ holds_cells m' (App.mapping ast') refs cells'
    /\ cells' !! 0%nat = Some (mkCell 0 12) /\ cells' !! 12%nat = Some (mkCell 12 0)
    /\ app_reachable ast' m'.
Proof.
  destruct (drag_and_drop_swaps BingoBoard.initial Scenarios.photo_state
              Scenarios.photo_memory Examples.canvas Examples.canvas
              (Scenarios.at_ 1 20 20) (Scenarios.at_ 1 50 50) 0 12 photo_reachable
              eq_refl eq_refl ltac:(discriminate))
    as (bst' & ast' & m' & refs & cells & ca & cb & Hc & Ha & Hb & Hrun & Hd & _ & _
        & Hc' & Hreach).
  destruct Hc as (Hrefs & _ & Hcells).
  injection Hrefs as <-.
  destruct (Forall2_lookup_r _ _ _ _ _ Hcells Ha) as (ra & Hra & Hca).
  destruct (Forall2_lookup_r _ _ _ _ _ Hcells Hb) as (rb & Hrb & Hcb).
  injection Hra as <-. injection Hrb as <-.
  injection Hca as <-. injection Hcb as <-.
  exists bst', ast', m', (seq 0 25). eexists.
  split; [exact Hrun |]. split; [exact Hd |]. split; [exact Hc' |].
  apply lookup_lt_Some in Ha, Hb.
  split; [| split; [| exact Hreach]].
  - rewrite list_lookup_insert_ne by done. by rewrite list_lookup_insert_eq.
  - by rewrite list_lookup_insert_eq by (by rewrite length_insert).
Defined.

Lemma cancelled_drags_change_nothing_witness :
  exists bst',
    AppBoardEvents.run (BingoBoard.initial, Scenarios.photo_state)
      [AppBoardEvents.contact_begin Examples.canvas (Scenarios.at_ 1 20 20);
       AppBoardEvents.contact_move Examples.canvas (Scenarios.at_ 1 5 5);
       AppBoardEvents.contact_end] Scenarios.photo_memory
    = Some ((bst', Scenarios.photo_state), Scenarios.photo_memory)
    /\ BingoBoard.draggedIdx bst' = None /\ BingoBoard.hoverIdx bst' = None.
Proof.
  destruct (cancelled_drags_change_nothing BingoBoard.initial Scenarios.photo_state
              Scenarios.photo_memory Examples.canvas Examples.canvas
              (Scenarios.at_ 1 20 20) (Scenarios.at_ 1 5 5)) as [Houtside _].
  apply Houtside. reflexivity.
Defined.

Lemma editor_grid_marks_cell_edges_witness :
  let cell := imageUtils.getCellRect Examples.region Size3 in
  x (cell 5%nat) == 60 /\ y (cell 5%nat) == 30
  /\ GridEditorDraw.moveTo (x (cell 5%nat)) (y Examples.region)
     ∈ GridEditorDraw.grid_lines Examples.region Size3
  /\ GridEditorDraw.lineTo (x Examples.region + width Examples.region) (y (cell 5%nat))
     ∈ GridEditorDraw.grid_lines Examples.region Size3.
Proof.
  destruct (editor_grid_marks_cell_edges Examples.region Size3) as (_ & Hcols & Hrows).
  split; [reflexivity |]. split; [reflexivity |]. split.
  - apply (Hcols 5%nat); cbn; lia.
  - apply (Hrows 5%nat); cbn; lia.
Defined.

Lemma pressing_drawn_handle_resizes_witness :
  GridEditor.dragMode
    (fst (GridEditor.handlePointerDown Examples.sqrt_of_square Examples.canvas
            Examples.square100 GridEditor.initial (Scenarios.at_ 1 106 92)))
  = Some GridEditor.resize_br.
Proof.
  apply (pressing_drawn_handle_resizes Examples.sqrt_of_square Scenarios.shrunk_canvas
           Examples.canvas Examples.square100 Size3 GridEditor.initial
           (Scenarios.at_ 1 106 92) (0 + 100) (0 + 100) 12 eq_refl).
  - unfold GridEditorDraw.draw. apply elem_of_app. right. apply elem_of_app. right.
    apply list_elem_of_In. cbn. auto.
  - vm_compute. discriminate.
Defined.
